(** * A reactive core (signal / effect) and its DOM element builder

    Shallow embedding of [src/framework/state.ts]: [signal] and [effect],
    and the element builder that follows them ([setOrRemoveAttr], [add],
    [createElement]).

    The two closures returned by [signal] share the variables [value] and
    [observers]; the closures made by [effect] share [fn], [cleanup] and
    [compute].  Each call of [signal] / [effect] therefore allocates one
    cell in a store, and a closure is a reference to its cell.  The
    function objects that end up in [Observer] and in the observer sets
    are named by where they were made ([Compute e], [Noop e k]), so that
    a [Set] of them is a list without duplicates in insertion order.

    User callbacks are programs of a small command language (reads,
    writes, conditionals, exceptions, nested effects, disposals, calls of
    the builder); the code of the repository is written in a
    state-and-exception monad.  The calls that re-enter the code (setter
    -> observer -> callback -> setter ...) go through a fuelled
    interpreter; fuel only bounds their depth ([interp_more_fuel]).

    Kept outside the model, as parameters or by restriction:
    - the DOM: its calls are logged, and which of them throw is a
      parameter; an element made by [document.createElement] is taken to
      be in the XHTML namespace;
    - [namespaceElements] of ns.ts and the builtins [String] and
      [String.prototype.toLowerCase];
    - numbers are integers; a function value given to the builder is an
      accessor-like expression; a callback returns the same kind of value
      on every run;
    - a reference to a signal or an effect that was never made throws. *)

From Stdlib Require Import ZArith String Ascii.
From Stdlib Require Import DecimalString.
From stdpp Require Import base tactics option numbers list relations strings.

Set Warnings "-register-all,-clear-no-such-hyp".
Local Open Scope string_scope.
Local Open Scope list_scope.

(** ** Values *)

(** Cells and nodes are named by their allocation index. *)
Abbreviation sigid := nat (only parsing).
Abbreviation effid := nat (only parsing).
Abbreviation nodeid := nat (only parsing).

(** [type Primitive = string | number | boolean | null | undefined];
    numbers are restricted to the integers. *)
Inductive prim :=
| PUndefined
| PNull
| PBool (b : bool)
| PNum (z : Z)
| PStr (s : string).

(** Function values the builder may call: [() => T] whose body reads
    signals and combines the results ([Accessor<T>]). *)
Inductive expr :=
| Lit (p : prim)
| Read (s : sigid)
| App1 (f : prim -> prim) (a : expr)
| App2 (f : prim -> prim -> prim) (a b : expr).

(** What [createElement] and [add] receive: primitives, functions, nodes,
    arrays and plain objects (an object is the list of its entries, in the
    order [Object.entries] gives them). *)
Inductive jsval :=
| VPrim (p : prim)
| VFun (f : expr)
| VNode (n : nodeid)
| VArr (l : list jsval)
| VObj (l : list (string * jsval)).

(** The function objects stored in [Observer] and in the observer sets:
    the [compute] closure of effect [e], or the [k]-th empty function
    [() => {}] that a disposer of [e] has assigned to [compute]. *)
Inductive observer :=
| Compute (e : effid)
| Noop (e : effid) (k : nat).

#[global] Instance observer_eq_dec : EqDecision observer.
Proof. solve_decision. Defined.

(** ** Callbacks *)

(** Statements of a callback.  [Effect body ret] is [effect(() => { body;
    return ret })]; [Dispose e] calls the disposer that [effect] returned
    for effect [e]. *)
Inductive action :=
| Do (e : expr)
| Write (s : sigid) (e : expr)
| Throw
| If (c : expr) (th el : list action)
| NewSignal (e : expr)
| Effect (body : list action) (ret : returned)
| Dispose (e : effid)
| SetOrRemoveAttr (ns : option string) (el : nodeid) (key : string) (raw : jsval)
| SetText (n : nodeid) (child : expr)
| CreateElement (tag : string) (first : jsval) (children : list jsval)
| Add (parent : nodeid) (child : jsval)
(** What a callback returns, as [effect] uses it: a falsy value, a
    cleanup function, or a truthy value that is not callable. *)
with returned :=
| RVoid
| RCleanup (body : list action)
| RNotCallable.

Definition code := list action.

(** ** The store *)

Record signal_cell := SignalCell {
  value : prim;
  observers : list observer }.

Record effect_cell := EffectCell {
  fn : code;
  fn_ret : returned;
  cleanup : returned;
  compute : observer }.

(** Calls that cross the boundary to the DOM. *)
Inductive domcall :=
| createElementNS (ns tag : string)
| createElement_ (tag : string)
| createTextNode (data : string)
| appendChild (parent child : nodeid)
| setAttributeNS (el : nodeid) (ns : option string) (key attr : string)
| setAttribute (el : nodeid) (key attr : string)
| removeAttributeNS (el : nodeid) (ns key : string)
| removeAttribute (el : nodeid) (key : string)
| removeEventListener (el : nodeid) (name : string) (handler : jsval)
| addEventListener (el : nodeid) (name : string) (handler : jsval)
| set_textContent (n : nodeid) (data : string).

(** Ghost history: what was called, in order. *)
Inductive event :=
| EvGet (s : sigid) (v : prim) (tracking : option observer)
| EvSet (s : sigid) (v : prim)
| EvCall (o : observer)
| EvRun (e : effid)
| EvCleanup (e : effid)
| EvDispose (e : effid)
| EvDom (d : domcall)
| EvWarn (msg : string).

Record machine := Machine {
  Observer : option observer;
  signals : list signal_cell;
  effects : list effect_cell;
  nodes : list (option string);     (* namespaceURI of each node *)
  trace : list event }.

Definition init : machine := Machine None [] [] [] [].

Definition set_Observer (o : option observer) (m : machine) : machine :=
  Machine o (signals m) (effects m) (nodes m) (trace m).
Definition set_signals (l : list signal_cell) (m : machine) : machine :=
  Machine (Observer m) l (effects m) (nodes m) (trace m).
Definition set_effects (l : list effect_cell) (m : machine) : machine :=
  Machine (Observer m) (signals m) l (nodes m) (trace m).
Definition set_nodes (l : list (option string)) (m : machine) : machine :=
  Machine (Observer m) (signals m) (effects m) l (trace m).
Definition log (ev : event) (m : machine) : machine :=
  Machine (Observer m) (signals m) (effects m) (nodes m) (trace m ++ [ev]).

Definition observers_of (m : machine) (s : sigid) : list observer :=
  match signals m !! s with Some c => observers c | None => [] end.

Definition value_of (m : machine) (s : sigid) : option prim :=
  value <$> signals m !! s.

(** ** Outcomes and the monad of the code *)

Inductive outcome (A : Type) : Type :=
| Done (a : A) (m : machine)
| Thrown (m : machine)
| OutOfFuel.
Arguments Done {A} a m.
Arguments Thrown {A} m.
Arguments OutOfFuel {A}.

Definition M (A : Type) : Type := machine -> outcome A.

Definition ret {A} (a : A) : M A := fun m => Done a m.
Definition bind {A B} (c : M A) (k : A -> M B) : M B :=
  fun m => match c m with
           | Done a m' => k a m'
           | Thrown m' => Thrown m'
           | OutOfFuel => OutOfFuel
           end.
Definition throw {A} : M A := fun m => Thrown m.
Definition modify (f : machine -> machine) : M unit := fun m => Done tt (f m).
Definition gets {A} (f : machine -> A) : M A := fun m => Done (f m) m.
Definition emit (ev : event) : M unit := modify (log ev).

(** [try { c } finally { f }] *)
Definition finally {A} (c : M A) (f : machine -> machine) : M A :=
  fun m => match c m with
           | Done a m' => Done a (f m')
           | Thrown m' => Thrown (f m')
           | OutOfFuel => OutOfFuel
           end.

(** [try { c } catch (_e) { h }] *)
Definition catch {A} (c : M A) (h : M A) : M A :=
  fun m => match c m with
           | Thrown m' => h m'
           | r => r
           end.

Notation "x <- c ;; k" := (bind c (fun x => k))
  (at level 100, c at next level, right associativity).
Notation "c ;;; k" := (bind c (fun _ => k))
  (at level 100, k at level 200, right associativity).

Fixpoint forEach {A} (f : A -> M unit) (l : list A) : M unit :=
  match l with
  | [] => ret tt
  | x :: l' => f x ;;; forEach f l'
  end.

(** ** state.ts: signal *)

(** [observers.add(o)] on a [Set]: insertion order, no duplicates. *)
Definition set_add (o : observer) (l : list observer) : list observer :=
  if decide (o ∈ l) then l else l ++ [o].

(** [signal(value)]: a new cell with its own, empty observer set. *)
Definition signal (v : prim) (m : machine) : sigid * machine :=
  (length (signals m), set_signals (signals m ++ [SignalCell v []]) m).

(** The accessor [() => { if (Observer) observers.add(Observer); return value }].
    [None] when [s] is not a signal. *)
Definition accessor (s : sigid) (m : machine) : option (prim * machine) :=
  match signals m !! s with
  | None => None
  | Some c =>
      let m' :=
        match Observer m with
        | Some o =>
            set_signals (<[s := SignalCell (value c) (set_add o (observers c))]> (signals m)) m
        | None => m
        end in
      Some (value c, m')
  end.

(** [value = v], the first statement of the setter. *)
Definition store (s : sigid) (v : prim) (m : machine) : machine :=
  set_signals (alter (fun c => SignalCell v (observers c)) s (signals m)) m.

(** Calling a function value: the accessor for [Read]. *)
Fixpoint eval (e : expr) : M prim :=
  match e with
  | Lit p => ret p
  | Read s =>
      fun m => match accessor s m with
               | Some (v, m') => Done v (log (EvGet s v (Observer m)) m')
               | None => Thrown m
               end
  | App1 f a => x <- eval a ;; ret (f x)
  | App2 f a b => x <- eval a ;; y <- eval b ;; ret (f x y)
  end.

Definition truthy (p : prim) : bool :=
  match p with
  | PUndefined | PNull => false
  | PBool b => b
  | PNum z => negb (Z.eqb z 0)
  | PStr s => negb (String.eqb s "")
  end.

(** ** String helpers of the builder *)

Definition quote : string := String (ascii_of_nat 34) EmptyString.

(** [key.replace(/^[^:]+:/, "")]: drop a non-empty prefix up to the first colon. *)
Definition strip_prefix (key : string) : string :=
  match index 0 ":" key with
  | Some (S i) => substring (S (S i)) (String.length key - S (S i)) key
  | _ => key
  end.

(** [key.slice(2)] *)
Definition slice2 (key : string) : string :=
  substring 2 (String.length key - 2) key.

Definition string_of_nat (n : nat) : string :=
  NilZero.string_of_uint (Nat.to_uint n).

Definition xhtml : string := "http://www.w3.org/1999/xhtml".

(** The table [attrNamespaces] of [setOrRemoveAttr], in entry order. *)
Definition attrNamespaces : list (string * string) :=
  [ ("xlink:", "http://www.w3.org/1999/xlink");
    ("xml:", "http://www.w3.org/XML/1998/namespace");
    ("xsi:", "http://www.w3.org/2001/XMLSchema-instance") ].

(** A string used as a condition: the empty string is falsy. *)
Definition nonempty (o : option string) : option string :=
  match o with
  | Some s => if String.eqb s "" then None else Some s
  | None => None
  end.

Definition namespaceURI (m : machine) (el : nodeid) : option string :=
  match nodes m !! el with Some ns => ns | None => None end.

(** [Object.entries] of an object or an array. *)
Definition entries (v : jsval) : list (string * jsval) :=
  match v with
  | VObj l => l
  | VArr l => imap (fun i x => (string_of_nat i, x)) l
  | _ => []
  end.

(** [value == null || value === false || value === "" || value === undefined] *)
Definition removes (v : jsval) : bool :=
  match v with
  | VPrim PUndefined | VPrim PNull | VPrim (PBool false) => true
  | VPrim (PStr s) => String.eqb s ""
  | _ => false
  end.

(** [first && typeof first === "object" && !(first instanceof Node)] *)
Definition is_props (first : jsval) : bool :=
  match first with
  | VArr _ | VObj _ => true
  | _ => false
  end.

(** [first && (typeof first === "function" || typeof first === "string"
    || first instanceof Node || Array.isArray(first))] *)
Definition is_child (first : jsval) : bool :=
  match first with
  | VFun _ | VNode _ | VArr _ => true
  | VPrim (PStr s) => negb (String.eqb s "")
  | _ => false
  end.

(** [typeof value === "function"] *)
Definition is_function (v : jsval) : bool :=
  match v with
  | VFun _ => true
  | _ => false
  end.

(** [typeof rawValue === "function" ? rawValue() : rawValue] *)
Definition resolve (rawValue : jsval) : M jsval :=
  match rawValue with
  | VFun f => p <- eval f ;; ret (VPrim p)
  | _ => ret rawValue
  end.

(** [ns || element.namespaceURI || null] *)
Definition element_namespace (ns : option string) (m : machine) (element : nodeid)
    : option string :=
  match nonempty ns with
  | Some u => Some u
  | None => nonempty (namespaceURI m element)
  end.

(** The namespace of the attribute: the one of its prefix if the table has
    it, else the element's; none for XHTML. *)
Definition attr_namespace (elementNS : option string) (key : string) : option string :=
  let attrNS :=
    match find (fun pu => String.prefix (fst pu) key) attrNamespaces with
    | Some pu => Some (snd pu)
    | None => elementNS
    end in
  match attrNS with
  | Some u => if String.eqb u xhtml then None else Some u
  | None => None
  end.

(** The text given to [console.warn]. *)
Definition warning (key text : string) : string :=
  "The " ++ quote ++ key ++ quote ++ " property " ++ quote ++ text ++ quote
  ++ " is not a function.".

(** ** The code, with its re-entrant calls left open *)

(** The calls that re-enter the interpreter: running a block of a callback,
    the rest of the setter's loop from index [i], and [add] on an array
    element. *)
Inductive request :=
| Run (c : code)
| Notify (s : sigid) (i : nat)
| AddChild (parent : nodeid) (child : jsval).

Definition set_cleanup (e : effid) (r : returned) (m : machine) : machine :=
  set_effects (alter (fun c => EffectCell (fn c) (fn_ret c) r (compute c)) e (effects m)) m.

Definition next_noop (e : effid) (o : observer) : observer :=
  match o with
  | Compute _ => Noop e 0
  | Noop _ k => Noop e (S k)
  end.

(** [compute = () => {}] *)
Definition reset_compute (e : effid) (m : machine) : machine :=
  set_effects
    (alter (fun c => EffectCell (fn c) (fn_ret c) (cleanup c) (next_noop e (compute c))) e
       (effects m)) m.

Definition the_effect (e : effid) : M effect_cell :=
  fun m => match effects m !! e with Some c => Done c m | None => Thrown m end.

Section Framework.
(** [namespaceElements] of ns.ts, which is not among the sources. *)
Variable namespaceElements : string -> option string.
(** Which DOM calls raise an exception, given the history so far. *)
Variable dom_throws : list event -> domcall -> bool.
(** The builtin [String(...)]. *)
Variable String_ : jsval -> string.
(** The builtin [String.prototype.toLowerCase]. *)
Variable toLowerCase : string -> string.

Definition dom (d : domcall) : M unit :=
  fun m => if dom_throws (trace m) d then Thrown (log (EvDom d) m)
           else Done tt (log (EvDom d) m).

(** A DOM call that makes a node. *)
Definition dom_new (d : domcall) (ns : option string) : M nodeid :=
  dom d ;;;
  n <- gets (fun m => length (nodes m)) ;;
  modify (fun m => set_nodes (nodes m ++ [ns]) m) ;;;
  ret n.

(** [const attr = value === true ? key.replace(/^[^:]+:/, "") : String(value)] *)
Definition attr_text (key : string) (v : jsval) : string :=
  match v with
  | VPrim (PBool true) => strip_prefix key
  | _ => String_ v
  end.

Section Handlers.
Variable rec : request -> M unit.

(** [if (cleanup) cleanup();] *)
Definition run_cleanup (e : effid) : M unit :=
  c <- the_effect e ;;
  match cleanup c with
  | RVoid => ret tt
  | RCleanup body => emit (EvCleanup e) ;;; rec (Run body)
  | RNotCallable => throw
  end.

(** The closure [compute] of [effect]. *)
Definition run_compute (e : effid) : M unit :=
  finally
    (run_cleanup e ;;;
     c <- the_effect e ;;
     modify (set_Observer (Some (compute c))) ;;;
     emit (EvRun e) ;;;
     rec (Run (fn c)) ;;;
     modify (set_cleanup e (fn_ret c)))
    (set_Observer None).

(** Calling a function object held in an observer set. *)
Definition call (o : observer) : M unit :=
  emit (EvCall o) ;;;
  match o with
  | Compute e => run_compute e
  | Noop _ _ => ret tt
  end.

(** [for (let o of observers) o()], from position [i] of the set. *)
Definition notify (s : sigid) (i : nat) : M unit :=
  fun m => match observers_of m s !! i with
           | None => Done tt m
           | Some o => (call o ;;; rec (Notify s (S i))) m
           end.

(** The setter [(v) => { value = v; for (let o of observers) o() }]. *)
Definition setter (s : sigid) (v : prim) : M unit :=
  fun m => match signals m !! s with
           | None => Thrown m
           | Some _ => (emit (EvSet s v) ;;; modify (store s v) ;;; notify s 0) m
           end.

(** [effect(fn)]; the result stands for the disposer it returns. *)
Definition effect (body : code) (r : returned) : M effid :=
  e <- gets (fun m => length (effects m)) ;;
  modify (fun m => set_effects (effects m ++ [EffectCell body r RVoid (Compute e)]) m) ;;;
  call (Compute e) ;;;
  ret e.

(** The disposer [() => { if (cleanup) cleanup(); compute = () => {} }]. *)
Definition disposer (e : effid) : M unit :=
  emit (EvDispose e) ;;;
  run_cleanup e ;;;
  modify (reset_compute e).

Definition setOrRemoveAttr (ns : option string) (element : nodeid)
    (key : string) (rawValue : jsval) : M unit :=
  v <- resolve rawValue ;;
  elementNS <- gets (fun m => element_namespace ns m element) ;;
  let attrNS := attr_namespace elementNS key in
  if removes v then
    catch
      (match attrNS with
       | Some u =>
           if String.eqb u "null"
           then dom (removeAttribute element key) ;;;
                dom (removeAttribute element (strip_prefix key))
           else dom (removeAttributeNS element u (strip_prefix key))
       | None =>
           dom (removeAttribute element key) ;;;
           dom (removeAttribute element (strip_prefix key))
       end)
      (ret tt)
  else
    let attr := attr_text key v in
    catch (dom (setAttributeNS element attrNS key attr))
          (dom (setAttribute element key attr)).

Definition add (parent : nodeid) (child : jsval) : M unit :=
  match child with
  | VArr l => forEach (fun c => rec (AddChild parent c)) l
  | VNode n => dom (appendChild parent n)
  | VFun f =>
      textNode <- dom_new (createTextNode "") None ;;
      effect [SetText textNode f] RVoid ;;;
      dom (appendChild parent textNode)
  | VPrim (PNum _) | VPrim (PStr _) =>
      textNode <- dom_new (createTextNode (String_ child)) None ;;
      dom (appendChild parent textNode)
  | _ => ret tt
  end.

(** The callback given to [Object.entries(first).forEach]. *)
Definition bind_prop (element : nodeid) (kv : string * jsval) : M unit :=
  let key := fst kv in
  let v := snd kv in
  if String.prefix "on" key then
    if is_function v then
      let eventName := toLowerCase (slice2 key) in
      dom (removeEventListener element eventName v) ;;;
      dom (addEventListener element eventName v)
    else
      emit (EvWarn (warning key (String_ v)))
  else
    attrNamespace <- gets (fun m =>
      if String.eqb key "xmlns" then None else namespaceURI m element) ;;
    effect [SetOrRemoveAttr attrNamespace element key v] RVoid ;;;
    ret tt.

Definition createElement (tagName : string) (first : jsval)
    (children : list jsval) : M nodeid :=
  element <- match nonempty (namespaceElements tagName) with
             | Some ns => dom_new (createElementNS ns tagName) (Some ns)
             | None => dom_new (createElement_ tagName) (Some xhtml)
             end ;;
  (if is_props first then forEach (bind_prop element) (entries first) else ret tt) ;;;
  (if is_child first then add element first else ret tt) ;;;
  forEach (add element) children ;;;
  ret element.

(** One statement of a callback. *)
Definition step (a : action) : M unit :=
  match a with
  | Do e => eval e ;;; ret tt
  | Write s e => v <- eval e ;; setter s v
  | Throw => throw
  | If c th el => v <- eval c ;; rec (Run (if truthy v then th else el))
  | NewSignal e => v <- eval e ;; modify (fun m => snd (signal v m))
  | Effect body r => effect body r ;;; ret tt
  | Dispose e => disposer e
  | SetOrRemoveAttr ns el key raw => setOrRemoveAttr ns el key raw
  | SetText n child => v <- eval child ;; dom (set_textContent n (String_ (VPrim v)))
  | CreateElement tag first children => createElement tag first children ;;; ret tt
  | Add parent child => add parent child
  end.

Definition handle (r : request) : M unit :=
  match r with
  | Run c => forEach step c
  | Notify s i => notify s i
  | AddChild parent child => add parent child
  end.
End Handlers.

(** Tying the knot: [fuel] bounds the depth of re-entrant calls. *)
Fixpoint interp (fuel : nat) (r : request) : M unit :=
  match fuel with
  | 0 => fun _ => OutOfFuel
  | S n => handle (interp n) r
  end.

Definition run (fuel : nat) (c : code) : M unit := interp fuel (Run c).

(** A sequence of tasks of the event loop: an exception ends its task
    only. *)
Fixpoint run_tasks (fuel : nat) (tasks : list code) (m : machine) : option machine :=
  match tasks with
  | [] => Some m
  | t :: rest =>
      match run fuel t m with
      | Done _ m' | Thrown m' => run_tasks fuel rest m'
      | OutOfFuel => None
      end
  end.
End Framework.

(** * Notions used in the statements *)

(** Events that go with no change of the store. *)
Definition quiet (ev : event) : Prop :=
  match ev with
  | EvGet _ _ _ | EvSet _ _ => False
  | _ => True
  end.

(** [c] relates the machine it starts from to the machine it ends with,
    also when it throws. *)
Definition respects (R : relation machine) {A} (c : M A) : Prop :=
  forall m, match c m with
            | Done _ m' | Thrown m' => R m m'
            | OutOfFuel => True
            end.

(** Every change the code makes to the machine, with the events it logs. *)
Inductive prim_step : machine -> list event -> machine -> Prop :=
| ps_quiet ev m :
    quiet ev -> prim_step m [ev] (log ev m)
| ps_get s v m m1 :
    accessor s m = Some (v, m1) ->
    prim_step m [EvGet s v (Observer m)] (log (EvGet s v (Observer m)) m1)
| ps_set s v m :
    is_Some (signals m !! s) ->
    prim_step m [EvSet s v] (store s v (log (EvSet s v) m))
| ps_signal v m :
    prim_step m [] (snd (signal v m))
| ps_effect body r m :
    prim_step m []
      (set_effects
         (effects m ++ [EffectCell body r RVoid (Compute (length (effects m)))]) m)
| ps_observer o m :
    prim_step m [] (set_Observer o m)
| ps_cleanup e r m :
    prim_step m [] (set_cleanup e r m)
| ps_reset e m :
    prim_step m [] (reset_compute e m)
| ps_node ns m :
    prim_step m [] (set_nodes (nodes m ++ [ns]) m).

Inductive steps : machine -> list event -> machine -> Prop :=
| steps_nil m : steps m [] m
| steps_snoc m t m1 t1 m2 :
    steps m t m1 -> prim_step m1 t1 m2 -> steps m (t ++ t1) m2.

Definition reaches (m m' : machine) : Prop := exists t, steps m t m'.

(** The events logged between two machines of one run. *)
Definition added (m m' : machine) : list event :=
  drop (length (trace m)) (trace m').

(** The four ways a step can touch the signals. *)
Inductive signal_change (m : machine) (t : list event) (m' : machine) : Prop :=
| sc_none :
    Forall quiet t ->
    (forall s, value_of m' s = value_of m s) ->
    (forall s, observers_of m' s = observers_of m s) ->
    signal_change m t m'
| sc_get s v :
    t = [EvGet s v (Observer m)] ->
    value_of m s = Some v ->
    (forall s', value_of m' s' = value_of m s') ->
    (forall s', observers_of m' s' =
                if decide (s' = s) then
                  match Observer m with
                  | Some o => set_add o (observers_of m s)
                  | None => observers_of m s
                  end
                else observers_of m s') ->
    signal_change m t m'
| sc_set s v :
    t = [EvSet s v] ->
    is_Some (value_of m s) ->
    (forall s', value_of m' s' = if decide (s' = s) then Some v else value_of m s') ->
    (forall s', observers_of m' s' = observers_of m s') ->
    signal_change m t m'
| sc_new v :
    t = [] ->
    (forall s', value_of m' s' =
                if decide (s' = length (signals m)) then Some v else value_of m s') ->
    (forall s', observers_of m' s' = observers_of m s') ->
    signal_change m t m'.

(** The value a read of [s] must return after the events [t], when [s]
    held [v0] before them. *)
Fixpoint last_write (s : sigid) (v0 : prim) (t : list event) : prim :=
  match t with
  | [] => v0
  | EvSet s' v :: t' => last_write s (if decide (s' = s) then v else v0) t'
  | _ :: t' => last_write s v0 t'
  end.

(** Every read of [s] in [t] returns the value written last. *)
Fixpoint reads_ok (s : sigid) (v0 : prim) (t : list event) : Prop :=
  match t with
  | [] => True
  | EvGet s' x _ :: t' => (s' = s -> x = v0) /\ reads_ok s v0 t'
  | EvSet s' v :: t' => reads_ok s (if decide (s' = s) then v else v0) t'
  | _ :: t' => reads_ok s v0 t'
  end.

#[global] Instance prim_eq_dec : EqDecision prim.
Proof. solve_decision. Defined.

(** A call leaves [Observer] as it was, or cleared. *)
Definition kept_or_cleared (m m' : machine) : Prop :=
  Observer m' = Observer m \/ Observer m' = None.

(** [c'] does what [c] does, whenever [c] had fuel enough. *)
Definition refines {A} (c c' : M A) : Prop :=
  forall m, c m <> OutOfFuel -> c' m = c m.

(** [c] ends, normally or by an exception. *)
Definition returns {A} (c : M A) : Prop :=
  forall m, c m <> OutOfFuel.

(** How deep the arrays of a child are nested. *)
Fixpoint depth (v : jsval) : nat :=
  match v with
  | VArr l =>
      S ((fix go (l : list jsval) : nat :=
            match l with
            | [] => 0
            | x :: l' => Nat.max (depth x) (go l')
            end) l)
  | _ => 0
  end.

(** ** Sample parameters, machines and programs *)

(** Sample parameters for the examples: an svg-only namespace table, a
    DOM that never throws, [String] on primitives, and (below)
    [toLowerCase] on ASCII letters. *)
Definition svg_only (tag : string) : option string :=
  if String.eqb tag "svg" then Some "http://www.w3.org/2000/svg" else None.

Definition never_throws (_ : list event) (_ : domcall) : bool := false.

Definition String_prim (v : jsval) : string :=
  match v with
  | VPrim PUndefined => "undefined"
  | VPrim PNull => "null"
  | VPrim (PBool true) => "true"
  | VPrim (PBool false) => "false"
  | VPrim (PNum z) => NilZero.string_of_int (Z.to_int z)
  | VPrim (PStr s) => s
  | VFun _ => "function"
  | VNode _ | VObj _ => "[object Object]"
  | VArr _ => ""
  end.

Definition lower_ascii (c : ascii) : ascii :=
  let n := nat_of_ascii c in
  if andb (Nat.leb 65 n) (Nat.leb n 90) then ascii_of_nat (n + 32) else c.

(** A sample for [toLowerCase]: it lower-cases the ASCII letters and leaves
    every other character as it is. *)
Fixpoint toLowerCase_ascii (s : string) : string :=
  match s with
  | EmptyString => EmptyString
  | String c s' => String (lower_ascii c) (toLowerCase_ascii s')
  end.

Definition demo_run : nat -> code -> M unit := run svg_only never_throws String_prim toLowerCase_ascii.

(** A machine with one signal that effect 0 has read. *)
Definition one_signal : machine :=
  Machine None [SignalCell (PNum 7) [Compute 0]]
    [EffectCell [Do (Read 0)] RVoid RVoid (Compute 0)] [] [].

(** An effect whose callback reads signal 0 and then throws. *)
Definition throwing_effect : code :=
  [NewSignal (Lit (PNum 0)); Effect [Do (Read 0); Throw] RVoid].

(** Two signals, read while effect 0 is tracked. *)
Definition tracking : machine :=
  Machine (Some (Compute 0))
    [SignalCell (PNum 1) []; SignalCell (PNum 2) []]
    [EffectCell [Do (Read 0)] RVoid RVoid (Compute 0)] [] [].

Definition tracking_read : machine :=
  Machine (Some (Compute 0))
    [SignalCell (PNum 1) [Compute 0]; SignalCell (PNum 2) []]
    [EffectCell [Do (Read 0)] RVoid RVoid (Compute 0)] [] [].

(** An effect that makes another effect before it reads signal 0. *)
Definition nested_read : code :=
  [NewSignal (Lit (PNum 0));
   Effect [Effect [] RVoid; Do (Read 0)] RVoid].

(** Two effects read signal 0. *)
Definition two_readers : machine :=
  Machine None [SignalCell (PNum 0) [Compute 0; Compute 1]]
    [EffectCell [Do (Read 0)] RVoid RVoid (Compute 0);
     EffectCell [Do (Read 0)] RVoid RVoid (Compute 1)] [] [].

(** [v > 10] *)
Definition above_ten (p : prim) : prim :=
  match p with
  | PNum z => PBool (Z.ltb 10 z)
  | _ => PBool false
  end.

(** A clamping effect [if (s() > 10) set(10)], then an effect that reads
    the signal, then [set(50)]. *)
Definition clamped : code :=
  [NewSignal (Lit (PNum 0));
   Effect [If (App1 above_ten (Read 0)) [Write 0 (Lit (PNum 10))] []] RVoid;
   Effect [Do (Read 0)] RVoid;
   Write 0 (Lit (PNum 50))].

(** One signal, one effect reading it; the effect is disposed of, then the
    signal is written. *)
Definition dispose_then_write : code :=
  [NewSignal (Lit (PNum 0));
   Effect [Do (Read 0)] RVoid;
   Dispose 0;
   Write 0 (Lit (PNum 1))].

(** An effect that has run once: it read signal 0 and left a cleanup. *)
Definition with_cleanup : machine :=
  Machine None [SignalCell (PNum 0) [Compute 0]]
    [EffectCell [Do (Read 0)] (RCleanup [Do (Lit PNull)]) (RCleanup [Do (Lit PNull)])
       (Compute 0)] [] [].

(** A DOM in which every [setAttributeNS] throws. *)
Definition namespaced_set_throws (_ : list event) (d : domcall) : bool :=
  match d with
  | setAttributeNS _ _ _ _ => true
  | _ => false
  end.

(** A machine with one HTML element. *)
Definition one_element : machine := Machine None [] [] [Some xhtml] [].

(** ** What createElement is to make *)





(** The callback [() => { textNode.textContent = String(child()) }]. *)
Definition text_binding (textNode : nodeid) (child : expr) : code :=
  [SetText textNode child].

(** Fresh effects, one for each callback: nothing to clean up, each its own
    observer. *)
Fixpoint binding_cells (base : nat) (bodies : list code) : list effect_cell :=
  match bodies with
  | [] => []
  | b :: bs => EffectCell b RVoid RVoid (Compute base) :: binding_cells (S base) bs
  end.

Definition is_binding (body : code) : Prop :=
  (exists ns el key v, body = [SetOrRemoveAttr ns el key v]) \/
  (exists n f, body = [SetText n f]).

(** Calls that leave the effects, the nodes and [Observer] alone. *)
Definition same_cells (m m' : machine) : Prop :=
  effects m' = effects m /\ nodes m' = nodes m /\ Observer m' = Observer m.


(** The [namespaceURI] of the element that [createElement] makes. *)
Definition created_namespace (namespaceElements : string -> option string)
    (tagName : string) : option string :=
  match nonempty (namespaceElements tagName) with
  | Some ns => Some ns
  | None => Some xhtml
  end.

(** A machine with the signal [count]. *)
Definition one_counter : machine := Machine None [SignalCell (PNum 0) []] [] [] [].

(** Two signals and a paragraph whose [title] follows the first and whose
    [lang] follows the second. *)
Definition two_bindings : code :=
  [NewSignal (Lit (PStr "a")); NewSignal (Lit (PStr "en"));
   CreateElement "p" (VObj [("title", VFun (Read 0)); ("lang", VFun (Read 1))]) []].

(** * Notions used in the further properties *)

(** Whether a string has a colon. *)
Fixpoint has_colon (s : string) : bool :=
  match s with
  | EmptyString => false
  | String c s' => if Ascii.eqb c ":" then true else has_colon s'
  end.

(** The signals an accessor expression reads. *)
Fixpoint reads (e : expr) : list sigid :=
  match e with
  | Lit _ => []
  | Read s => [s]
  | App1 _ a => reads a
  | App2 _ a b => reads a ++ reads b
  end.

(** The value of an accessor expression on given signal values. *)
Fixpoint denote (vals : sigid -> option prim) (e : expr) : option prim :=
  match e with
  | Lit p => Some p
  | Read s => vals s
  | App1 f a => f <$> denote vals a
  | App2 f a b =>
      match denote vals a, denote vals b with
      | Some x, Some y => Some (f x y)
      | _, _ => None
      end
  end.

(** The machine in which [effect(fn)] calls [fn] for the first time: the
    effect is allocated, nothing is to be cleaned up, [Observer] is its
    [compute]. *)
Definition first_run_start (body : code) (r : returned) (m : machine) : machine :=
  log (EvRun (length (effects m)))
    (set_Observer (Some (Compute (length (effects m))))
       (log (EvCall (Compute (length (effects m))))
          (set_effects
             (effects m ++ [EffectCell body r RVoid (Compute (length (effects m)))]) m))).

(** The children that are not arrays, in the order of a walk through the
    nested arrays of a child. *)
Fixpoint leaves (v : jsval) : list jsval :=
  match v with
  | VArr l =>
      (fix go (l : list jsval) : list jsval :=
         match l with
         | [] => []
         | x :: l' => leaves x ++ go l'
         end) l
  | _ => [v]
  end.

(** The variable [cleanup] of every effect holds what it held, or what the
    callback of the effect returns. *)
Definition slots_kept (m m' : machine) : Prop :=
  forall e c, effects m !! e = Some c ->
    exists c', effects m' !! e = Some c' /\
      fn_ret c' = fn_ret c /\
      (cleanup c' = cleanup c \/ cleanup c' = fn_ret c).

(** Runs that also keep [slots_kept]. *)
Definition run_keeps (m m' : machine) : Prop := reaches m m' /\ slots_kept m m'.

(** ** What brings a call about *)

(** What brings an event about, in the events of a run from [m] to [m']:
    a callback is run, and a cleanup function called, in a call of the
    [compute] of its effect (a cleanup function also in a call of the
    disposer); a function object is called by the setter of a signal whose
    observer set holds it, or by [effect] when it has made the effect. *)
Definition cause (m m' : machine) (ev : event) : Prop :=
  match ev with
  | EvRun e => EvCall (Compute e) ∈ added m m'
  | EvCleanup e => EvCall (Compute e) ∈ added m m' \/ EvDispose e ∈ added m m'
  | EvCall o =>
      (exists s v, EvSet s v ∈ added m m' /\ o ∈ observers_of m' s) \/
      (exists e, o = Compute e /\ length (effects m) <= e)
  | _ => True
  end.

(** Every event of the run from [m] to [m'] is brought about within the
    run, the events in [X] apart. *)
Definition caused (X : event -> Prop) (m m' : machine) : Prop :=
  reaches m m' /\ forall ev, ev ∈ added m m' -> X ev \/ cause m m' ev.

(** The calls that the loop of the setter of [s] makes. *)
Definition notified (s : sigid) (m' : machine) (ev : event) : Prop :=
  exists o, ev = EvCall o /\ o ∈ observers_of m' s.

(** The events of a request that are brought about from outside it. *)
Definition allowed (r : request) (m' : machine) (ev : event) : Prop :=
  match r with
  | Notify s _ => notified s m' ev
  | _ => False
  end.

(** ** Further sample programs *)

(** [v < 2] *)
Definition below_two (p : prim) : prim :=
  match p with
  | PNum z => PBool (Z.ltb z 2)
  | _ => PBool false
  end.

(** An effect that reads signal 0 and returns the cleanup
    [() => { if (s() < 2) set(2) }], then [set(1)]. *)
Definition reentrant_cleanup : code :=
  [NewSignal (Lit (PNum 0));
   Effect [Do (Read 0)]
     (RCleanup [If (App1 below_two (Read 0)) [Write 0 (Lit (PNum 2))] []]);
   Write 0 (Lit (PNum 1))].



(** ** What createElement does first *)

(** The DOM call by which [createElement] makes its element. *)
Definition creation_call (namespaceElements : string -> option string)
    (tagName : string) : domcall :=
  match nonempty (namespaceElements tagName) with
  | Some ns => createElementNS ns tagName
  | None => createElement_ tagName
  end.

(** The machine in which [createElement] has made its element. *)
Definition created (namespaceElements : string -> option string)
    (tagName : string) (m : machine) : machine :=
  set_nodes (nodes m ++ [created_namespace namespaceElements tagName])
    (log (EvDom (creation_call namespaceElements tagName)) m).

(** A DOM in which setting an attribute named "a b", which is not a name,
    throws, with or without a namespace. *)
Definition invalid_name_throws (_ : list event) (d : domcall) : bool :=
  match d with
  | setAttributeNS _ _ key _ | setAttribute _ key _ => String.eqb key "a b"
  | _ => false
  end.

(** ** What the builder does by itself *)

(** Reads, DOM calls and warnings: the events of the callback of a
    binding. *)
Definition outward (ev : event) : Prop :=
  match ev with
  | EvGet _ _ _ | EvDom _ | EvWarn _ => True
  | _ => False
  end.

Definition quietly (m m' : machine) : Prop :=
  reaches m m' /\ Forall outward (added m m').

(** The signals that the accessor of a binding reads. *)
Definition binding_reads (body : code) : list sigid :=
  match body with
  | [SetOrRemoveAttr _ _ _ (VFun f)] => reads f
  | [SetText _ f] => reads f
  | _ => []
  end.

(** A run that writes no signal, runs the callbacks of the effects it
    makes and no other, and leaves each effect it has made registered with
    the signals that its accessor reads. *)
Definition built (m m' : machine) : Prop :=
  reaches m m' /\
  (forall s v, EvSet s v ∉ added m m') /\
  (forall e, EvRun e ∈ added m m' <-> length (effects m) <= e < length (effects m')) /\
  (forall e c s,
     effects m' !! e = Some c -> length (effects m) <= e ->
     s ∈ binding_reads (fn c) -> Compute e ∈ observers_of m' s).

(** The values of the signals of [m] after the events [t]. *)
Definition values_after (m : machine) (t : list event) (s : sigid) : option prim :=
  (fun v0 => last_write s v0 t) <$> value_of m s.

(** * Proofs *)

(** * Reasoning about the monad *)

Lemma bind_Done {A B} (c : M A) (k : A -> M B) m b m' :
  bind c k m = Done b m' -> exists a m1, c m = Done a m1 /\ k a m1 = Done b m'.
Proof. unfold bind. destruct (c m); [eauto | discriminate..]. Qed.

Lemma finally_Done {A} (c : M A) f m a m' :
  finally c f m = Done a m' -> exists m1, c m = Done a m1 /\ m' = f m1.
Proof. unfold finally. destruct (c m); [ | discriminate..]. intros [= -> <-]. eauto. Qed.

(** ** Relations that every piece of the code respects *)

Section Respects.
Variable R : relation machine.
Context `{!PreOrder R}.

Lemma respects_ret {A} (a : A) : respects R (ret a).
Proof. intros m. simpl. reflexivity. Qed.

Lemma respects_throw {A} : respects R (@throw A).
Proof. intros m. simpl. reflexivity. Qed.

Lemma respects_gets {A} (f : machine -> A) : respects R (gets f).
Proof. intros m. simpl. reflexivity. Qed.

Lemma respects_modify f : (forall m, R m (f m)) -> respects R (modify f).
Proof. intros H m. apply H. Qed.

Lemma respects_bind {A B} (c : M A) (k : A -> M B) :
  respects R c -> (forall a, respects R (k a)) -> respects R (bind c k).
Proof.
  intros Hc Hk m. unfold bind. specialize (Hc m).
  destruct (c m) as [a m1| |]; [ | done..].
  specialize (Hk a m1). destruct (k a m1); [ | | done]; by etrans.
Qed.

Lemma respects_finally {A} (c : M A) f :
  respects R c -> (forall m, R m (f m)) -> respects R (finally c f).
Proof.
  intros Hc Hf m. unfold finally. specialize (Hc m).
  destruct (c m); [ | | done]; by etrans.
Qed.

Lemma respects_catch {A} (c h : M A) :
  respects R c -> respects R h -> respects R (catch c h).
Proof.
  intros Hc Hh m. unfold catch. specialize (Hc m).
  destruct (c m) as [| m1 |]; [done | | done].
  specialize (Hh m1). destruct (h m1); [ | | done]; by etrans.
Qed.

Lemma respects_after {A} (c : M A) m m1 :
  R m m1 -> respects R c ->
  match c m1 with Done _ m' | Thrown m' => R m m' | OutOfFuel => True end.
Proof.
  intros H Hc. specialize (Hc m1). destruct (c m1); [ | | done]; by etrans.
Qed.

Lemma respects_forEach {A} (f : A -> M unit) l :
  (forall x, respects R (f x)) -> respects R (forEach f l).
Proof.
  intros Hf. induction l as [|x l IH]; simpl.
  - apply respects_ret.
  - apply respects_bind; auto.
Qed.

Hypothesis R_quiet : forall ev m, quiet ev -> R m (log ev m).
Hypothesis R_get : forall s v m m1,
  accessor s m = Some (v, m1) -> R m (log (EvGet s v (Observer m)) m1).
Hypothesis R_set : forall s v m,
  is_Some (signals m !! s) -> R m (store s v (log (EvSet s v) m)).
Hypothesis R_signal : forall v m, R m (snd (signal v m)).
Hypothesis R_new_effect : forall body r m,
  R m (set_effects
         (effects m ++ [EffectCell body r RVoid (Compute (length (effects m)))]) m).
Hypothesis R_reset : forall e m, R m (reset_compute e m).
Hypothesis R_node : forall ns m, R m (set_nodes (nodes m ++ [ns]) m).

Lemma respects_emit ev : quiet ev -> respects R (emit ev).
Proof. intros H. apply respects_modify. auto. Qed.

Lemma respects_eval e : respects R (eval e).
Proof.
  induction e as [p|s|f a IH|f a IHa b IHb]; simpl.
  - apply respects_ret.
  - intros m. destruct (accessor s m) as [[v m1]|] eqn:E; [by apply R_get | reflexivity].
  - apply respects_bind; [done | intros; apply respects_ret].
  - apply respects_bind; [done | intros].
    apply respects_bind; [done | intros; apply respects_ret].
Qed.

Lemma respects_the_effect e : respects R (the_effect e).
Proof. intros m. unfold the_effect. destruct (effects m !! e); reflexivity. Qed.

Variable namespaceElements : string -> option string.
Variable dom_throws : list event -> domcall -> bool.
Variable String_ : jsval -> string.
Variable toLowerCase : string -> string.

Lemma respects_dom d : respects R (dom dom_throws d).
Proof. intros m. unfold dom. destruct (dom_throws _ _); by apply R_quiet. Qed.

Lemma respects_dom_new d ns : respects R (dom_new dom_throws d ns).
Proof.
  unfold dom_new. apply respects_bind; [apply respects_dom | intros _].
  apply respects_bind; [apply respects_gets | intros n].
  apply respects_bind; [by apply respects_modify | intros _; apply respects_ret].
Qed.

Lemma respects_resolve raw : respects R (resolve raw).
Proof.
  destruct raw; try apply respects_ret.
  apply respects_bind; [apply respects_eval | intros; apply respects_ret].
Qed.

Lemma respects_setOrRemoveAttr ns el key raw :
  respects R (setOrRemoveAttr dom_throws String_ ns el key raw).
Proof.
  unfold setOrRemoveAttr.
  apply respects_bind; [apply respects_resolve | intros v].
  apply respects_bind; [apply respects_gets | intros elementNS].
  destruct (removes v).
  - apply respects_catch; [ | apply respects_ret].
    repeat case_match;
      repeat (apply respects_bind; [ | intros _]); apply respects_dom.
  - apply respects_catch; apply respects_dom.
Qed.

Section WithRec.
Variable rec : request -> M unit.
Hypothesis R_rec : forall r, respects R (rec r).
(** [run_compute] sets and clears [Observer]; relations that look at
    [Observer] treat it on their own. *)
Hypothesis R_compute : forall e, respects R (run_compute rec e).

Lemma respects_run_cleanup e : respects R (run_cleanup rec e).
Proof.
  unfold run_cleanup. apply respects_bind; [apply respects_the_effect | intros c].
  destruct (cleanup c).
  - apply respects_ret.
  - apply respects_bind; [by apply respects_emit | auto].
  - apply respects_throw.
Qed.

Lemma respects_call o : respects R (call rec o).
Proof.
  unfold call. apply respects_bind; [by apply respects_emit | intros _].
  destruct o; [apply R_compute | apply respects_ret].
Qed.

Lemma respects_notify s i : respects R (notify rec s i).
Proof.
  intros m. unfold notify. destruct (observers_of m s !! i); [ | reflexivity].
  apply respects_bind; [apply respects_call | auto].
Qed.

Lemma setter_unfold s v m :
  setter rec s v m =
  match signals m !! s with
  | None => Thrown m
  | Some _ => notify rec s 0 (store s v (log (EvSet s v) m))
  end.
Proof. reflexivity. Qed.

Lemma respects_setter s v : respects R (setter rec s v).
Proof.
  intros m. rewrite setter_unfold. destruct (signals m !! s) eqn:E; [ | reflexivity].
  apply respects_after; [apply R_set; eauto | apply respects_notify].
Qed.

Lemma effect_unfold body r m :
  effect rec body r m =
  (call rec (Compute (length (effects m))) ;;; ret (length (effects m)))
    (set_effects
       (effects m ++ [EffectCell body r RVoid (Compute (length (effects m)))]) m).
Proof. reflexivity. Qed.

Lemma respects_effect body r : respects R (effect rec body r).
Proof.
  intros m. rewrite effect_unfold. apply respects_after; [apply R_new_effect | ].
  apply respects_bind; [apply respects_call | intros _; apply respects_ret].
Qed.

Lemma respects_disposer e : respects R (disposer rec e).
Proof.
  unfold disposer. apply respects_bind; [by apply respects_emit | intros _].
  apply respects_bind; [apply respects_run_cleanup | intros _].
  by apply respects_modify.
Qed.

Lemma respects_add parent child : respects R (add dom_throws String_ rec parent child).
Proof.
  destruct child as [p|f|n|l|l]; simpl.
  - destruct p; try apply respects_ret;
      (apply respects_bind; [apply respects_dom_new | intros; apply respects_dom]).
  - apply respects_bind; [apply respects_dom_new | intros tn].
    apply respects_bind; [apply respects_effect | intros; apply respects_dom].
  - apply respects_dom.
  - apply respects_forEach. auto.
  - apply respects_ret.
Qed.

Lemma respects_bind_prop el kv : respects R (bind_prop dom_throws String_ toLowerCase rec el kv).
Proof.
  unfold bind_prop. destruct (String.prefix "on" (fst kv)).
  - destruct (is_function (snd kv)); [ | by apply respects_emit].
    apply respects_bind; [apply respects_dom | intros; apply respects_dom].
  - apply respects_bind; [apply respects_gets | intros a].
    apply respects_bind; [apply respects_effect | intros; apply respects_ret].
Qed.

Lemma respects_createElement tag first children :
  respects R (createElement namespaceElements dom_throws String_ toLowerCase rec tag first children).
Proof.
  unfold createElement. apply respects_bind.
  { destruct (nonempty _); apply respects_dom_new. }
  intros el. apply respects_bind.
  { destruct (is_props first); [ | apply respects_ret].
    apply respects_forEach, respects_bind_prop. }
  intros _. apply respects_bind.
  { destruct (is_child first); [apply respects_add | apply respects_ret]. }
  intros _. apply respects_bind; [ | intros; apply respects_ret].
  apply respects_forEach, respects_add.
Qed.

Lemma respects_step a : respects R (step namespaceElements dom_throws String_ toLowerCase rec a).
Proof.
  destruct a; simpl.
  - apply respects_bind; [apply respects_eval | intros; apply respects_ret].
  - apply respects_bind; [apply respects_eval | intros; apply respects_setter].
  - apply respects_throw.
  - apply respects_bind; [apply respects_eval | auto].
  - apply respects_bind; [apply respects_eval | intros v].
    apply respects_modify. intros m. apply R_signal.
  - apply respects_bind; [apply respects_effect | intros; apply respects_ret].
  - apply respects_disposer.
  - apply respects_setOrRemoveAttr.
  - apply respects_bind; [apply respects_eval | intros; apply respects_dom].
  - apply respects_bind; [apply respects_createElement | intros; apply respects_ret].
  - apply respects_add.
Qed.

Lemma respects_handle r : respects R (handle namespaceElements dom_throws String_ toLowerCase rec r).
Proof.
  destruct r; simpl.
  - apply respects_forEach, respects_step.
  - apply respects_notify.
  - apply respects_add.
Qed.
End WithRec.

Hypothesis R_compute :
  forall rec, (forall r, respects R (rec r)) -> forall e, respects R (run_compute rec e).

Lemma respects_interp fuel r :
  respects R (interp namespaceElements dom_throws String_ toLowerCase fuel r).
Proof.
  revert r. induction fuel as [|n IH]; intros r; simpl.
  - intros m. exact I.
  - apply respects_handle; auto.
Qed.
End Respects.

(** ** Fuel only bounds the depth of the calls *)

Lemma refines_refl {A} (c : M A) : refines c c.
Proof. by intros m _. Qed.

Lemma refines_bind {A B} (c c' : M A) (k k' : A -> M B) :
  refines c c' -> (forall a, refines (k a) (k' a)) -> refines (bind c k) (bind c' k').
Proof.
  intros Hc Hk m. unfold bind. specialize (Hc m).
  destruct (c m) as [a m1| |] eqn:E.
  - rewrite Hc by done. apply Hk.
  - by rewrite Hc.
  - done.
Qed.

Lemma refines_finally {A} (c c' : M A) f :
  refines c c' -> refines (finally c f) (finally c' f).
Proof.
  intros Hc m. unfold finally. specialize (Hc m).
  destruct (c m) eqn:E; [by rewrite Hc..| done].
Qed.

Lemma refines_forEach {A} (f f' : A -> M unit) l :
  (forall x, refines (f x) (f' x)) -> refines (forEach f l) (forEach f' l).
Proof.
  intros Hf. induction l as [|x l IH]; simpl; [apply refines_refl | ].
  apply refines_bind; auto.
Qed.

Section Fuel.
Variable namespaceElements : string -> option string.
Variable dom_throws : list event -> domcall -> bool.
Variable String_ : jsval -> string.
Variable toLowerCase : string -> string.
Variables rec rec' : request -> M unit.
Hypothesis rec_refines : forall r, refines (rec r) (rec' r).

Lemma refines_run_cleanup e : refines (run_cleanup rec e) (run_cleanup rec' e).
Proof.
  unfold run_cleanup. apply refines_bind; [apply refines_refl | intros c].
  destruct (cleanup c); try apply refines_refl.
  apply refines_bind; [apply refines_refl | auto].
Qed.

Lemma refines_run_compute e : refines (run_compute rec e) (run_compute rec' e).
Proof.
  unfold run_compute. apply refines_finally.
  apply refines_bind; [apply refines_run_cleanup | intros _].
  apply refines_bind; [apply refines_refl | intros c].
  apply refines_bind; [apply refines_refl | intros _].
  apply refines_bind; [apply refines_refl | intros _].
  apply refines_bind; [auto | intros _; apply refines_refl].
Qed.

Lemma refines_call o : refines (call rec o) (call rec' o).
Proof.
  unfold call. apply refines_bind; [apply refines_refl | intros _].
  destruct o; [apply refines_run_compute | apply refines_refl].
Qed.

Lemma refines_notify s i : refines (notify rec s i) (notify rec' s i).
Proof.
  intros m. unfold notify. destruct (observers_of m s !! i); [ | done].
  apply (refines_bind _ _ _ _ (refines_call _)). auto.
Qed.

Lemma refines_setter s v : refines (setter rec s v) (setter rec' s v).
Proof.
  intros m. rewrite !setter_unfold. destruct (signals m !! s); [ | done].
  apply refines_notify.
Qed.

Lemma refines_effect body r : refines (effect rec body r) (effect rec' body r).
Proof.
  unfold effect. apply refines_bind; [apply refines_refl | intros e].
  apply refines_bind; [apply refines_refl | intros _].
  apply refines_bind; [apply refines_call | intros _; apply refines_refl].
Qed.

Lemma refines_disposer e : refines (disposer rec e) (disposer rec' e).
Proof.
  unfold disposer. apply refines_bind; [apply refines_refl | intros _].
  apply refines_bind; [apply refines_run_cleanup | intros _; apply refines_refl].
Qed.

Lemma refines_add parent child :
  refines (add dom_throws String_ rec parent child)
          (add dom_throws String_ rec' parent child).
Proof.
  destruct child as [p|f|n|l|l]; simpl; try apply refines_refl.
  - apply refines_bind; [apply refines_refl | intros tn].
    apply refines_bind; [apply refines_effect | intros _; apply refines_refl].
  - apply refines_forEach. auto.
Qed.

Lemma refines_bind_prop el kv :
  refines (bind_prop dom_throws String_ toLowerCase rec el kv)
          (bind_prop dom_throws String_ toLowerCase rec' el kv).
Proof.
  unfold bind_prop. destruct (String.prefix "on" (fst kv)); [apply refines_refl | ].
  apply refines_bind; [apply refines_refl | intros a].
  apply refines_bind; [apply refines_effect | intros _; apply refines_refl].
Qed.

Lemma refines_createElement tag first children :
  refines (createElement namespaceElements dom_throws String_ toLowerCase rec tag first children)
          (createElement namespaceElements dom_throws String_ toLowerCase rec' tag first children).
Proof.
  unfold createElement. apply refines_bind; [apply refines_refl | intros el].
  apply refines_bind.
  { destruct (is_props first); [ | apply refines_refl].
    apply refines_forEach, refines_bind_prop. }
  intros _. apply refines_bind.
  { destruct (is_child first); [apply refines_add | apply refines_refl]. }
  intros _. apply refines_bind; [ | intros _; apply refines_refl].
  apply refines_forEach, refines_add.
Qed.

Lemma refines_step a :
  refines (step namespaceElements dom_throws String_ toLowerCase rec a)
          (step namespaceElements dom_throws String_ toLowerCase rec' a).
Proof.
  destruct a; simpl; try apply refines_refl.
  - apply refines_bind; [apply refines_refl | intros; apply refines_setter].
  - apply refines_bind; [apply refines_refl | auto].
  - apply refines_bind; [apply refines_effect | intros; apply refines_refl].
  - apply refines_disposer.
  - apply refines_bind; [apply refines_createElement | intros; apply refines_refl].
  - apply refines_add.
Qed.

Lemma refines_handle r :
  refines (handle namespaceElements dom_throws String_ toLowerCase rec r)
          (handle namespaceElements dom_throws String_ toLowerCase rec' r).
Proof.
  destruct r; simpl.
  - apply refines_forEach, refines_step.
  - apply refines_notify.
  - apply refines_add.
Qed.
End Fuel.

(** A call that ends with some fuel ends the same way with more. *)
Lemma interp_more_fuel ns dt str lower fuel fuel' r m :
  fuel <= fuel' ->
  interp ns dt str lower fuel r m <> OutOfFuel ->
  interp ns dt str lower fuel' r m = interp ns dt str lower fuel r m.
Proof.
  intros Hle. revert r m. induction Hle as [|fuel' Hle IH]; [done | ].
  assert (Hstep : forall n r, refines (interp ns dt str lower n r) (interp ns dt str lower (S n) r)).
  { induction n as [|n IHn]; intros r m; [done | ].
    apply (refines_handle ns dt str lower _ _ IHn). }
  intros r m Hne. rewrite Hstep; [by apply IH | ]. by rewrite IH.
Qed.

(** * The store changes by small steps *)

Lemma steps_one m t m' : prim_step m t m' -> steps m t m'.
Proof. intros H. change t with ([] ++ t). eapply steps_snoc; [constructor | done]. Qed.

Lemma steps_app m t1 m1 t2 m2 :
  steps m t1 m1 -> steps m1 t2 m2 -> steps m (t1 ++ t2) m2.
Proof.
  intros H1 H2. induction H2 as [|m1 t m2 t' m3 _ IH Hp].
  - by rewrite app_nil_r.
  - rewrite app_assoc. eapply steps_snoc; eauto.
Qed.

Lemma reaches_preorder : PreOrder reaches.
Proof.
  split.
  - intros m. exists []. constructor.
  - intros m1 m2 m3 [t1 H1] [t2 H2]. exists (t1 ++ t2). by eapply steps_app.
Qed.

#[global] Existing Instance reaches_preorder.

Lemma reaches_one m t m' : prim_step m t m' -> reaches m m'.
Proof. intros H. exists t. by apply steps_one. Qed.

Lemma prim_step_trace m t m' : prim_step m t m' -> trace m' = trace m ++ t.
Proof.
  destruct 1; simpl; rewrite ?app_nil_r; try done.
  unfold accessor in *. destruct (signals m !! s); [ | done].
  simplify_eq. by destruct (Observer m).
Qed.

Lemma steps_trace m t m' : steps m t m' -> trace m' = trace m ++ t.
Proof.
  induction 1 as [|m t m1 t1 m2 _ IH Hp].
  - by rewrite app_nil_r.
  - rewrite (prim_step_trace _ _ _ Hp), IH. by rewrite app_assoc.
Qed.

Lemma steps_added m t m' : steps m t m' -> added m m' = t.
Proof.
  intros H. unfold added. rewrite (steps_trace _ _ _ H). by rewrite drop_app_length.
Qed.

Lemma reaches_steps m m' : reaches m m' -> steps m (added m m') m'.
Proof. intros [t H]. by rewrite (steps_added _ _ _ H). Qed.

Section Runs.
Variable namespaceElements : string -> option string.
Variable dom_throws : list event -> domcall -> bool.
Variable String_ : jsval -> string.
Variable toLowerCase : string -> string.

Lemma reaches_compute rec :
  (forall r, respects reaches (rec r)) ->
  forall e, respects reaches (run_compute rec e).
Proof.
  intros Hrec e. unfold run_compute.
  apply (respects_finally reaches); [ | intros m; eapply reaches_one, ps_observer].
  apply (respects_bind reaches); [ | intros _].
  { apply (respects_run_cleanup reaches); [ | done].
    intros ev m Hq. by eapply reaches_one, ps_quiet. }
  apply (respects_bind reaches); [by apply (respects_the_effect reaches) | intros c].
  apply (respects_bind reaches); [ | intros _].
  { apply (respects_modify reaches). intros m. eapply reaches_one, ps_observer. }
  apply (respects_bind reaches); [ | intros _].
  { apply (respects_modify reaches). intros m. by eapply reaches_one, ps_quiet. }
  apply (respects_bind reaches); [done | intros _].
  apply (respects_modify reaches). intros m. eapply reaches_one, ps_cleanup.
Qed.

(** Whatever a call does, it does by small steps. *)
Lemma interp_reaches fuel r :
  respects reaches (interp namespaceElements dom_throws String_ toLowerCase fuel r).
Proof.
  apply (respects_interp reaches).
  - intros ev m Hq. by eapply reaches_one, ps_quiet.
  - intros s v m m1 H. by eapply reaches_one, ps_get.
  - intros s v m H. by eapply reaches_one, ps_set.
  - intros v m. eapply reaches_one, ps_signal.
  - intros body r0 m. eapply reaches_one, ps_effect.
  - intros e m. eapply reaches_one, ps_reset.
  - intros ns m. eapply reaches_one, ps_node.
  - apply reaches_compute.
Qed.
End Runs.

(** ** What one step does to the signals *)

Lemma elem_of_set_add o o' l : o' ∈ set_add o l <-> o' ∈ l \/ o' = o.
Proof.
  unfold set_add. destruct (decide (o ∈ l)) as [Hin|Hin].
  - split; [auto | intros [H| ->]; done].
  - rewrite elem_of_app, list_elem_of_singleton. done.
Qed.

Lemma set_add_prefix o l : l `prefix_of` set_add o l.
Proof. unfold set_add. destruct (decide (o ∈ l)); [done | by apply prefix_app_r]. Qed.

Lemma accessor_Some s m v m1 :
  accessor s m = Some (v, m1) ->
  exists c, signals m !! s = Some c /\ v = value c /\
    m1 = match Observer m with
         | Some o =>
             set_signals (<[s := SignalCell (value c) (set_add o (observers c))]> (signals m)) m
         | None => m
         end.
Proof.
  unfold accessor. destruct (signals m !! s) as [c|]; [ | done].
  intros [= <- <-]. eauto.
Qed.

Lemma accessor_value_of s m v m1 s' :
  accessor s m = Some (v, m1) ->
  value_of m s = Some v /\ value_of m1 s' = value_of m s'.
Proof.
  intros (c & Hc & -> & ->)%accessor_Some. unfold value_of. rewrite Hc. split; [done | ].
  destruct (Observer m); [ | done]. simpl.
  destruct (decide (s = s')) as [<-|Hne].
  - rewrite list_lookup_insert_eq by eauto using lookup_lt_Some. by rewrite Hc.
  - by rewrite list_lookup_insert_ne.
Qed.

Lemma accessor_observers_of s m v m1 s' :
  accessor s m = Some (v, m1) ->
  observers_of m1 s' =
    if decide (s' = s) then
      match Observer m with
      | Some o => set_add o (observers_of m s)
      | None => observers_of m s
      end
    else observers_of m s'.
Proof.
  intros (c & Hc & -> & ->)%accessor_Some. unfold observers_of. rewrite Hc.
  destruct (Observer m); simpl.
  - destruct (decide (s' = s)) as [->|Hne].
    + by rewrite list_lookup_insert_eq by eauto using lookup_lt_Some.
    + by rewrite list_lookup_insert_ne.
  - destruct (decide (s' = s)) as [->|Hne]; [by rewrite Hc | done].
Qed.

Lemma store_value_of s v m s' :
  value_of (store s v m) s' =
    if decide (s' = s) then (fun _ => v) <$> value_of m s else value_of m s'.
Proof.
  unfold value_of, store. simpl. destruct (decide (s' = s)) as [->|Hne].
  - rewrite list_lookup_alter_eq. by destruct (signals m !! s).
  - by rewrite list_lookup_alter_ne.
Qed.

Lemma store_observers_of s v m s' : observers_of (store s v m) s' = observers_of m s'.
Proof.
  unfold observers_of, store. simpl. destruct (decide (s = s')) as [->|Hne].
  - rewrite list_lookup_alter_eq. by destruct (signals m !! s').
  - by rewrite list_lookup_alter_ne.
Qed.

Lemma signal_value_of v m s' :
  value_of (snd (signal v m)) s' =
    if decide (s' = length (signals m)) then Some v else value_of m s'.
Proof.
  unfold value_of. simpl. destruct (decide (s' = length (signals m))) as [->|Hne].
  - by rewrite lookup_app_r, Nat.sub_diag by done.
  - destruct (decide (s' < length (signals m))).
    + by rewrite lookup_app_l.
    + rewrite !lookup_ge_None_2; [done | lia | ]. rewrite length_app. simpl. lia.
Qed.

Lemma signal_observers_of v m s' :
  observers_of (snd (signal v m)) s' = observers_of m s'.
Proof.
  unfold observers_of. simpl. destruct (decide (s' < length (signals m))).
  - by rewrite lookup_app_l.
  - rewrite (lookup_ge_None_2 (signals m)) by lia.
    destruct (decide (s' = length (signals m))) as [->|Hne].
    + by rewrite lookup_app_r, Nat.sub_diag by done.
    + rewrite lookup_ge_None_2; [done | ]. rewrite length_app. simpl. lia.
Qed.

Lemma value_of_fresh m : value_of m (length (signals m)) = None.
Proof. unfold value_of. by rewrite lookup_ge_None_2. Qed.

Lemma prim_step_signal_change m t m' : prim_step m t m' -> signal_change m t m'.
Proof.
  destruct 1 as [ev m Hq|s v m m1 Hacc|s v m Hs|v m|body r m|o m|e r m|e m|ns m].
  - apply sc_none; [by repeat constructor | done..].
  - eapply sc_get; [done | | | ].
    + by eapply accessor_value_of in Hacc as [? _]. Unshelve. exact 0.
    + intros s'. by eapply accessor_value_of in Hacc as [_ ?].
    + intros s'. by apply accessor_observers_of with (s' := s') in Hacc.
  - eapply sc_set; [done | | | ].
    + unfold value_of. destruct Hs as [c ->]. by eexists.
    + intros s'. pose proof (store_value_of s v (log (EvSet s v) m) s') as H.
      rewrite H. destruct (decide (s' = s)); [ | done].
      unfold value_of. simpl. destruct Hs as [c ->]. done.
    + intros s'. by rewrite store_observers_of.
  - eapply sc_new; [done | apply signal_value_of | apply signal_observers_of].
  - apply sc_none; [constructor | done..].
  - apply sc_none; [constructor | done..].
  - apply sc_none; [constructor | done..].
  - apply sc_none; [constructor | done..].
  - apply sc_none; [constructor | done..].
Qed.

(** ** What a run does to the signals *)

Lemma last_write_app s v0 t1 t2 :
  last_write s v0 (t1 ++ t2) = last_write s (last_write s v0 t1) t2.
Proof. revert v0. induction t1 as [|[] t1 IH]; intros v0; simpl; auto. Qed.

Lemma reads_ok_app s v0 t1 t2 :
  reads_ok s v0 (t1 ++ t2) <-> reads_ok s v0 t1 /\ reads_ok s (last_write s v0 t1) t2.
Proof.
  revert v0. induction t1 as [|[] t1 IH]; intros v0; simpl; auto; [tauto | ].
  rewrite IH. tauto.
Qed.

Lemma reads_ok_at s v0 t1 x o t2 :
  reads_ok s v0 (t1 ++ EvGet s x o :: t2) -> x = last_write s v0 t1.
Proof. rewrite reads_ok_app. simpl. intros (_ & H & _). auto. Qed.

Lemma last_write_quiet s v0 t : Forall quiet t -> last_write s v0 t = v0.
Proof. induction 1 as [|[] t Hq _ IH]; simpl in *; tauto. Qed.

Lemma reads_ok_quiet s v0 t : Forall quiet t -> reads_ok s v0 t.
Proof. induction 1 as [|[] t Hq _ IH]; simpl in *; tauto. Qed.

Lemma not_elem_quiet_get t s v o : Forall quiet t -> EvGet s v o ∉ t.
Proof. intros H Hin. rewrite Forall_forall in H. apply (H _ Hin). Qed.

Lemma steps_allocated m t m' s :
  steps m t m' -> is_Some (value_of m s) -> is_Some (value_of m' s).
Proof.
  induction 1 as [|m t m1 t1 m2 _ IH Hp]; [done | ]. intros Hs. specialize (IH Hs).
  destruct (prim_step_signal_change _ _ _ Hp) as [_ Hv _|s0 v _ _ Hv _|s0 v _ _ Hv _|v _ Hv _];
    rewrite Hv; try done; destruct (decide _); eauto.
Qed.

Lemma steps_observers_prefix m t m' s :
  steps m t m' -> observers_of m s `prefix_of` observers_of m' s.
Proof.
  induction 1 as [|m t m1 t1 m2 _ IH Hp]; [done | ]. etrans; [exact IH | ].
  destruct (prim_step_signal_change _ _ _ Hp) as [_ _ Ho|s0 v _ _ _ Ho|s0 v _ _ _ Ho|v _ _ Ho];
    rewrite Ho; [done | | done..].
  case_decide; [subst | done]. destruct (Observer m1); [apply set_add_prefix | done].
Qed.

(** A function is in the observer set of [s] after a run exactly when it
    was there before or [s] was read while [Observer] held it. *)
Lemma steps_registered m t m' s o :
  steps m t m' ->
  o ∈ observers_of m' s <-> o ∈ observers_of m s \/ exists v, EvGet s v (Some o) ∈ t.
Proof.
  induction 1 as [|m t m1 t1 m2 _ IH Hp].
  - split; [auto | intros [H|[v H]]; [done | by apply elem_of_nil in H]].
  - assert (Hex : (exists v, EvGet s v (Some o) ∈ t ++ t1) <->
                  (exists v, EvGet s v (Some o) ∈ t) \/ (exists v, EvGet s v (Some o) ∈ t1)).
    { setoid_rewrite elem_of_app.
      split; [intros [v [?|?]]; eauto | intros [[v ?]|[v ?]]; eauto]. }
    rewrite Hex. clear Hex.
    destruct (prim_step_signal_change _ _ _ Hp)
      as [Hq _ Ho|s0 v -> _ _ Ho|s0 v -> _ _ Ho| v -> _ Ho]; rewrite Ho.
    + rewrite IH. split; [tauto | ]. intros [?|[?|[v Hv]]]; auto.
      by apply not_elem_quiet_get in Hv.
    + case_decide as Hs; [subst s0 | ].
      * destruct (Observer m1) as [o1|].
        -- rewrite elem_of_set_add, IH. split.
           ++ intros [[?|?]| ->]; auto. right. right. exists v. by apply list_elem_of_singleton.
           ++ intros [?|[?|[v' Hv]]]; auto. apply list_elem_of_singleton in Hv.
              simplify_eq. auto.
        -- rewrite IH. split; [tauto | ]. intros [?|[?|[v' Hv]]]; auto.
           by apply list_elem_of_singleton in Hv.
      * rewrite IH. split; [tauto | ]. intros [?|[?|[v' Hv]]]; auto.
        apply list_elem_of_singleton in Hv. congruence.
    + rewrite IH. split; [tauto | ]. intros [?|[?|[v' Hv]]]; auto.
      by apply list_elem_of_singleton in Hv.
    + rewrite IH. split; [tauto | ]. intros [?|[?|[v' Hv]]]; auto.
      by apply elem_of_nil in Hv.
Qed.


(** Reads return what was written last. *)
Lemma steps_coherent m t m' s v0 :
  steps m t m' -> value_of m s = Some v0 ->
  value_of m' s = Some (last_write s v0 t) /\ reads_ok s v0 t.
Proof.
  induction 1 as [|m t m1 t1 m2 Hst IH Hp]; [done | ]. intros Hs.
  destruct (IH Hs) as [IHv IHr]. rewrite last_write_app, reads_ok_app.
  destruct (prim_step_signal_change _ _ _ Hp)
    as [Hq Hv Ho|s0 v -> Hv0 Hv Ho|s0 v -> _ Hv Ho| v -> Hv Ho]; rewrite Hv.
  - by rewrite last_write_quiet, IHv; auto using reads_ok_quiet.
  - simpl. split_and!; [done..| | done]. intros ->. congruence.
  - simpl. by repeat case_decide; simplify_eq.
  - simpl. case_decide as Hn; [subst s | done].
    rewrite value_of_fresh in IHv. done.
Qed.

(** ** What a run does to the effects *)

Lemma accessor_effects s m v m1 :
  accessor s m = Some (v, m1) -> effects m1 = effects m /\ Observer m1 = Observer m.
Proof. intros (c & _ & _ & ->)%accessor_Some. by destruct (Observer m) eqn:E. Qed.

(** [fn] is a parameter of [effect]: no step changes it, nor what it
    returns. *)
Lemma prim_step_effects m t m' e c :
  prim_step m t m' -> effects m !! e = Some c ->
  exists c', effects m' !! e = Some c' /\ fn c' = fn c /\ fn_ret c' = fn_ret c.
Proof.
  destruct 1 as [ev m Hq|s v m m1 Hacc|s v m Hs|v m|body r m|o m|e0 r m|e0 m|ns m];
    simpl; intros He; eauto.
  - apply accessor_effects in Hacc as [-> _]. eauto.
  - exists c. split; [by apply lookup_app_l_Some | done].
  - destruct (decide (e0 = e)) as [->|Hne].
    + rewrite list_lookup_alter_eq, He. simpl. eauto.
    + rewrite list_lookup_alter_ne by done. eauto.
  - destruct (decide (e0 = e)) as [->|Hne].
    + rewrite list_lookup_alter_eq, He. simpl. eauto.
    + rewrite list_lookup_alter_ne by done. eauto.
Qed.

Lemma steps_effects m t m' e c :
  steps m t m' -> effects m !! e = Some c ->
  exists c', effects m' !! e = Some c' /\ fn c' = fn c /\ fn_ret c' = fn_ret c.
Proof.
  induction 1 as [|m t m1 t1 m2 _ IH Hp]; [eauto | ]. intros He.
  destruct (IH He) as (c1 & H1 & <- & <-). eapply prim_step_effects; eauto.
Qed.

(** ** The tracking pointer *)

Lemma kept_or_cleared_preorder : PreOrder kept_or_cleared.
Proof.
  split.
  - intros m. by left.
  - intros m1 m2 m3 [H1|H1] [H2|H2]; unfold kept_or_cleared in *; intuition congruence.
Qed.

#[global] Existing Instance kept_or_cleared_preorder.

Lemma run_compute_clears rec e m :
  match run_compute rec e m with
  | Done _ m' | Thrown m' => Observer m' = None
  | OutOfFuel => True
  end.
Proof.
  unfold run_compute, finally.
  match goal with |- context [match ?c m with _ => _ end] => by destruct (c m) end.
Qed.

Section Pointer.
Variable namespaceElements : string -> option string.
Variable dom_throws : list event -> domcall -> bool.
Variable String_ : jsval -> string.
Variable toLowerCase : string -> string.

Lemma interp_kept_or_cleared fuel r :
  respects kept_or_cleared (interp namespaceElements dom_throws String_ toLowerCase fuel r).
Proof.
  apply (respects_interp kept_or_cleared); try (intros; by left).
  - intros s v m m1 [_ H]%accessor_effects. by left.
  - intros rec _ e m. pose proof (run_compute_clears rec e m) as H.
    destruct (run_compute rec e m); [by right | by right | done].
Qed.

Lemma interp_from_null fuel r m :
  Observer m = None ->
  match interp namespaceElements dom_throws String_ toLowerCase fuel r m with
  | Done _ m' | Thrown m' => Observer m' = None
  | OutOfFuel => True
  end.
Proof.
  intros H0. pose proof (interp_kept_or_cleared fuel r m) as H.
  destruct (interp _ _ _ _ fuel r m); [ | | done]; destruct H; congruence.
Qed.

Lemma run_tasks_from_null fuel tasks m m' :
  Observer m = None ->
  run_tasks namespaceElements dom_throws String_ toLowerCase fuel tasks m = Some m' ->
  Observer m' = None.
Proof.
  revert m. induction tasks as [|t tasks IH]; intros m H0; simpl.
  - congruence.
  - unfold run. pose proof (interp_from_null fuel (Run t) m H0) as H.
    destruct (interp _ _ _ _ fuel (Run t) m); [eauto | eauto | done].
Qed.
End Pointer.

(** * The claims *)

(** C4: reading a signal while [Observer] is null returns the stored value
    and registers nothing: the machine is unchanged (a call through [eval]
    only logs the read). *)
Theorem read_outside_effect s m c :
  Observer m = None -> signals m !! s = Some c ->
  accessor s m = Some (value c, m) /\
  eval (Read s) m = Done (value c) (log (EvGet s (value c) None) m).
Proof.
  intros H0 Hs. simpl. unfold accessor. rewrite Hs, H0. done.
Qed.

Lemma read_outside_effect_witness :
  accessor 0 one_signal = Some (PNum 7, one_signal) /\
  eval (Read 0) one_signal = Done (PNum 7) (log (EvGet 0 (PNum 7) None) one_signal).
Proof.
  apply (read_outside_effect 0 one_signal (SignalCell (PNum 7) [Compute 0])); reflexivity.
Defined.

(** C9: every execution of [compute] that ends, normally or by an
    exception, leaves [Observer] null; hence a call or a sequence of tasks
    started with [Observer] null ends with [Observer] null, and a read made
    then registers nothing. *)
Theorem observer_reset ns dt str lower fuel :
  (forall e m,
     match run_compute (interp ns dt str lower fuel) e m with
     | Done _ m' | Thrown m' => Observer m' = None
     | OutOfFuel => True
     end) /\
  (forall r m,
     Observer m = None ->
     match interp ns dt str lower fuel r m with
     | Done _ m' | Thrown m' =>
         Observer m' = None /\
         forall s v m2, accessor s m' = Some (v, m2) -> m2 = m'
     | OutOfFuel => True
     end) /\
  (forall tasks m m',
     Observer m = None -> run_tasks ns dt str lower fuel tasks m = Some m' ->
     Observer m' = None /\ forall s v m2, accessor s m' = Some (v, m2) -> m2 = m').
Proof.
  assert (Hread : forall m', Observer m' = None ->
            forall s v m2, accessor s m' = Some (v, m2) -> m2 = m').
  { intros m' H0 s v m2 (c & _ & _ & ->)%accessor_Some. by rewrite H0. }
  split_and!.
  - intros e m. apply run_compute_clears.
  - intros r m H0. pose proof (interp_from_null ns dt str lower fuel r m H0) as H.
    destruct (interp ns dt str lower fuel r m); [split; eauto | split; eauto | done].
  - intros tasks m m' H0 Hrun.
    pose proof (run_tasks_from_null _ _ _ _ _ _ _ _ H0 Hrun). split; eauto.
Qed.

Lemma observer_reset_witness :
  exists m',
    interp svg_only never_throws String_prim toLowerCase_ascii 5 (Run throwing_effect) init = Thrown m' /\
    observers_of m' 0 = [Compute 0] /\
    Observer m' = None /\
    forall s v m2, accessor s m' = Some (v, m2) -> m2 = m'.
Proof.
  eexists.
  assert (H : interp svg_only never_throws String_prim toLowerCase_ascii 5 (Run throwing_effect) init
              = Thrown _) by (vm_compute; reflexivity).
  pose proof (proj1 (proj2 (observer_reset svg_only never_throws String_prim toLowerCase_ascii 5))
                (Run throwing_effect) init eq_refl) as Hnull.
  rewrite H in Hnull. destruct Hnull as [H0 Hread].
  split; [exact H | split; [reflexivity | split; [exact H0 | exact Hread]]].
Defined.

Section Independence.
Variable namespaceElements : string -> option string.
Variable dom_throws : list event -> domcall -> bool.
Variable String_ : jsval -> string.
Variable toLowerCase : string -> string.

Lemma interp_steps fuel r m :
  match interp namespaceElements dom_throws String_ toLowerCase fuel r m with
  | Done _ m' | Thrown m' => steps m (added m m') m'
  | OutOfFuel => True
  end.
Proof.
  pose proof (interp_reaches namespaceElements dom_throws String_ toLowerCase fuel r m) as H.
  destruct (interp _ _ _ _ fuel r m); auto using reaches_steps.
Qed.
End Independence.

(** ** Taking calls of the code apart *)

Lemma added_eq m m' t : trace m' = trace m ++ t -> added m m' = t.
Proof. intros H. unfold added. by rewrite H, drop_app_length. Qed.

Lemma reaches_trace m m' : reaches m m' -> trace m' = trace m ++ added m m'.
Proof. intros H%reaches_steps. by apply steps_trace. Qed.

Lemma added_trans m m1 m2 :
  reaches m m1 -> reaches m1 m2 -> added m m2 = added m m1 ++ added m1 m2.
Proof.
  intros H1%reaches_trace H2%reaches_trace. apply added_eq.
  by rewrite H2, H1, app_assoc.
Qed.

Lemma last_write_no_set s v t :
  (forall x, EvSet s x ∉ t) -> last_write s v t = v.
Proof.
  induction t as [|ev t IH]; [done | ]. intros Hno.
  assert (last_write s v t = v) as IH'.
  { apply IH. intros x Hx. apply (Hno x). by right. }
  destruct ev; simpl; try done. case_decide; [subst | done].
  exfalso. eapply Hno. by left.
Qed.

Section Calls.
Variable rec : request -> M unit.

Lemma run_cleanup_Done e m m' :
  run_cleanup rec e m = Done tt m' ->
  exists c, effects m !! e = Some c /\
    match cleanup c with
    | RVoid => m' = m
    | RCleanup body => rec (Run body) (log (EvCleanup e) m) = Done tt m'
    | RNotCallable => False
    end.
Proof.
  unfold run_cleanup. intros (c & m1 & Hc & H)%bind_Done.
  unfold the_effect in Hc. destruct (effects m !! e) as [c'|] eqn:E; [ | done].
  injection Hc as Hc1 Hc2. subst c m1. exists c'. split; [done | ].
  destruct (cleanup c'); [by injection H | done | done].
Qed.

Lemma run_compute_Done e m m' :
  run_compute rec e m = Done tt m' ->
  exists m1 c m2,
    run_cleanup rec e m = Done tt m1 /\
    effects m1 !! e = Some c /\
    rec (Run (fn c)) (log (EvRun e) (set_Observer (Some (compute c)) m1)) = Done tt m2 /\
    m' = set_Observer None (set_cleanup e (fn_ret c) m2).
Proof.
  unfold run_compute. intros (m3 & H & ->)%finally_Done.
  apply bind_Done in H as ([] & m1 & Hcl & H).
  apply bind_Done in H as (c & m1' & Hc & H).
  unfold the_effect in Hc. destruct (effects m1 !! e) as [c'|] eqn:E; [ | done].
  injection Hc as Hc1 Hc2. subst c' m1'.
  apply bind_Done in H as ([] & ? & [= <-] & H).
  apply bind_Done in H as ([] & ? & [= <-] & H).
  apply bind_Done in H as ([] & m2 & Hfn & [= <-]).
  exists m1, c, m2. done.
Qed.

Hypothesis rec_reaches : forall r, respects reaches (rec r).

Lemma reaches_quiet ev m : quiet ev -> reaches m (log ev m).
Proof. intros Hq. by eapply reaches_one, ps_quiet. Qed.

Lemma reaches_run_cleanup e : respects reaches (run_cleanup rec e).
Proof. apply (respects_run_cleanup reaches); auto using reaches_quiet. Qed.

Lemma reaches_call o : respects reaches (call rec o).
Proof.
  apply (respects_call reaches); auto using reaches_quiet.
  by apply reaches_compute.
Qed.

Lemma reaches_notify s i : respects reaches (notify rec s i).
Proof.
  apply (respects_notify reaches); auto using reaches_quiet.
  by apply reaches_compute.
Qed.

Lemma call_Done o m m' :
  call rec o m = Done tt m' ->
  EvCall o ∈ added m m' /\ forall e, o = Compute e -> EvRun e ∈ added m m'.
Proof.
  intros H. pose proof (reaches_call o m) as Hr. rewrite H in Hr.
  unfold call in H. apply bind_Done in H as ([] & ? & [= <-] & H).
  assert (Hq : reaches m (log (EvCall o) m)) by by apply reaches_quiet.
  assert (Hr0 : reaches (log (EvCall o) m) m').
  { destruct o as [e|e k].
    - pose proof (reaches_compute rec rec_reaches e (log (EvCall (Compute e)) m)) as H'.
      by rewrite H in H'.
    - by injection H as <-. }
  rewrite (added_trans _ _ _ Hq Hr0), (added_eq m (log (EvCall o) m) [EvCall o]) by done.
  split; [by left | ]. intros e ->. right.
  apply run_compute_Done in H as (m1 & c & m2 & Hcl & Hc & Hfn & ->).
  pose proof (reaches_run_cleanup e (log (EvCall (Compute e)) m)) as H1.
  rewrite Hcl in H1.
  pose proof (rec_reaches (Run (fn c)) (log (EvRun e) (set_Observer (Some (compute c)) m1)))
    as H2. rewrite Hfn in H2.
  apply reaches_trace in H1, H2. simpl in H1, H2.
  erewrite added_eq; [ | simpl; rewrite H2, H1, <- !app_assoc; reflexivity].
  rewrite !elem_of_app. right. left. by left.
Qed.
End Calls.

(** ** Notification *)

Section Notification.
Variable namespaceElements : string -> option string.
Variable dom_throws : list event -> domcall -> bool.
Variable String_ : jsval -> string.
Variable toLowerCase : string -> string.

Local Abbreviation interp' := (interp namespaceElements dom_throws String_ toLowerCase).

Lemma interp_rec_reaches fuel r : respects reaches (interp' fuel r).
Proof. apply interp_reaches. Qed.

(** The loop of the setter, started at position [i], calls every
    function found in the set from [i] on, those added meanwhile
    included. *)
Lemma notify_calls fuel s i m m' :
  notify (interp' fuel) s i m = Done tt m' ->
  forall j o, i <= j -> observers_of m' s !! j = Some o ->
    EvCall o ∈ added m m' /\ forall e, o = Compute e -> EvRun e ∈ added m m'.
Proof.
  revert i m. induction fuel as [|n IH]; intros i m H j o Hij Hj.
  - unfold notify in H. destruct (observers_of m s !! i) eqn:E.
    + by apply bind_Done in H as ([] & m1 & _ & ?).
    + injection H as <-. apply lookup_ge_None in E.
      rewrite lookup_ge_None_2 in Hj; [done | lia].
  - pose proof (reaches_notify _ (interp_rec_reaches (S n)) s i m) as Hr.
    rewrite H in Hr. unfold notify in H.
    destruct (observers_of m s !! i) as [o0|] eqn:E.
    + apply bind_Done in H as ([] & m1 & Hcall & Hrest).
      pose proof (reaches_call _ (interp_rec_reaches (S n)) o0 m) as H1.
      rewrite Hcall in H1.
      pose proof (interp_rec_reaches (S n) (Notify s (S i)) m1) as H2.
      rewrite Hrest in H2.
      rewrite (added_trans _ _ _ H1 H2). setoid_rewrite elem_of_app.
      destruct (decide (j = i)) as [->|Hne].
      * assert (o = o0) as ->.
        { apply reaches_steps in Hr.
          pose proof (steps_observers_prefix _ _ _ s Hr) as Hp.
          pose proof (prefix_lookup_Some _ _ _ _ E Hp). congruence. }
        apply (call_Done _ (interp_rec_reaches (S n))) in Hcall as [Hc He].
        split; [by left | ]. intros e ->. left. by apply He.
      * simpl in Hrest. destruct (IH _ _ Hrest j o) as [Hc He]; [lia | done | ].
        split; [by right | ]. intros e ->. right. by apply He.
    + injection H as <-. apply lookup_ge_None in E.
      rewrite lookup_ge_None_2 in Hj; [done | lia].
Qed.

Lemma setter_Done fuel s v m m' :
  setter (interp' fuel) s v m = Done tt m' ->
  is_Some (signals m !! s) /\
  notify (interp' fuel) s 0 (store s v (log (EvSet s v) m)) = Done tt m'.
Proof.
  rewrite setter_unfold. destruct (signals m !! s); [eauto | done].
Qed.

Lemma setter_added fuel s v m :
  is_Some (signals m !! s) ->
  match setter (interp' fuel) s v m with
  | Done _ m' | Thrown m' =>
      steps (store s v (log (EvSet s v) m))
            (added (store s v (log (EvSet s v) m)) m') m' /\
      added m m' = EvSet s v :: added (store s v (log (EvSet s v) m)) m'
  | OutOfFuel => True
  end.
Proof.
  intros [c Hc]. rewrite setter_unfold, Hc.
  pose proof (reaches_notify _ (interp_rec_reaches fuel) s 0
                (store s v (log (EvSet s v) m))) as H.
  destruct (notify _ s 0 _); [ | | done].
  - split; [by apply reaches_steps | ]. apply reaches_trace in H.
    apply added_eq. rewrite H. simpl. by rewrite <- app_assoc.
  - split; [by apply reaches_steps | ]. apply reaches_trace in H.
    apply added_eq. rewrite H. simpl. by rewrite <- app_assoc.
Qed.
End Notification.

(** C1 fails as stated: effect 0 calls the accessor of signal 0 while it is
    executing (the read follows [EvRun 0], and the inner effect reads
    nothing), but after the inner effect has run [Observer] is null:
    nothing is registered, and a write to signal 0 calls no observer, so
    the effect that read the signal is not run again. *)
Lemma nested_read_not_registered :
  exists m1 m2,
    demo_run 5 nested_read init = Done tt m1 /\
    trace m1 = [EvCall (Compute 0); EvRun 0;
                EvCall (Compute 1); EvRun 1;
                EvGet 0 (PNum 0) None] /\
    observers_of m1 0 = [] /\
    demo_run 5 [Write 0 (Lit (PNum 1))] m1 = Done tt m2 /\
    added m1 m2 = [EvSet 0 (PNum 1)].
Proof.
  eexists. eexists. split; [vm_compute; reflexivity | ].
  split; [reflexivity | ]. split; [reflexivity | ].
  split; [vm_compute; reflexivity | reflexivity].
Qed.

(** C1, amended: a function is in the observer set of a signal after a call
    exactly when it was there before or the accessor of that signal was
    called while [Observer] held it; and a call of the setter that returns
    has called every function of the signal's observer set, the ones
    registered during the call included, and has run the callback of every
    effect whose [compute] is among them, after it stored the value. *)
Theorem registered_by_tracked_read_and_notified ns dt str lower fuel :
  (forall r m,
     match interp ns dt str lower fuel r m with
     | Done _ m' | Thrown m' =>
         forall s o,
           o ∈ observers_of m' s <->
           o ∈ observers_of m s \/ exists v, EvGet s v (Some o) ∈ added m m'
     | OutOfFuel => True
     end) /\
  (forall s v m m',
     setter (interp ns dt str lower fuel) s v m = Done tt m' ->
     exists t, added m m' = EvSet s v :: t /\
       forall o, o ∈ observers_of m s \/ o ∈ observers_of m' s ->
         EvCall o ∈ t /\ forall e, o = Compute e -> EvRun e ∈ t).
Proof.
  split.
  - intros r m. pose proof (interp_steps ns dt str lower fuel r m) as H.
    destruct (interp ns dt str lower fuel r m); [ | | done]; intros s o;
      by apply steps_registered.
  - intros s v m m' H. pose proof H as [Hs Hn]%setter_Done.
    pose proof (setter_added ns dt str lower fuel s v m Hs) as Ha. rewrite H in Ha.
    destruct Ha as [Hst Ha]. eexists. split; [exact Ha | ].
    intros o Ho.
    assert (o ∈ observers_of m' s) as [j Hj]%list_elem_of_lookup.
    { destruct Ho as [Ho|Ho]; [ | done].
      pose proof (steps_observers_prefix _ _ _ s Hst) as [k Hk].
      rewrite Hk, store_observers_of. apply elem_of_app. by left. }
    eapply notify_calls; [exact Hn | | exact Hj]. lia.
Qed.

Lemma registered_by_tracked_read_and_notified_witness :
  exists m' t,
    setter (interp svg_only never_throws String_prim toLowerCase_ascii 4) 0 (PNum 3) two_readers = Done tt m' /\
    added two_readers m' = EvSet 0 (PNum 3) :: t /\
    forall o, o ∈ observers_of two_readers 0 \/ o ∈ observers_of m' 0 ->
      EvCall o ∈ t /\ forall e, o = Compute e -> EvRun e ∈ t.
Proof.
  eexists.
  assert (H : setter (interp svg_only never_throws String_prim toLowerCase_ascii 4) 0 (PNum 3) two_readers
              = Done tt _) by (vm_compute; reflexivity).
  destruct (proj2 (registered_by_tracked_read_and_notified
                     svg_only never_throws String_prim toLowerCase_ascii 4) _ _ _ _ H) as (t & Ht & Hcalls).
  exists t. split; [exact H | split; [exact Ht | exact Hcalls]].
Defined.

(** C10 fails as stated: while [set(50)] notifies, the clamping effect
    writes 10, and the reads that follow return 10, not 50. *)
Lemma clamped_read_differs :
  exists m', demo_run 6 clamped init = Done tt m' /\
    added init m' =
      [EvCall (Compute 0); EvRun 0; EvGet 0 (PNum 0) (Some (Compute 0));
       EvCall (Compute 1); EvRun 1; EvGet 0 (PNum 0) (Some (Compute 1));
       EvSet 0 (PNum 50);
       EvCall (Compute 0); EvRun 0; EvGet 0 (PNum 50) (Some (Compute 0));
       EvSet 0 (PNum 10);
       EvCall (Compute 0); EvRun 0; EvGet 0 (PNum 10) (Some (Compute 0));
       EvCall (Compute 1); EvRun 1; EvGet 0 (PNum 10) (Some (Compute 1));
       EvCall (Compute 1); EvRun 1; EvGet 0 (PNum 10) (Some (Compute 1))].
Proof. eexists. split; vm_compute; reflexivity. Qed.

(** C10, amended: the setter stores the new value before it calls any
    observer, so every call of the signal's accessor made during the
    notification returns the value written to the signal last: the
    setter's argument, as long as no observer has written the signal again
    in the meantime. *)
Theorem reads_see_last_write ns dt str lower fuel s v m :
  is_Some (signals m !! s) ->
  match setter (interp ns dt str lower fuel) s v m with
  | Done _ m' | Thrown m' =>
      exists t, added m m' = EvSet s v :: t /\
        forall t1 x o t2, t = t1 ++ EvGet s x o :: t2 ->
          x = last_write s v t1 /\ ((forall y, EvSet s y ∉ t1) -> x = v)
  | OutOfFuel => True
  end.
Proof.
  intros Hs. pose proof (setter_added ns dt str lower fuel s v m Hs) as H.
  assert (Hv : value_of (store s v (log (EvSet s v) m)) s = Some v).
  { rewrite store_value_of. case_decide; [ | done].
    unfold value_of. simpl. by destruct Hs as [c ->]. }
  assert (Hok : forall t, reads_ok s v t ->
            forall t1 x o t2, t = t1 ++ EvGet s x o :: t2 ->
              x = last_write s v t1 /\ ((forall y, EvSet s y ∉ t1) -> x = v)).
  { intros t Hr t1 x o t2 ->. apply reads_ok_at in Hr. split; [done | ].
    intros Hno. by rewrite Hr, last_write_no_set. }
  destruct (setter _ s v m); [ | | done]; destruct H as [Hst Ha];
    (eexists; split; [exact Ha | ]); apply Hok;
    by apply (steps_coherent _ _ _ s v Hst).
Qed.

Lemma reads_see_last_write_witness :
  exists m' t,
    setter (interp svg_only never_throws String_prim toLowerCase_ascii 4) 0 (PNum 3) two_readers = Done tt m' /\
    added two_readers m' = EvSet 0 (PNum 3) :: t /\
    forall t1 x o t2, t = t1 ++ EvGet 0 x o :: t2 ->
      x = last_write 0 (PNum 3) t1 /\ ((forall y, EvSet 0 y ∉ t1) -> x = PNum 3).
Proof.
  eexists.
  assert (H : setter (interp svg_only never_throws String_prim toLowerCase_ascii 4) 0 (PNum 3) two_readers
              = Done tt _) by (vm_compute; reflexivity).
  pose proof (reads_see_last_write svg_only never_throws String_prim toLowerCase_ascii 4 0 (PNum 3)
                two_readers (ex_intro _ _ eq_refl)) as Hreads.
  rewrite H in Hreads. destruct Hreads as (t & Ht & Hok).
  exists t. split; [exact H | split; [exact Ht | exact Hok]].
Defined.

(** C2 does not hold of the code: the observer set of the signal keeps the
    original [compute] closure, which the disposer does not change, so the
    write after the disposal runs the callback again ([EvRun 0] after
    [EvDispose 0]). *)
Theorem disposed_effect_runs_again :
  exists m', demo_run 5 dispose_then_write init = Done tt m' /\
    trace m' = [EvCall (Compute 0); EvRun 0; EvGet 0 (PNum 0) (Some (Compute 0));
                EvDispose 0;
                EvSet 0 (PNum 1);
                EvCall (Compute 0); EvRun 0; EvGet 0 (PNum 1) (Some (Noop 0 0));
                EvCall (Noop 0 0)] /\
    observers_of m' 0 = [Compute 0; Noop 0 0].
Proof. eexists. split; [vm_compute; reflexivity | split; reflexivity]. Qed.

(** ** Cleanup *)

Lemma set_cleanup_lookup e r m c :
  effects m !! e = Some c ->
  cleanup <$> effects (set_Observer None (set_cleanup e r m)) !! e = Some r.
Proof. intros H. simpl. by rewrite list_lookup_alter_eq, H. Qed.

(** ** The element builder *)

(** C6: when [setOrRemoveAttr] sets an attribute and [setAttributeNS]
    throws, the exception goes no further: what the call does is what
    [setAttribute] does next, with the same key and the same text. *)
Theorem failed_namespaced_set_is_retried dt str ns element key rawValue m v m1 :
  resolve rawValue m = Done v m1 ->
  removes v = false ->
  dt (trace m1)
     (setAttributeNS element (attr_namespace (element_namespace ns m1 element) key) key
        (attr_text str key v)) = true ->
  setOrRemoveAttr dt str ns element key rawValue m =
    dom dt (setAttribute element key (attr_text str key v))
      (log (EvDom (setAttributeNS element
                     (attr_namespace (element_namespace ns m1 element) key) key
                     (attr_text str key v))) m1) /\
  (dt (trace m1 ++
       [EvDom (setAttributeNS element (attr_namespace (element_namespace ns m1 element) key)
                 key (attr_text str key v))])
      (setAttribute element key (attr_text str key v)) = false ->
   exists m', setOrRemoveAttr dt str ns element key rawValue m = Done tt m' /\
     added m1 m' =
       [EvDom (setAttributeNS element (attr_namespace (element_namespace ns m1 element) key)
                 key (attr_text str key v));
        EvDom (setAttribute element key (attr_text str key v))]).
Proof.
  intros Hv Hrem Hthrow.
  assert (Heq : setOrRemoveAttr dt str ns element key rawValue m =
    dom dt (setAttribute element key (attr_text str key v))
      (log (EvDom (setAttributeNS element
                     (attr_namespace (element_namespace ns m1 element) key) key
                     (attr_text str key v))) m1)).
  { unfold setOrRemoveAttr, bind at 1. rewrite Hv. unfold bind at 1, gets.
    rewrite Hrem. unfold catch, dom at 1. by rewrite Hthrow. }
  split; [exact Heq | ]. intros Hok. rewrite Heq. unfold dom. simpl. rewrite Hok.
  eexists. split; [reflexivity | ]. apply added_eq. simpl. by rewrite <- app_assoc.
Qed.

Lemma failed_namespaced_set_is_retried_witness :
  setOrRemoveAttr namespaced_set_throws String_prim None 0 "class" (VPrim (PStr "btn"))
    one_element =
  Done tt (log (EvDom (setAttribute 0 "class" "btn"))
             (log (EvDom (setAttributeNS 0 None "class" "btn")) one_element)).
Proof.
  refine (eq_trans (proj1 (failed_namespaced_set_is_retried namespaced_set_throws String_prim
            None 0 "class" (VPrim (PStr "btn")) one_element (VPrim (PStr "btn")) one_element
            eq_refl eq_refl eq_refl)) _).
  reflexivity.
Defined.

Lemma forEach_app {A} (f : A -> M unit) l1 l2 m :
  forEach f (l1 ++ l2) m = (forEach f l1 ;;; forEach f l2) m.
Proof.
  revert m. induction l1 as [|x l1 IH]; intros m; simpl; [done | ].
  unfold bind. destruct (f x m) as [[] m1| |]; [ | done..].
  rewrite IH. reflexivity.
Qed.

(** ** createElement: one effect for each binding *)

Lemma same_cells_preorder : PreOrder same_cells.
Proof.
  split.
  - by intros m.
  - intros m1 m2 m3 (? & ? & ?) (? & ? & ?). unfold same_cells. split_and!; congruence.
Qed.

#[global] Existing Instance same_cells_preorder.






Lemma same_cells_quiet ev m : quiet ev -> same_cells m (log ev m).
Proof. done. Qed.

Lemma same_cells_get s v m m1 :
  accessor s m = Some (v, m1) -> same_cells m (log (EvGet s v (Observer m)) m1).
Proof. intros (c & _ & _ & ->)%accessor_Some. by destruct (Observer m) eqn:E. Qed.

Lemma dom_Done dt d m m' : dom dt d m = Done tt m' -> m' = log (EvDom d) m.
Proof. unfold dom. destruct (dt _ _); [done | ]. by intros [= <-]. Qed.

Lemma dom_new_Done dt d ns m n m' :
  dom_new dt d ns m = Done n m' ->
  n = length (nodes m) /\ m' = set_nodes (nodes m ++ [ns]) (log (EvDom d) m).
Proof.
  unfold dom_new. intros ([] & m1 & ->%dom_Done & H)%bind_Done.
  apply bind_Done in H as (n' & ? & [= <- <-] & H).
  apply bind_Done in H as ([] & ? & [= <-] & [= <- <-]). done.
Qed.

Section Wiring.
Variable namespaceElements : string -> option string.
Variable dom_throws : list event -> domcall -> bool.
Variable String_ : jsval -> string.
Variable toLowerCase : string -> string.

Local Abbreviation interp' := (interp namespaceElements dom_throws String_ toLowerCase).

(** Running the callback of a binding allocates nothing. *)
Lemma binding_same_cells fuel body :
  is_binding body -> respects same_cells (interp' fuel (Run body)).
Proof.
  intros Hb. destruct fuel as [|n]; [by intros m | ].
  destruct Hb as [(ns & el & key & v & ->)|(n' & f & ->)]; simpl.
  - apply (respects_bind same_cells); [ | intros; apply (respects_ret same_cells)].
    apply (respects_setOrRemoveAttr same_cells);
      auto using same_cells_quiet, same_cells_get.
  - apply (respects_bind same_cells); [ | intros; apply (respects_ret same_cells)].
    apply (respects_bind same_cells).
    + apply (respects_eval same_cells). auto using same_cells_get.
    + intros. apply (respects_dom same_cells). auto using same_cells_quiet.
Qed.

(** [effect] on the callback of a binding adds one effect, which has
    nothing to clean up, and no node. *)
Lemma binding_effect fuel body m e m' :
  is_binding body ->
  effect (interp' fuel) body RVoid m = Done e m' ->
  e = length (effects m) /\
  effects m' = effects m ++ binding_cells (length (effects m)) [body] /\
  nodes m' = nodes m.
Proof.
  intros Hb H. rewrite effect_unfold in H.
  apply bind_Done in H as ([] & m1 & Hcall & [= <- <-]). split; [done | ].
  unfold call in Hcall. apply bind_Done in Hcall as ([] & ? & [= <-] & Hc).
  apply run_compute_Done in Hc as (m2 & c & m3 & Hcl & Hc & Hfn & ->).
  apply run_cleanup_Done in Hcl as (c' & Hc' & Hcl). simpl in Hc'.
  rewrite lookup_app_r, Nat.sub_diag in Hc' by done. injection Hc' as <-.
  simpl in Hcl. subst m2. simpl in Hc.
  rewrite lookup_app_r, Nat.sub_diag in Hc by done. injection Hc as <-.
  simpl in Hfn.
  match type of Hfn with ?f ?x = _ => pose proof (binding_same_cells fuel body Hb x) as Hs end.
  rewrite Hfn in Hs. destruct Hs as (He & Hn & _). simpl in He, Hn. simpl.
  rewrite He, Hn. split; [ | done].
  rewrite <- (Nat.add_0_r (length (effects m))) at 1.
  by rewrite alter_app_r.
Qed.




End Wiring.

(** ** createElement ends *)

Lemma returns_ret {A} (a : A) : returns (ret a).
Proof. by intros m. Qed.

Lemma returns_bind {A B} (c : M A) (k : A -> M B) :
  returns c -> (forall a, returns (k a)) -> returns (bind c k).
Proof.
  intros Hc Hk m. unfold bind. specialize (Hc m).
  destruct (c m) as [a m1| |]; [apply Hk | done | done].
Qed.

Lemma returns_catch {A} (c h : M A) : returns c -> returns h -> returns (catch c h).
Proof.
  intros Hc Hh m. unfold catch. specialize (Hc m).
  destruct (c m) as [| m1 |]; [done | apply Hh | done].
Qed.

Lemma returns_finally {A} (c : M A) f : returns c -> returns (finally c f).
Proof. intros Hc m. unfold finally. specialize (Hc m). by destruct (c m). Qed.

Lemma returns_forEach {A} (f : A -> M unit) l :
  (forall x, x ∈ l -> returns (f x)) -> returns (forEach f l).
Proof.
  induction l as [|x l IH]; intros Hf; simpl; [apply returns_ret | ].
  apply returns_bind; [apply Hf; by left | intros _].
  apply IH. intros y Hy. apply Hf. by right.
Qed.

Lemma returns_eval e : returns (eval e).
Proof.
  induction e as [p|s|f a IH|f a IHa b IHb]; simpl.
  - apply returns_ret.
  - intros m. by destruct (accessor s m) as [[v m1]|].
  - apply returns_bind; [done | intros; apply returns_ret].
  - apply returns_bind; [done | intros].
    apply returns_bind; [done | intros; apply returns_ret].
Qed.

Lemma returns_dom dt d : returns (dom dt d).
Proof. intros m. unfold dom. by destruct (dt _ _). Qed.

Lemma returns_dom_new dt d ns : returns (dom_new dt d ns).
Proof.
  unfold dom_new. apply returns_bind; [apply returns_dom | intros _]. by intros m.
Qed.

Lemma returns_setOrRemoveAttr dt str ns el key raw :
  returns (setOrRemoveAttr dt str ns el key raw).
Proof.
  unfold setOrRemoveAttr. apply returns_bind.
  { destruct raw; try apply returns_ret.
    apply returns_bind; [apply returns_eval | intros; apply returns_ret]. }
  intros v. apply returns_bind; [by intros m | intros elementNS].
  destruct (removes v).
  - apply returns_catch; [ | apply returns_ret].
    repeat case_match;
      repeat (apply returns_bind; [ | intros _]); apply returns_dom.
  - apply returns_catch; apply returns_dom.
Qed.

Lemma depth_elem x l : x ∈ l -> depth x < depth (VArr l).
Proof.
  induction 1 as [x l|x y l _ IH]; simpl in *; lia.
Qed.

Section Progress.
Variable namespaceElements : string -> option string.
Variable dom_throws : list event -> domcall -> bool.
Variable String_ : jsval -> string.
Variable toLowerCase : string -> string.

Local Abbreviation interp' := (interp namespaceElements dom_throws String_ toLowerCase).

Lemma binding_run_returns n body :
  is_binding body -> returns (interp' (S n) (Run body)).
Proof.
  intros [(ns & el & key & v & ->)|(n' & f & ->)]; simpl.
  - apply returns_bind; [apply returns_setOrRemoveAttr | intros; apply returns_ret].
  - apply returns_bind; [ | intros; apply returns_ret].
    apply returns_bind; [apply returns_eval | intros; apply returns_dom].
Qed.

Lemma binding_effect_returns n body :
  is_binding body -> returns (effect (interp' (S n)) body RVoid).
Proof.
  intros Hb m. rewrite effect_unfold.
  unfold bind at 1, call, bind at 1, emit, modify.
  unfold run_compute, finally, bind at 1, run_cleanup, bind at 1, the_effect.
  cbn [effects log set_effects]. rewrite lookup_app_r, Nat.sub_diag by done.
  cbn [lookup list_lookup cleanup ret].
  unfold bind at 1. cbn [effects log set_effects].
  rewrite lookup_app_r, Nat.sub_diag by done.
  cbn [lookup list_lookup fn fn_ret compute].
  unfold bind at 1, modify. unfold bind at 1, emit, modify. unfold bind at 1.
  match goal with
  | |- context [interp' (S n) (Run body) ?x] =>
      pose proof (binding_run_returns n body Hb x) as H;
      destruct (interp' (S n) (Run body) x)
  end; done.
Qed.

Lemma add_returns fuel parent child :
  depth child < fuel -> returns (add dom_throws String_ (interp' fuel) parent child).
Proof.
  revert parent child. induction fuel as [|n IH]; intros parent child Hd; [lia | ].
  destruct child as [p|f|nd|l|l]; cbv beta iota delta [add].
  - destruct p; try apply returns_ret;
      (apply returns_bind; [apply returns_dom_new | intros; apply returns_dom]).
  - apply returns_bind; [apply returns_dom_new | intros tn].
    apply returns_bind; [ | intros; apply returns_dom].
    apply binding_effect_returns. right. by eauto.
  - apply returns_dom.
  - apply returns_forEach. intros x Hx%depth_elem. simpl. apply IH. lia.
  - apply returns_ret.
Qed.


End Progress.

(** Writing the first signal runs the effect of [title] alone. *)
Example bindings_update_independently :
  exists m m',
    demo_run 5 two_bindings init = Done tt m /\
    demo_run 5 [Write 0 (Lit (PStr "b"))] m = Done tt m' /\
    added m m' =
      [EvSet 0 (PStr "b");
       EvCall (Compute 0); EvRun 0; EvGet 0 (PStr "b") (Some (Compute 0));
       EvDom (setAttributeNS 0 None "title" "b")].
Proof.
  eexists. eexists. split; [vm_compute; reflexivity | ].
  split; [vm_compute; reflexivity | reflexivity].
Qed.

(** * Further properties of the code *)

(** ** Strings of the builder *)

Lemma substring_all s : substring 0 (String.length s) s = s.
Proof. induction s as [|c s IH]; simpl; [done | by rewrite IH]. Qed.

Lemma append_cons x (a b : string) : (String x a ++ b = String x (a ++ b))%string.
Proof. reflexivity. Qed.

Lemma substring_skip p m s :
  substring (String.length p) m (p ++ s) = substring 0 m s.
Proof. induction p as [|c p IH]; [by destruct m, s | rewrite append_cons; apply IH]. Qed.

Lemma length_append p s : String.length (p ++ s) = String.length p + String.length s.
Proof. induction p as [|c p IH]; [done | rewrite append_cons; simpl; by rewrite IH]. Qed.

Lemma append_assoc' (a b c : string) : ((a ++ b) ++ c = a ++ b ++ c)%string.
Proof. induction a as [|x a IH]; [done | by rewrite !append_cons, IH]. Qed.

Lemma prefix_colon c s : String.prefix ":" (String c s) = Ascii.eqb ":" c.
Proof.
  change (String.prefix ":" (String c s)) with
    (match ascii_dec ":" c with left _ => String.prefix "" s | right _ => false end).
  destruct (ascii_dec ":" c) as [<-|Hne].
  - by destruct s.
  - symmetry. by apply Ascii.eqb_neq.
Qed.

Lemma index_cons s1 c s :
  index 0 s1 (String c s) =
  if String.prefix s1 (String c s) then Some 0
  else match index 0 s1 s with Some n => Some (S n) | None => None end.
Proof. reflexivity. Qed.

Lemma index_colon_none s : has_colon s = false -> index 0 ":" s = None.
Proof.
  induction s as [|c s IH]; [done | ].
  cbn [has_colon]. destruct (Ascii.eqb c ":") eqn:E; [done | ]. intros H.
  rewrite index_cons, prefix_colon, Ascii.eqb_sym, E, IH; done.
Qed.

Lemma index_colon_first p name :
  has_colon p = false ->
  index 0 ":" (p ++ ":" ++ name) = Some (String.length p).
Proof.
  induction p as [|c p IH].
  - intros _. change ("" ++ ":" ++ name)%string with (String ":" name).
    by rewrite index_cons, prefix_colon.
  - cbn [has_colon]. destruct (Ascii.eqb c ":") eqn:E; [done | ]. intros H.
    change (String c p ++ ":" ++ name)%string with (String c (p ++ ":" ++ name)).
    rewrite index_cons, prefix_colon, Ascii.eqb_sym, E, IH; done.
Qed.

(** X1: [key.replace(/^[^:]+:/, "")] drops the prefix of a qualified name
    and nothing else: a name with a non-empty prefix without colon loses the
    prefix and the colon; a key without colon, or that begins with a
    colon, is unchanged. *)
Theorem strip_prefix_qualified_name :
  (forall p name,
     p <> "" -> has_colon p = false -> strip_prefix (p ++ ":" ++ name) = name) /\
  (forall key, has_colon key = false -> strip_prefix key = key) /\
  (forall name, strip_prefix (":" ++ name) = (":" ++ name)%string).
Proof.
  split_and!.
  - intros p name Hp Hc. unfold strip_prefix. rewrite index_colon_first by done.
    destruct p as [|c p]; [done | ]. cbn [String.length].
    replace (S (S (String.length p))) with (String.length (String c p ++ ":")%string).
    2:{ rewrite length_append. simpl. lia. }
    rewrite <- append_assoc', substring_skip, length_append, Nat.add_comm, Nat.add_sub.
    apply substring_all.
  - intros key Hc. unfold strip_prefix. by rewrite index_colon_none.
  - intros name. unfold strip_prefix.
    change (":" ++ name)%string with (String ":" name). by rewrite index_cons, prefix_colon.
Qed.

Lemma strip_prefix_qualified_name_witness : strip_prefix ("xlink" ++ ":" ++ "href") = "href".
Proof.
  apply (proj1 strip_prefix_qualified_name "xlink" "href"); [discriminate | reflexivity].
Defined.

Lemma prefix_on name : String.prefix "on" ("on" ++ name) = true.
Proof. by destruct name. Qed.

Lemma slice2_on name : slice2 ("on" ++ name) = name.
Proof.
  unfold slice2. change ("on" ++ name)%string with (String "o" (String "n" name)).
  cbn [String.length substring Nat.sub]. rewrite Nat.sub_0_r. apply substring_all.
Qed.

(** ** setOrRemoveAttr *)

Lemma bind_ext {A B} (c : M A) (k k' : A -> M B) m :
  (forall a m1, c m = Done a m1 -> k a m1 = k' a m1) -> bind c k m = bind c k' m.
Proof. intros H. unfold bind. destruct (c m); auto. Qed.

Lemma resolve_same_cells raw : respects same_cells (resolve raw).
Proof. apply (respects_resolve same_cells). auto using same_cells_get. Qed.

Lemma catch_ret_not_thrown (c : M unit) m m' : catch c (ret tt) m <> Thrown m'.
Proof. unfold catch. by destruct (c m). Qed.

(** X3: [setOrRemoveAttr] throws in one case only, once the value is
    known: the value is to be set and both [setAttributeNS] and the
    [setAttribute] that follows it throw.  A removal never throws, whatever
    the DOM does. *)
Theorem setOrRemoveAttr_throws_iff dt str ns el key raw m v m1 :
  resolve raw m = Done v m1 ->
  (exists m', setOrRemoveAttr dt str ns el key raw m = Thrown m') <->
  removes v = false /\
  dt (trace m1)
     (setAttributeNS el (attr_namespace (element_namespace ns m1 el) key) key
        (attr_text str key v)) = true /\
  dt (trace m1 ++
      [EvDom (setAttributeNS el (attr_namespace (element_namespace ns m1 el) key) key
                (attr_text str key v))])
     (setAttribute el key (attr_text str key v)) = true.
Proof.
  intros Hv. unfold setOrRemoveAttr, bind at 1. rewrite Hv.
  unfold bind at 1, gets. destruct (removes v).
  - split; [ | by intros [? _]]. intros [m' H]. by apply catch_ret_not_thrown in H.
  - unfold catch, dom at 1.
    destruct (dt (trace m1) _) eqn:E1.
    + unfold dom. cbn [trace log]. destruct (dt (trace m1 ++ _) _) eqn:E2.
      * split; [done | intros _; by eexists].
      * split; [by intros [? ?] | by intros (_ & _ & ?)].
    + split; [by intros [? ?] | by intros (_ & ? & _)].
Qed.

Lemma setOrRemoveAttr_throws_iff_witness :
  (exists m', setOrRemoveAttr namespaced_set_throws String_prim None 0 "class"
                (VPrim (PStr "btn")) one_element = Thrown m') <->
  removes (VPrim (PStr "btn")) = false /\
  namespaced_set_throws (trace one_element)
     (setAttributeNS 0 (attr_namespace (element_namespace None one_element 0) "class") "class"
        (attr_text String_prim "class" (VPrim (PStr "btn")))) = true /\
  namespaced_set_throws (trace one_element ++
      [EvDom (setAttributeNS 0 (attr_namespace (element_namespace None one_element 0) "class")
                "class" (attr_text String_prim "class" (VPrim (PStr "btn"))))])
     (setAttribute 0 "class" (attr_text String_prim "class" (VPrim (PStr "btn")))) = true.
Proof.
  apply (setOrRemoveAttr_throws_iff namespaced_set_throws String_prim None 0 "class"
           (VPrim (PStr "btn")) one_element (VPrim (PStr "btn")) one_element).
  reflexivity.
Defined.

(** X4: the namespace given to [setAttributeNS] or [removeAttributeNS] is
    never the XHTML namespace; a key with one of the prefixes [xlink:],
    [xml:], [xsi:] gets the namespace of its prefix whatever the element
    is; any other key on an XHTML element gets none. *)
Theorem attribute_namespace_rules :
  (forall elementNS key, attr_namespace elementNS key <> Some xhtml) /\
  (forall elementNS name,
     attr_namespace elementNS ("xlink:" ++ name) = Some "http://www.w3.org/1999/xlink" /\
     attr_namespace elementNS ("xml:" ++ name) = Some "http://www.w3.org/XML/1998/namespace" /\
     attr_namespace elementNS ("xsi:" ++ name)
       = Some "http://www.w3.org/2001/XMLSchema-instance") /\
  (forall key,
     String.prefix "xlink:" key = false -> String.prefix "xml:" key = false ->
     String.prefix "xsi:" key = false ->
     attr_namespace (Some xhtml) key = None).
Proof.
  split_and!.
  - intros elementNS key. unfold attr_namespace, attrNamespaces. cbn [find fst snd].
    repeat case_match; simplify_eq; try done.
    intros [= ->]. by rewrite String.eqb_refl in *.
  - intros elementNS name. unfold attr_namespace, attrNamespaces. cbn [find fst snd].
    split_and!; by destruct name.
  - intros key H1 H2 H3. unfold attr_namespace, attrNamespaces. cbn [find fst snd].
    by rewrite H1, H2, H3.
Qed.

Lemma attribute_namespace_rules_witness : attr_namespace (Some xhtml) "class" = None.
Proof.
  apply (proj2 (proj2 attribute_namespace_rules) "class"); reflexivity.
Defined.

(** X5: passing no namespace to [setOrRemoveAttr], as [createElement] does
    for the key "xmlns", is the same as passing the element's own
    [namespaceURI]. *)
Theorem null_namespace_is_the_elements dt str el key raw m :
  setOrRemoveAttr dt str None el key raw m =
  setOrRemoveAttr dt str (namespaceURI m el) el key raw m.
Proof.
  unfold setOrRemoveAttr. apply bind_ext. intros v m1 Hv.
  pose proof (resolve_same_cells raw m) as Hs. rewrite Hv in Hs.
  destruct Hs as (_ & Hn & _).
  assert (element_namespace None m1 el = element_namespace (namespaceURI m el) m1 el) as He.
  { unfold element_namespace, namespaceURI. rewrite Hn. cbn [nonempty].
    by destruct (nonempty _). }
  unfold bind, gets. by rewrite He.
Qed.

(** ** signal *)

Lemma set_add_idem o l : set_add o (set_add o l) = set_add o l.
Proof.
  assert (o ∈ set_add o l) as Hin by (apply elem_of_set_add; by right).
  revert Hin. generalize (set_add o l). intros k Hin.
  unfold set_add. by destruct (decide (o ∈ k)).
Qed.

(** X6: registration happens once: calling the accessor again in the
    machine it left returns the same value and changes nothing, also under
    tracking. *)
Theorem accessor_idempotent s m v m1 :
  accessor s m = Some (v, m1) -> accessor s m1 = Some (v, m1).
Proof.
  intros (c & Hc & -> & ->)%accessor_Some. unfold accessor.
  destruct (Observer m) as [o|] eqn:Ho; cbn [signals set_signals Observer].
  - rewrite list_lookup_insert_eq by eauto using lookup_lt_Some. rewrite Ho.
    cbn [value observers]. rewrite set_add_idem. unfold set_signals. cbn.
    by rewrite list_insert_insert_eq.
  - by rewrite Hc, Ho.
Qed.

Lemma accessor_idempotent_witness :
  accessor 0 tracking_read = Some (PNum 1, tracking_read).
Proof. apply (accessor_idempotent 0 tracking (PNum 1) tracking_read). reflexivity. Defined.

Lemma eval_spec e m v m' :
  eval e m = Done v m' ->
  denote (value_of m) e = Some v /\
  (forall s, value_of m' s = value_of m s) /\
  same_cells m m' /\
  (forall o s, o ∈ observers_of m s -> o ∈ observers_of m' s) /\
  (forall o s, Observer m = Some o -> s ∈ reads e -> o ∈ observers_of m' s) /\
  (forall s, s ∉ reads e -> observers_of m' s = observers_of m s).
Proof.
  revert m v m'. induction e as [p|s0|f a IH|f a IHa b IHb]; intros m v m' H; simpl in H.
  - injection H as <- <-. split_and!; try done. intros o s _ []%elem_of_nil.
  - destruct (accessor s0 m) as [[v0 m1]|] eqn:E; [ | done]. injection H as <- <-.
    pose proof (accessor_value_of _ _ _ _ s0 E) as [Hv _].
    split_and!.
    + done.
    + intros s. by eapply accessor_value_of in E as [_ ?].
    + by apply same_cells_get.
    + intros o s Ho. change (observers_of (log (EvGet s0 v0 (Observer m)) m1) s)
        with (observers_of m1 s). rewrite (accessor_observers_of _ _ _ _ s E).
      case_decide; [subst | done]. destruct (Observer m); [ | done].
      apply elem_of_set_add. by left.
    + intros o s Ho ->%list_elem_of_singleton.
      change (observers_of (log (EvGet s0 v0 (Observer m)) m1) s0)
        with (observers_of m1 s0). rewrite (accessor_observers_of _ _ _ _ s0 E).
      rewrite decide_True, Ho by done. apply elem_of_set_add. by right.
    + intros s Hs. change (observers_of (log (EvGet s0 v0 (Observer m)) m1) s)
        with (observers_of m1 s). rewrite (accessor_observers_of _ _ _ _ s E).
      rewrite decide_False; [done | ]. intros ->. apply Hs. by left.
  - apply bind_Done in H as (x & m1 & Ha & [= <- <-]).
    destruct (IH _ _ _ Ha) as (Hd & ? & ? & ? & ? & ?). simpl. rewrite Hd. done.
  - apply bind_Done in H as (x & m1 & Ha & H).
    apply bind_Done in H as (y & m2 & Hb & [= <- <-]).
    destruct (IHa _ _ _ Ha) as (Hda & Hva & Hsa & Hma & Hra & Hna).
    destruct (IHb _ _ _ Hb) as (Hdb & Hvb & Hsb & Hmb & Hrb & Hnb).
    split_and!.
    + simpl. rewrite Hda.
      assert (denote (value_of m) b = denote (value_of m1) b) as ->.
      { clear -Hva.
        induction b as [p|s|g b IH|g b1 IH1 b2 IH2]; simpl;
          [done | by rewrite Hva | by rewrite IH | by rewrite IH1, IH2]. }
      by rewrite Hdb.
    + intros s. by rewrite Hvb.
    + by etrans.
    + auto.
    + intros o s Ho [Hin|Hin]%elem_of_app; [by eauto | ].
      eapply Hrb; [ | done]. destruct Hsa as (_ & _ & ->). done.
    + intros s Hs. rewrite Hnb, Hna; [done | | ]; intros Hin; apply Hs, elem_of_app; auto.
Qed.

(** X7: calling an accessor expression (a signal's accessor, or a function
    made of accessors such as [() => count() * 2]) returns the value of the
    expression on the current signal values, changes no value, no effect
    and no node, registers the tracked function with every signal the
    expression reads, and leaves the observer sets of all other signals as
    they were. *)
Theorem accessor_expression_tracks e m v m' :
  eval e m = Done v m' ->
  denote (value_of m) e = Some v /\
  (forall s, value_of m' s = value_of m s) /\
  effects m' = effects m /\ nodes m' = nodes m /\ Observer m' = Observer m /\
  (forall o s, Observer m = Some o -> s ∈ reads e -> o ∈ observers_of m' s) /\
  (forall s, s ∉ reads e -> observers_of m' s = observers_of m s).
Proof.
  intros (Hd & Hv & (He & Hn & Ho) & _ & Hr & Hnr)%eval_spec. done.
Qed.

Lemma accessor_expression_tracks_witness :
  denote (value_of tracking) (App2 (fun x _ => x) (Read 0) (Read 1)) = Some (PNum 1) /\
  exists m', eval (App2 (fun x _ => x) (Read 0) (Read 1)) tracking = Done (PNum 1) m' /\
    observers_of m' 0 = [Compute 0] /\ observers_of m' 1 = [Compute 0].
Proof.
  assert (H : eval (App2 (fun x _ => x) (Read 0) (Read 1)) tracking = Done (PNum 1) _)
    by reflexivity.
  split.
  - apply (accessor_expression_tracks _ _ _ _ H).
  - eexists. split; [exact H | split; reflexivity].
Defined.

(** ** What no call undoes *)

Lemma prim_step_nodes m t m' : prim_step m t m' -> nodes m `prefix_of` nodes m'.
Proof.
  destruct 1 as [ev m Hq|s v m m1 Hacc|s v m Hs|v m|body r m|o m|e0 r m|e0 m|ns m];
    simpl; try done.
  - apply accessor_Some in Hacc as (c & _ & _ & ->). by destruct (Observer m).
  - by apply prefix_app_r.
Qed.

Lemma steps_nodes m t m' : steps m t m' -> nodes m `prefix_of` nodes m'.
Proof.
  induction 1 as [|m t m1 t1 m2 _ IH Hp]; [done | ].
  etrans; [exact IH | by eapply prim_step_nodes].
Qed.

(** X8: no call removes anything, the disposer of an effect included:
    every observer set keeps its members at their positions, every signal
    and every effect stays allocated, an effect keeps its callback, the
    nodes and the history are only extended. *)
Theorem nothing_is_removed ns dt str lower fuel r m :
  match interp ns dt str lower fuel r m with
  | Done _ m' | Thrown m' =>
      (forall s, observers_of m s `prefix_of` observers_of m' s) /\
      (forall s, is_Some (value_of m s) -> is_Some (value_of m' s)) /\
      (forall e c, effects m !! e = Some c ->
         exists c', effects m' !! e = Some c' /\ fn c' = fn c /\ fn_ret c' = fn_ret c) /\
      nodes m `prefix_of` nodes m' /\
      trace m `prefix_of` trace m'
  | OutOfFuel => True
  end.
Proof.
  pose proof (interp_steps ns dt str lower fuel r m) as H.
  destruct (interp ns dt str lower fuel r m) as [[] m'|m'|]; [ | | done].
  all: split_and!;
    [ intros s; by eapply steps_observers_prefix
    | intros s; by eapply steps_allocated
    | intros e c; by eapply steps_effects
    | by eapply steps_nodes
    | exists (added m m'); by apply steps_trace ].
Qed.

(** ** The setter *)

(** X9: after a call of the setter has returned, the signal holds the value
    written to it last during the call, and the accessor returns it: the
    setter's argument unless an observer has written the signal again. *)
Theorem write_then_read ns dt str lower fuel s v m m' :
  setter (interp ns dt str lower fuel) s v m = Done tt m' ->
  exists t, added m m' = EvSet s v :: t /\
    value_of m' s = Some (last_write s v t) /\
    (exists m2, accessor s m' = Some (last_write s v t, m2)) /\
    ((forall y, EvSet s y ∉ t) -> value_of m' s = Some v).
Proof.
  intros H. pose proof H as [Hs Hn]%setter_Done.
  pose proof (setter_added ns dt str lower fuel s v m Hs) as Ha. rewrite H in Ha.
  destruct Ha as [Hst Ha]. eexists. split; [exact Ha | ].
  assert (Hv : value_of (store s v (log (EvSet s v) m)) s = Some v).
  { rewrite store_value_of. case_decide; [ | done].
    unfold value_of. simpl. by destruct Hs as [c ->]. }
  destruct (steps_coherent _ _ _ s v Hst Hv) as [Hlast _]. split_and!.
  - done.
  - unfold value_of in Hlast. unfold accessor.
    destruct (signals m' !! s) as [c|]; [ | done]. injection Hlast as <-. eauto.
  - intros Hno. by rewrite Hlast, last_write_no_set.
Qed.

Lemma write_then_read_witness :
  exists m' t,
    setter (interp svg_only never_throws String_prim toLowerCase_ascii 4) 0 (PNum 3) two_readers = Done tt m' /\
    added two_readers m' = EvSet 0 (PNum 3) :: t /\
    value_of m' 0 = Some (last_write 0 (PNum 3) t).
Proof.
  eexists.
  assert (H : setter (interp svg_only never_throws String_prim toLowerCase_ascii 4) 0 (PNum 3) two_readers
              = Done tt _) by (vm_compute; reflexivity).
  destruct (write_then_read _ _ _ _ _ _ _ _ _ H) as (t & Ht & Hv & _).
  exists t. split; [exact H | split; [exact Ht | exact Hv]].
Defined.

(** ** effect *)

Section FirstRun.
Variable rec : request -> M unit.

Lemma effect_Done body r m e m' :
  effect rec body r m = Done e m' ->
  e = length (effects m) /\
  exists m2,
    rec (Run body) (first_run_start body r m) = Done tt m2 /\
    m' = set_Observer None (set_cleanup e r m2).
Proof.
  intros H. rewrite effect_unfold in H.
  apply bind_Done in H as ([] & m1 & Hcall & [= <- <-]). split; [done | ].
  unfold call in Hcall. apply bind_Done in Hcall as ([] & ? & [= <-] & Hc).
  apply run_compute_Done in Hc as (m2 & c & m3 & Hcl & Hc & Hfn & ->).
  apply run_cleanup_Done in Hcl as (c' & Hc' & Hcl). simpl in Hc'.
  rewrite lookup_app_r, Nat.sub_diag in Hc' by done. injection Hc' as <-.
  simpl in Hcl. subst m2. simpl in Hc.
  rewrite lookup_app_r, Nat.sub_diag in Hc by done. injection Hc as <-.
  simpl in Hfn. by exists m3.
Qed.
End FirstRun.

(** X11: an effect whose callback begins by reading a signal is run again
    by every later write to that signal that returns, whatever happened in
    between. *)
Theorem effect_reruns_on_write ns dt str lower fuel1 fuel2 s rest r m e m1 m2 v m3 :
  effect (interp ns dt str lower fuel1) (Do (Read s) :: rest) r m = Done e m1 ->
  reaches m1 m2 ->
  setter (interp ns dt str lower fuel2) s v m2 = Done tt m3 ->
  Compute e ∈ observers_of m2 s /\ EvRun e ∈ added m2 m3.
Proof.
  intros (-> & ma & Hrun & ->)%effect_Done Hreach Hset.
  assert (Compute (length (effects m)) ∈ observers_of ma s) as Hin.
  { destruct fuel1 as [|n]; [done | ]. simpl in Hrun.
    apply bind_Done in Hrun as ([] & mb & Hstep & Hrest).
    apply bind_Done in Hstep as (x & mb' & Hev & [= <-]).
    change (eval (Read s) (first_run_start (Do (Read s) :: rest) r m) = Done x mb') in Hev.
    destruct (eval_spec _ _ _ _ Hev) as (_ & _ & _ & _ & Hreg & _).
    assert (Compute (length (effects m)) ∈ observers_of mb' s) as Hb.
    { eapply Hreg; [reflexivity | by left]. }
    pose proof (interp_reaches ns dt str lower (S n) (Run rest) mb') as Hr.
    simpl in Hr. rewrite Hrest in Hr.
    destruct (steps_observers_prefix _ _ _ s (reaches_steps _ _ Hr)) as [k ->].
    apply elem_of_app. by left. }
  assert (Compute (length (effects m)) ∈ observers_of m2 s) as Hin2.
  { destruct (steps_observers_prefix _ _ _ s (reaches_steps _ _ Hreach)) as [k ->].
    apply elem_of_app. by left. }
  split; [done | ].
  pose proof Hset as [Hs Hn]%setter_Done.
  pose proof (setter_added ns dt str lower fuel2 s v m2 Hs) as Ha. rewrite Hset in Ha.
  destruct Ha as [Hst Ha]. rewrite Ha. right.
  assert (Compute (length (effects m)) ∈ observers_of m3 s) as [j Hj]%list_elem_of_lookup.
  { destruct (steps_observers_prefix _ _ _ s Hst) as [k ->].
    rewrite store_observers_of. apply elem_of_app. by left. }
  eapply (notify_calls ns dt str lower); [exact Hn | | exact Hj | reflexivity]. lia.
Qed.

Lemma effect_reruns_on_write_witness :
  exists m1 m3,
    effect (interp svg_only never_throws String_prim toLowerCase_ascii 3) [Do (Read 0)] RVoid one_counter
      = Done 0 m1 /\
    setter (interp svg_only never_throws String_prim toLowerCase_ascii 3) 0 (PNum 1) m1 = Done tt m3 /\
    EvRun 0 ∈ added m1 m3.
Proof.
  eexists. eexists.
  assert (H1 : effect (interp svg_only never_throws String_prim toLowerCase_ascii 3) [Do (Read 0)] RVoid
                 one_counter = Done 0 _) by (vm_compute; reflexivity).
  match type of H1 with _ = Done _ ?m1 =>
    assert (H3 : setter (interp svg_only never_throws String_prim toLowerCase_ascii 3) 0 (PNum 1) m1 = Done tt _)
      by (vm_compute; reflexivity)
  end.
  split; [exact H1 | split; [exact H3 | ]].
  eapply (effect_reruns_on_write _ _ _ _ _ _ _ _ _ _ _ _ _ _ _ H1); [reflexivity | exact H3].
Defined.

(** ** From a write to the DOM *)

Lemma in_added m a ev m' : reaches m a -> reaches (log ev a) m' -> ev ∈ added m m'.
Proof.
  intros H1%reaches_trace H2%reaches_trace. simpl in H2.
  rewrite (added_eq m m' (added m a ++ [ev] ++ added (log ev a) m')).
  - rewrite !elem_of_app. right. left. by apply list_elem_of_singleton.
  - by rewrite H2, H1, <- !app_assoc.
Qed.

Lemma reaches_eval e m v m' : eval e m = Done v m' -> reaches m m'.
Proof.
  intros H. pose proof (respects_eval reaches) as Hr.
  specialize (Hr (fun s v m m1 H => reaches_one _ _ _ (ps_get s v m m1 H)) e m).
  by rewrite H in Hr.
Qed.

Lemma reaches_end_of_run e r m : reaches m (set_Observer None (set_cleanup e r m)).
Proof.
  etrans; [eapply reaches_one, ps_cleanup | eapply reaches_one, ps_observer].
Qed.

Section NotifyRuns.
Variable namespaceElements : string -> option string.
Variable dom_throws : list event -> domcall -> bool.
Variable String_ : jsval -> string.
Variable toLowerCase : string -> string.

Local Abbreviation interp' := (interp namespaceElements dom_throws String_ toLowerCase).

Variable R : relation machine.
Context `{!PreOrder R}.
Hypothesis R_reaches : forall m m', R m m' -> reaches m m'.
Hypothesis R_interp : forall fuel r, respects R (interp' fuel r).
Hypothesis R_call : forall fuel o, respects R (call (interp' fuel) o).

(** Each function of the set was called in some machine of the run. *)
Lemma notify_runs fuel s i m m' :
  notify (interp' fuel) s i m = Done tt m' ->
  forall j o, i <= j -> observers_of m' s !! j = Some o ->
    exists fuel' ma mb,
      R m ma /\ call (interp' fuel') o ma = Done tt mb /\ R mb m'.
Proof.
  revert i m. induction fuel as [|n IH]; intros i m H j o Hij Hj.
  - unfold notify in H. destruct (observers_of m s !! i) eqn:E.
    + by apply bind_Done in H as ([] & m1 & _ & ?).
    + injection H as <-. apply lookup_ge_None in E.
      rewrite lookup_ge_None_2 in Hj; [done | lia].
  - pose proof (R_interp (S (S n)) (Notify s i) m) as Hr. cbn [interp handle] in Hr.
    change (match notify (interp' (S n)) s i m with
            | Done _ m' | Thrown m' => R m m'
            | OutOfFuel => True
            end) in Hr.
    rewrite H in Hr. unfold notify in H.
    destruct (observers_of m s !! i) as [o0|] eqn:E.
    + apply bind_Done in H as ([] & m1 & Hcall & Hrest).
      pose proof (R_call (S n) o0 m) as H1. rewrite Hcall in H1.
      pose proof (R_interp (S n) (Notify s (S i)) m1) as H2. rewrite Hrest in H2.
      destruct (decide (j = i)) as [->|Hne].
      * assert (o = o0) as ->.
        { apply R_reaches, reaches_steps in Hr.
          pose proof (steps_observers_prefix _ _ _ s Hr) as Hp.
          pose proof (prefix_lookup_Some _ _ _ _ E Hp). congruence. }
        exists (S n), m, m1. done.
      * simpl in Hrest.
        destruct (IH _ _ Hrest j o) as (fuel' & ma & mb & Ha & Hc & Hb); [lia | done | ].
        exists fuel', ma, mb. split_and!; [by etrans | done | done].
    + injection H as <-. apply lookup_ge_None in E.
      rewrite lookup_ge_None_2 in Hj; [done | lia].
Qed.
End NotifyRuns.

Section Rerender.
Variable namespaceElements : string -> option string.
Variable dom_throws : list event -> domcall -> bool.
Variable String_ : jsval -> string.
Variable toLowerCase : string -> string.

Local Abbreviation interp' := (interp namespaceElements dom_throws String_ toLowerCase).

(** The callback of a text binding, run to its end: the accessor is
    called, then the text is set. *)
Lemma text_binding_run fuel tn f m m' :
  interp' fuel (Run (text_binding tn f)) m = Done tt m' ->
  exists x my,
    eval f m = Done x my /\
    m' = log (EvDom (set_textContent tn (String_ (VPrim x)))) my.
Proof.
  destruct fuel as [|n]; [done | ]. cbn [interp handle text_binding forEach step].
  intros ([] & m1 & Hstep & [= <-])%bind_Done.
  apply bind_Done in Hstep as (x & my & Hev & ->%dom_Done). eauto.
Qed.
End Rerender.

(** ** Arrays of children *)

Lemma forEach_one {A} (f : A -> M unit) x m : forEach f [x] m = f x m.
Proof. simpl. unfold bind. by destruct (f x m) as [[] ?| |]. Qed.

Section Flatten.
Variable namespaceElements : string -> option string.
Variable dom_throws : list event -> domcall -> bool.
Variable String_ : jsval -> string.
Variable toLowerCase : string -> string.

Local Abbreviation interp' := (interp namespaceElements dom_throws String_ toLowerCase).
Local Abbreviation add' := (add dom_throws String_).

Lemma add_more_fuel n parent child m :
  add' (interp' n) parent child m <> OutOfFuel ->
  add' (interp' (S n)) parent child m = add' (interp' n) parent child m.
Proof.
  apply refines_add. intros r m1 H. apply interp_more_fuel; [lia | done].
Qed.

(** X13: with fuel beyond the nesting of the arrays, adding a child is
    adding its leaves one after the other, in the order of the arrays. *)
Theorem add_flattens_arrays fuel parent child m :
  depth child < fuel ->
  add' (interp' fuel) parent child m =
  forEach (add' (interp' fuel) parent) (leaves child) m.
Proof.
  revert child m. induction fuel as [|n IH]; intros child m Hd; [lia | ].
  destruct child as [p|f|nd|l|l]; try (symmetry; apply forEach_one).
  cbv beta iota delta [add]. cbn [interp handle].
  change (forEach (fun c => add' (interp' n) parent c) l m =
          forEach (add' (interp' (S n)) parent) (leaves (VArr l)) m).
  assert (Hl : forall x, x ∈ l -> depth x < n).
  { intros x Hx%depth_elem. lia. }
  clear Hd. revert m. induction l as [|x l IHl]; intros m; [done | ].
  change (leaves (VArr (x :: l))) with (leaves x ++ leaves (VArr l)).
  rewrite forEach_app. cbn [forEach].
  assert (Hx : depth x < n) by (apply Hl; by left).
  assert (Hh : forEach (add' (interp' (S n)) parent) (leaves x) m =
               add' (interp' n) parent x m).
  { pose proof (add_returns namespaceElements dom_throws String_ toLowerCase n parent x Hx m) as Hr.
    rewrite (IH x m Hx) in Hr |- *.
    apply (refines_forEach (add' (interp' n) parent)); [ | done].
    intros y m1 Hy. by apply add_more_fuel. }
  unfold bind. rewrite Hh.
  destruct (add' (interp' n) parent x m) as [[] m1| |]; [ | done..].
  apply IHl. intros y Hy. apply Hl. by right.
Qed.
End Flatten.

Lemma add_flattens_arrays_witness :
  add never_throws String_prim (interp svg_only never_throws String_prim toLowerCase_ascii 5) 0
    (VArr [VPrim (PStr "a"); VArr [VFun (Read 0); VArr []]; VNode 0])
    (set_nodes [Some xhtml] one_counter) =
  forEach (add never_throws String_prim (interp svg_only never_throws String_prim toLowerCase_ascii 5) 0)
    [VPrim (PStr "a"); VFun (Read 0); VNode 0] (set_nodes [Some xhtml] one_counter).
Proof. apply (add_flattens_arrays svg_only). vm_compute. lia. Defined.

(** ** The variable cleanup *)

Lemma slots_kept_same m m' : effects m' = effects m -> slots_kept m m'.
Proof. intros H e c Hc. exists c. rewrite H. auto. Qed.

Lemma slots_kept_preorder : PreOrder slots_kept.
Proof.
  split.
  - intros m. by apply slots_kept_same.
  - intros m1 m2 m3 H1 H2 e c Hc.
    destruct (H1 e c Hc) as (c1 & He1 & Hr1 & Hc1).
    destruct (H2 e c1 He1) as (c2 & He2 & Hr2 & Hc2).
    exists c2. split_and!; [done | congruence | ].
    destruct Hc1, Hc2; [left | right | right | right]; congruence.
Qed.

#[global] Existing Instance slots_kept_preorder.

Lemma run_keeps_preorder : PreOrder run_keeps.
Proof.
  split.
  - intros m. split; reflexivity.
  - intros m1 m2 m3 [] []. split; by etrans.
Qed.

#[global] Existing Instance run_keeps_preorder.

Lemma slots_kept_set_cleanup m m2 e c :
  slots_kept m m2 -> effects m !! e = Some c ->
  slots_kept m (set_cleanup e (fn_ret c) m2).
Proof.
  intros H He e0 c0 Hc0. destruct (H e0 c0 Hc0) as (c2 & He2 & Hr2 & Hc2). simpl.
  destruct (decide (e0 = e)) as [->|Hne].
  - rewrite list_lookup_alter_eq, He2. simpl. eexists. split; [done | ]. simpl.
    rewrite He in Hc0. injection Hc0 as <-. auto.
  - rewrite list_lookup_alter_ne by done. eauto.
Qed.

Lemma slots_kept_reset m e : slots_kept m (reset_compute e m).
Proof.
  intros e0 c0 Hc0. simpl. destruct (decide (e0 = e)) as [->|Hne].
  - rewrite list_lookup_alter_eq, Hc0. simpl. eexists. split; [done | ]. auto.
  - rewrite list_lookup_alter_ne by done. eauto.
Qed.

Lemma slots_kept_compute rec :
  (forall r, respects slots_kept (rec r)) ->
  forall e, respects slots_kept (run_compute rec e).
Proof.
  intros Hrec e. unfold run_compute.
  apply (respects_finally slots_kept); [ | intros m; by apply slots_kept_same].
  apply (respects_bind slots_kept); [ | intros _].
  { apply (respects_run_cleanup slots_kept); [ | done].
    intros ev m _. by apply slots_kept_same. }
  intros m. unfold bind at 1, the_effect.
  destruct (effects m !! e) as [c|] eqn:E; [ | reflexivity].
  unfold bind at 1, modify. unfold bind at 1, emit, modify. unfold bind at 1.
  match goal with |- context [rec ?r ?x] =>
    pose proof (Hrec r x) as H; destruct (rec r x) as [[] m2|m2|]
  end; [ | done | done].
  simpl. by apply slots_kept_set_cleanup.
Qed.

Section Slots.
Variable namespaceElements : string -> option string.
Variable dom_throws : list event -> domcall -> bool.
Variable String_ : jsval -> string.
Variable toLowerCase : string -> string.

Local Abbreviation interp' := (interp namespaceElements dom_throws String_ toLowerCase).

Lemma interp_slots_kept fuel r : respects slots_kept (interp' fuel r).
Proof.
  apply (respects_interp slots_kept); try (intros; by apply slots_kept_same).
  - intros s v m m1 [H _]%accessor_effects. by apply slots_kept_same.
  - intros body r0 m e c Hc. exists c. split; [ | auto]. simpl.
    by apply lookup_app_l_Some.
  - intros e m. apply slots_kept_reset.
  - apply slots_kept_compute.
Qed.
End Slots.

Section Cleanup.
Variable namespaceElements : string -> option string.
Variable dom_throws : list event -> domcall -> bool.
Variable String_ : jsval -> string.
Variable toLowerCase : string -> string.

Local Abbreviation interp' := (interp namespaceElements dom_throws String_ toLowerCase).
Local Abbreviation run_tasks' := (run_tasks namespaceElements dom_throws String_ toLowerCase).

Lemma interp_run_keeps fuel r : respects run_keeps (interp' fuel r).
Proof.
  intros m.
  pose proof (interp_reaches namespaceElements dom_throws String_ toLowerCase fuel r m) as H1.
  pose proof (interp_slots_kept namespaceElements dom_throws String_ toLowerCase fuel r m) as H2.
  destruct (interp' fuel r m); done.
Qed.

Lemma call_run_keeps fuel o : respects run_keeps (call (interp' fuel) o).
Proof.
  intros m.
  pose proof (reaches_call _ (interp_rec_reaches namespaceElements dom_throws String_ toLowerCase fuel)
                o m) as H1.
  assert (respects slots_kept (call (interp' fuel) o)) as H2.
  { apply (respects_call slots_kept).
    - intros ev m0 _. by apply slots_kept_same.
    - apply slots_kept_compute, interp_slots_kept. }
  specialize (H2 m). destruct (call (interp' fuel) o m); done.
Qed.

Lemma disposer_run_keeps fuel e : respects run_keeps (disposer (interp' fuel) e).
Proof.
  intros m.
  assert (respects reaches (disposer (interp' fuel) e)) as H1.
  { apply (respects_disposer reaches).
    - intros ev m0 Hq. by apply reaches_quiet.
    - intros e0 m0. eapply reaches_one, ps_reset.
    - apply interp_rec_reaches. }
  assert (respects slots_kept (disposer (interp' fuel) e)) as H2.
  { apply (respects_disposer slots_kept).
    - intros ev m0 _. by apply slots_kept_same.
    - intros e0 m0. apply slots_kept_reset.
    - apply interp_slots_kept. }
  specialize (H1 m). specialize (H2 m). destruct (disposer (interp' fuel) e m); done.
Qed.

Lemma run_tasks_keeps fuel tasks m m' :
  run_tasks' fuel tasks m = Some m' -> run_keeps m m'.
Proof.
  revert m. induction tasks as [|t tasks IH]; intros m; simpl.
  - intros [= <-]. reflexivity.
  - unfold run. pose proof (interp_run_keeps fuel (Run t) m) as H.
    destruct (interp' fuel (Run t) m); [ | | done]; intros H'%IH; by etrans.
Qed.

(** What [effect] leaves behind when its callback began with a read. *)
Lemma effect_registers fuel s rest r m e m1 :
  effect (interp' fuel) (Do (Read s) :: rest) r m = Done e m1 ->
  Compute e ∈ observers_of m1 s /\
  exists c, effects m1 !! e = Some c /\ cleanup c = r /\ fn_ret c = r.
Proof.
  intros (-> & ma & Hrun & ->)%effect_Done.
  pose proof (interp_rec_reaches namespaceElements dom_throws String_ toLowerCase fuel
                (Run (Do (Read s) :: rest))
                (first_run_start (Do (Read s) :: rest) r m)) as Hr0.
  rewrite Hrun in Hr0. split.
  - destruct fuel as [|n]; [done | ]. simpl in Hrun.
    apply bind_Done in Hrun as ([] & mb & Hstep & Hrest).
    apply bind_Done in Hstep as (x & mb' & Hev & [= <-]).
    change (eval (Read s) (first_run_start (Do (Read s) :: rest) r m) = Done x mb') in Hev.
    destruct (eval_spec _ _ _ _ Hev) as (_ & _ & _ & _ & Hreg & _).
    assert (Compute (length (effects m)) ∈ observers_of mb' s) as Hb.
    { eapply Hreg; [reflexivity | by left]. }
    pose proof (interp_rec_reaches namespaceElements dom_throws String_ toLowerCase (S n)
                  (Run rest) mb') as Hr.
    simpl in Hr. rewrite Hrest in Hr.
    destruct (steps_observers_prefix _ _ _ s (reaches_steps _ _ Hr)) as [k Hk].
    change (Compute (length (effects m)) ∈ observers_of ma s).
    rewrite Hk. apply elem_of_app. by left.
  - assert (effects (first_run_start (Do (Read s) :: rest) r m) !! length (effects m)
            = Some (EffectCell (Do (Read s) :: rest) r RVoid (Compute (length (effects m)))))
      as H0.
    { unfold first_run_start. simpl. by rewrite lookup_app_r, Nat.sub_diag. }
    destruct (steps_effects _ _ _ _ _ (reaches_steps _ _ Hr0) H0) as (c & Hc & _ & Hret).
    simpl. rewrite list_lookup_alter_eq, Hc. simpl. eexists. split; [done | ].
    simpl. by rewrite Hret.
Qed.

(** X14: whatever a call does, the variable [cleanup] of an effect holds
    afterwards what it held before, or what the callback of the effect
    returns: only [compute] assigns it, and the disposer does not clear it. *)
Theorem cleanup_only_from_callback fuel r m m' e c :
  interp namespaceElements dom_throws String_ toLowerCase fuel r m = Done tt m' \/
  interp namespaceElements dom_throws String_ toLowerCase fuel r m = Thrown m' ->
  effects m !! e = Some c ->
  exists c', effects m' !! e = Some c' /\
    (cleanup c' = cleanup c \/ cleanup c' = fn_ret c).
Proof.
  intros H Hc. pose proof (interp_slots_kept namespaceElements dom_throws String_ toLowerCase fuel r m) as Hk.
  assert (slots_kept m m') as Hs by (destruct H as [H|H]; by rewrite H in Hk).
  destruct (Hs e c Hc) as (c' & ? & _ & ?). eauto.
Qed.

(** X15: an effect whose callback returns a truthy value that is not a
    function, and began by reading a signal, breaks that signal: after
    whatever tasks, no write to it returns, since [compute] throws when it
    calls [cleanup]. *)
Theorem not_callable_result_breaks_writes fuel1 fuel2 fuel3 s rest m e m1 tasks m2 v m3 :
  effect (interp' fuel1) (Do (Read s) :: rest) RNotCallable m = Done e m1 ->
  run_tasks' fuel2 tasks m1 = Some m2 ->
  setter (interp' fuel3) s v m2 <> Done tt m3.
Proof.
  intros (Hin & c1 & Hc1 & Hcl1 & Hret1)%effect_registers [Hr12 Hk12]%run_tasks_keeps Hset.
  pose proof Hset as [Hsig Hn]%setter_Done.
  set (ms := store s v (log (EvSet s v) m2)) in *.
  assert (run_keeps m2 ms) as [Hr2s Hk2s].
  { split; [by eapply reaches_one, ps_set | by apply slots_kept_same]. }
  pose proof (interp_run_keeps (S fuel3) (Notify s 0) ms) as Hrn.
  cbn [interp handle] in Hrn.
  change (match notify (interp' fuel3) s 0 ms with
          | Done _ m' | Thrown m' => run_keeps ms m'
          | OutOfFuel => True
          end) in Hrn.
  rewrite Hn in Hrn. destruct Hrn as [Hrs3 _].
  assert (Compute e ∈ observers_of m3 s) as [j Hj]%list_elem_of_lookup.
  { assert (reaches m1 m3) as Hr13 by (etrans; [exact Hr12 | by etrans]).
    destruct (steps_observers_prefix _ _ _ s (reaches_steps _ _ Hr13)) as [k ->].
    apply elem_of_app. by left. }
  destruct (notify_runs namespaceElements dom_throws String_ toLowerCase run_keeps
              (fun _ _ H => proj1 H) interp_run_keeps call_run_keeps
              _ _ _ _ _ Hn j _ (Nat.le_0_l j) Hj)
    as (fuel' & ma & mb & [_ Hksa] & Hcall & _).
  assert (slots_kept m1 ma) as Hk by (etrans; [exact Hk12 | by etrans]).
  destruct (Hk e c1 Hc1) as (ca & Hca & _ & Hcla).
  unfold call in Hcall. apply bind_Done in Hcall as ([] & ? & [= <-] & Hc).
  apply run_compute_Done in Hc as (mc & c & md & Hcl & _).
  apply run_cleanup_Done in Hcl as (c' & Hc' & Hcl). simpl in Hc'.
  rewrite Hca in Hc'. injection Hc' as <-.
  destruct Hcla as [Hx|Hx]; rewrite Hx in Hcl; [rewrite Hcl1 in Hcl | rewrite Hret1 in Hcl];
    done.
Qed.

Lemma disposer_cleanup fuel e m m' c body :
  effects m !! e = Some c -> cleanup c = RCleanup body ->
  disposer (interp' fuel) e m = Done tt m' ->
  EvCleanup e ∈ added m m'.
Proof.
  intros He Hc H. unfold disposer in H.
  apply bind_Done in H as ([] & ? & [= <-] & H).
  apply bind_Done in H as ([] & m1 & Hcl & [= <-]).
  apply run_cleanup_Done in Hcl as (c' & He' & Hcl). simpl in He'.
  rewrite He in He'. injection He' as <-. rewrite Hc in Hcl.
  pose proof (interp_rec_reaches namespaceElements dom_throws String_ toLowerCase fuel (Run body)
                (log (EvCleanup e) (log (EvDispose e) m))) as Hr.
  rewrite Hcl in Hr.
  apply (in_added m (log (EvDispose e) m)); [by apply reaches_quiet | ].
  etrans; [exact Hr | eapply reaches_one, ps_reset].
Qed.

(** X16: the disposer does not forget the cleanup function.  For an effect
    that holds one, and whose callback returns one, each disposal that
    returns calls a cleanup function: the first, and any later one,
    whatever tasks ran in between. *)
Theorem disposal_calls_cleanup_each_time
    fuel1 fuel2 fuel3 e m c body body' m1 tasks m2 m3 :
  effects m !! e = Some c ->
  cleanup c = RCleanup body ->
  fn_ret c = RCleanup body' ->
  disposer (interp' fuel1) e m = Done tt m1 ->
  run_tasks' fuel2 tasks m1 = Some m2 ->
  disposer (interp' fuel3) e m2 = Done tt m3 ->
  EvCleanup e ∈ added m m1 /\ EvCleanup e ∈ added m2 m3.
Proof.
  intros He Hc Hret H1 [_ Hk12]%run_tasks_keeps H3.
  split; [by eapply disposer_cleanup | ].
  pose proof (disposer_run_keeps fuel1 e m) as Hd. rewrite H1 in Hd. destruct Hd as [_ Hk01].
  assert (slots_kept m m2) as Hk by by etrans.
  destruct (Hk e c He) as (c2 & Hc2 & _ & [Hx|Hx]).
  - eapply disposer_cleanup; [done | | done]. by rewrite Hx.
  - eapply disposer_cleanup; [done | | done]. by rewrite Hx.
Qed.
End Cleanup.

Lemma cleanup_only_from_callback_witness :
  exists m' c',
    interp svg_only never_throws String_prim toLowerCase_ascii 4 (Run [Write 0 (Lit (PNum 1))]) with_cleanup
      = Done tt m' /\
    effects m' !! 0 = Some c' /\
    cleanup c' = RCleanup [Do (Lit PNull)].
Proof.
  eexists.
  assert (H : interp svg_only never_throws String_prim toLowerCase_ascii 4 (Run [Write 0 (Lit (PNum 1))])
                with_cleanup = Done tt _) by (vm_compute; reflexivity).
  destruct (cleanup_only_from_callback svg_only never_throws String_prim toLowerCase_ascii _ _ _ _ 0 _
              (or_introl H) eq_refl) as (c' & Hc' & Hcl).
  exists c'. split; [exact H | split; [exact Hc' | ]].
  destruct Hcl as [Hcl|Hcl]; exact Hcl.
Defined.

Lemma not_callable_result_breaks_writes_witness :
  exists m1,
    effect (interp svg_only never_throws String_prim toLowerCase_ascii 3) [Do (Read 0)] RNotCallable one_counter
      = Done 0 m1 /\
    forall m3, setter (interp svg_only never_throws String_prim toLowerCase_ascii 3) 0 (PNum 1) m1 <> Done tt m3.
Proof.
  eexists.
  assert (H : effect (interp svg_only never_throws String_prim toLowerCase_ascii 3) [Do (Read 0)] RNotCallable
                one_counter = Done 0 _) by (vm_compute; reflexivity).
  split; [exact H | ]. intros m3.
  apply (not_callable_result_breaks_writes svg_only never_throws String_prim toLowerCase_ascii
           3 0 3 0 [] one_counter 0 _ [] _ (PNum 1) m3 H eq_refl).
Defined.

Lemma disposal_calls_cleanup_each_time_witness :
  exists m1 m3,
    disposer (interp svg_only never_throws String_prim toLowerCase_ascii 3) 0 with_cleanup = Done tt m1 /\
    disposer (interp svg_only never_throws String_prim toLowerCase_ascii 3) 0 m1 = Done tt m3 /\
    EvCleanup 0 ∈ added with_cleanup m1 /\ EvCleanup 0 ∈ added m1 m3.
Proof.
  eexists. eexists.
  assert (H1 : disposer (interp svg_only never_throws String_prim toLowerCase_ascii 3) 0 with_cleanup
                 = Done tt _) by (vm_compute; reflexivity).
  match type of H1 with _ = Done _ ?m1 =>
    assert (H3 : disposer (interp svg_only never_throws String_prim toLowerCase_ascii 3) 0 m1 = Done tt _)
      by (vm_compute; reflexivity)
  end.
  split; [exact H1 | split; [exact H3 | ]].
  apply (disposal_calls_cleanup_each_time svg_only never_throws String_prim toLowerCase_ascii
           3 0 3 0 with_cleanup _ _ _ _ [] _ _ eq_refl eq_refl eq_refl H1 eq_refl H3).
Defined.

(** * Runs taken as a whole *)

(** ** What brings a call about *)

Lemma steps_effects_length m t m' :
  steps m t m' -> length (effects m) <= length (effects m').
Proof.
  intros H. destruct (decide (length (effects m) <= length (effects m'))); [done | ].
  destruct (lookup_lt_is_Some_2 (effects m) (length (effects m'))) as [c Hc]; [lia | ].
  destruct (steps_effects _ _ _ _ _ H Hc) as (c' & Hc' & _).
  apply lookup_lt_Some in Hc'. lia.
Qed.

Lemma added_refl m : added m m = [].
Proof. unfold added. by rewrite drop_all. Qed.

Lemma cause_l m m1 m2 ev :
  reaches m m1 -> reaches m1 m2 -> cause m m1 ev -> cause m m2 ev.
Proof.
  intros H1 H2. rewrite (added_trans _ _ _ H1 H2 : added m m2 = _) || idtac.
  pose proof (added_trans _ _ _ H1 H2) as Ha.
  destruct ev; simpl; rewrite ?Ha; try done.
  - intros [(s & v & Hs & Ho)|?]; [left | by right].
    exists s, v. split; [apply elem_of_app; by left | ].
    destruct (steps_observers_prefix _ _ _ s (reaches_steps _ _ H2)) as [k ->].
    apply elem_of_app. by left.
  - intros ?. apply elem_of_app. by left.
  - intros [?|?]; [left | right]; apply elem_of_app; by left.
Qed.

Lemma cause_r m m1 m2 ev :
  reaches m m1 -> reaches m1 m2 -> cause m1 m2 ev -> cause m m2 ev.
Proof.
  intros H1 H2. pose proof (added_trans _ _ _ H1 H2) as Ha.
  destruct ev; simpl; rewrite ?Ha; try done.
  - intros [(s & v & Hs & Ho)|(e & -> & He)]; [left | right].
    + exists s, v. split; [apply elem_of_app; by right | done].
    + exists e. split; [done | ].
      pose proof (steps_effects_length _ _ _ (reaches_steps _ _ H1)). lia.
  - intros ?. apply elem_of_app. by right.
  - intros [?|?]; [left | right]; apply elem_of_app; by right.
Qed.

Lemma caused_seq X1 X2 X m m1 m2 :
  caused X1 m m1 -> caused X2 m1 m2 ->
  (forall ev, X1 ev -> ev ∈ added m m1 -> X ev \/ cause m m2 ev) ->
  (forall ev, X2 ev -> ev ∈ added m1 m2 -> X ev \/ cause m m2 ev) ->
  caused X m m2.
Proof.
  intros [Hr1 Hc1] [Hr2 Hc2] HX1 HX2. split; [by etrans | ].
  intros ev. rewrite (added_trans _ _ _ Hr1 Hr2). intros [Hev|Hev]%elem_of_app.
  - destruct (Hc1 ev Hev) as [?|?]; [by apply HX1 | right; by eapply cause_l].
  - destruct (Hc2 ev Hev) as [?|?]; [by apply HX2 | right; by eapply cause_r].
Qed.

Lemma caused_preorder X : PreOrder (caused X).
Proof.
  split.
  - intros m. split; [reflexivity | ]. rewrite added_refl. by intros ev ?%elem_of_nil.
  - intros m1 m2 m3 H1 H2. eapply caused_seq; eauto.
Qed.

#[global] Existing Instance caused_preorder.

Lemma caused_discharge X X' m m' :
  caused X m m' ->
  (forall ev, X ev -> ev ∈ added m m' -> X' ev \/ cause m m' ev) ->
  caused X' m m'.
Proof.
  intros [Hr Hc] HX. split; [done | ]. intros ev Hev.
  destruct (Hc ev Hev); auto.
Qed.

Lemma caused_weaken X X' m m' :
  (forall ev, X ev -> X' ev) -> caused X m m' -> caused X' m m'.
Proof. intros HX H. eapply caused_discharge; eauto. Qed.

Lemma respects_weaken {A} X X' (c : M A) :
  (forall ev, X ev -> X' ev) -> respects (caused X) c -> respects (caused X') c.
Proof.
  intros HX H m. specialize (H m). destruct (c m); eauto using caused_weaken.
Qed.

Lemma caused_silent X m m' : prim_step m [] m' -> caused X m m'.
Proof.
  intros H. split; [by eapply reaches_one | ].
  rewrite (added_eq m m' []); [by intros ev ?%elem_of_nil | ].
  by rewrite (prim_step_trace _ _ _ H).
Qed.

Lemma added_log ev m : added m (log ev m) = [ev].
Proof. by apply added_eq. Qed.

Lemma caused_log X ev m :
  quiet ev -> X ev \/ cause m (log ev m) ev -> caused X m (log ev m).
Proof.
  intros Hq H. split; [by apply reaches_quiet | ].
  rewrite added_log. by intros ? ->%list_elem_of_singleton.
Qed.

Lemma caused_get X s v m m1 :
  accessor s m = Some (v, m1) -> caused X m (log (EvGet s v (Observer m)) m1).
Proof.
  intros H. split; [by eapply reaches_one, ps_get | ].
  intros ev Hev. right.
  assert (added m (log (EvGet s v (Observer m)) m1) = [EvGet s v (Observer m)]) as Ha.
  { apply added_eq. apply (prim_step_trace _ _ _ (ps_get _ _ _ _ H)). }
  rewrite Ha in Hev. by apply list_elem_of_singleton in Hev as ->.
Qed.

Lemma caused_set X s v m :
  is_Some (signals m !! s) -> caused X m (store s v (log (EvSet s v) m)).
Proof.
  intros H. split; [by eapply reaches_one, ps_set | ].
  intros ev Hev. right.
  assert (added m (store s v (log (EvSet s v) m)) = [EvSet s v]) as Ha by by apply added_eq.
  rewrite Ha in Hev. by apply list_elem_of_singleton in Hev as ->.
Qed.

Lemma first_added ev m m' : reaches (log ev m) m' -> ev ∈ added m m'.
Proof. intros H. by apply (in_added m m). Qed.

Section Caused.
Variable X : event -> Prop.

Lemma eval_caused e : respects (caused X) (eval e).
Proof. apply (respects_eval (caused X)). intros. by apply caused_get. Qed.

Lemma resolve_caused raw : respects (caused X) (resolve raw).
Proof. apply (respects_resolve (caused X)). intros. by apply caused_get. Qed.

Lemma dom_caused dt d : respects (caused X) (dom dt d).
Proof. intros m. unfold dom. destruct (dt _ _); (apply caused_log; [exact I | right; exact I]). Qed.

Lemma dom_new_caused dt d ns : respects (caused X) (dom_new dt d ns).
Proof.
  unfold dom_new. apply (respects_bind (caused X)); [apply dom_caused | intros _].
  apply (respects_bind (caused X)); [apply (respects_gets (caused X)) | intros n].
  apply (respects_bind (caused X)); [ | intros _; apply (respects_ret (caused X))].
  apply (respects_modify (caused X)). intros m. eapply caused_silent, ps_node.
Qed.

Lemma setOrRemoveAttr_caused dt str ns el key raw :
  respects (caused X) (setOrRemoveAttr dt str ns el key raw).
Proof.
  unfold setOrRemoveAttr.
  apply (respects_bind (caused X)); [apply resolve_caused | intros v].
  apply (respects_bind (caused X)); [apply (respects_gets (caused X)) | intros elementNS].
  destruct (removes v).
  - apply (respects_catch (caused X)); [ | apply (respects_ret (caused X))].
    repeat case_match;
      repeat (apply (respects_bind (caused X)); [ | intros _]); apply dom_caused.
  - apply (respects_catch (caused X)); apply dom_caused.
Qed.
End Caused.

Section CausedRec.
Variable namespaceElements : string -> option string.
Variable dom_throws : list event -> domcall -> bool.
Variable String_ : jsval -> string.
Variable toLowerCase : string -> string.
Variable rec : request -> M unit.
Hypothesis rec_caused : forall r m,
  match rec r m with
  | Done _ m' | Thrown m' => caused (allowed r m') m m'
  | OutOfFuel => True
  end.

Lemma rec_run X c : respects (caused X) (rec (Run c)).
Proof.
  intros m. pose proof (rec_caused (Run c) m) as H.
  destruct (rec (Run c) m); [ | | done]; by eapply caused_weaken; [ | exact H].
Qed.

Lemma rec_add X p c : respects (caused X) (rec (AddChild p c)).
Proof.
  intros m. pose proof (rec_caused (AddChild p c) m) as H.
  destruct (rec (AddChild p c) m); [ | | done]; by eapply caused_weaken; [ | exact H].
Qed.

Lemma run_cleanup_caused X e :
  X (EvCleanup e) -> respects (caused X) (run_cleanup rec e).
Proof.
  intros HX. unfold run_cleanup.
  apply (respects_bind (caused X)); [apply (respects_the_effect (caused X)) | intros c].
  destruct (cleanup c).
  - apply (respects_ret (caused X)).
  - apply (respects_bind (caused X)); [ | intros _; apply rec_run].
    apply (respects_modify (caused X)). intros m. apply caused_log; by auto.
  - apply (respects_throw (caused X)).
Qed.

Lemma run_compute_caused X e :
  X (EvCleanup e) -> X (EvRun e) -> respects (caused X) (run_compute rec e).
Proof.
  intros HX1 HX2. unfold run_compute.
  apply (respects_finally (caused X)); [ | intros m; eapply caused_silent, ps_observer].
  apply (respects_bind (caused X)); [by apply run_cleanup_caused | intros _].
  apply (respects_bind (caused X)); [apply (respects_the_effect (caused X)) | intros c].
  apply (respects_bind (caused X)); [ | intros _].
  { apply (respects_modify (caused X)). intros m. eapply caused_silent, ps_observer. }
  apply (respects_bind (caused X)); [ | intros _].
  { apply (respects_modify (caused X)). intros m. apply caused_log; by auto. }
  apply (respects_bind (caused X)); [apply rec_run | intros _].
  apply (respects_modify (caused X)). intros m. eapply caused_silent, ps_cleanup.
Qed.

Lemma call_caused o : respects (caused (eq (EvCall o))) (call rec o).
Proof.
  set (X := fun ev => ev = EvCall o \/
              exists e, o = Compute e /\ (ev = EvRun e \/ ev = EvCleanup e)).
  set (k := match o with Compute e => run_compute rec e | Noop _ _ => ret tt end).
  assert (Hk : respects (caused X) k).
  { destruct o as [e|e n]; [ | apply (respects_ret (caused X))].
    apply run_compute_caused; right; eauto. }
  intros m. change (call rec o m) with (k (log (EvCall o) m)).
  specialize (Hk (log (EvCall o) m)).
  assert (forall m', caused X (log (EvCall o) m) m' -> caused (eq (EvCall o)) m m') as Hd.
  { intros m' H. pose proof (first_added _ _ _ (proj1 H)) as Hin.
    eapply (caused_seq X X); [apply (caused_log X (EvCall o)); [exact I | left; by left] | exact H | | ];
      (intros ev [->|(e & He & [->| ->])] _; [by left | subst o; right; simpl; auto..]). }
  destruct (k (log (EvCall o) m)); auto.
Qed.

Lemma notify_caused s i m :
  match notify rec s i m with
  | Done _ m' | Thrown m' => caused (notified s m') m m'
  | OutOfFuel => True
  end.
Proof.
  unfold notify. destruct (observers_of m s !! i) as [o|] eqn:E; [ | reflexivity].
  apply list_elem_of_lookup_2 in E.
  assert (forall m', reaches m m' -> notified s m' (EvCall o)) as Hn.
  { intros m' Hr. exists o. split; [done | ].
    destruct (steps_observers_prefix _ _ _ s (reaches_steps _ _ Hr)) as [k ->].
    apply elem_of_app. by left. }
  unfold bind. pose proof (call_caused o m) as H1.
  destruct (call rec o m) as [[] m1|m1|]; [ | | done].
  - pose proof (rec_caused (Notify s (S i)) m1) as H2.
    destruct (rec (Notify s (S i)) m1) as [[] m'|m'|]; [ | | done].
    + eapply caused_seq; [exact H1 | exact H2 | | by auto].
      intros ev <- _. left. apply Hn. etrans; [apply H1 | apply H2].
    + eapply caused_seq; [exact H1 | exact H2 | | by auto].
      intros ev <- _. left. apply Hn. etrans; [apply H1 | apply H2].
  - eapply caused_discharge; [exact H1 | ]. intros ev <- _. left. apply Hn, H1.
Qed.

Lemma setter_caused X s v : respects (caused X) (setter rec s v).
Proof.
  intros m. rewrite setter_unfold. destruct (signals m !! s) eqn:E; [ | reflexivity].
  pose proof (notify_caused s 0 (store s v (log (EvSet s v) m))) as H.
  assert (caused X m (store s v (log (EvSet s v) m))) as H0 by (apply caused_set; eauto).
  assert (forall m', caused (notified s m') (store s v (log (EvSet s v) m)) m' ->
                     caused X m m') as Hd.
  { intros m' H'. eapply caused_seq; [exact H0 | exact H' | by auto | ].
    intros ev (o & -> & Ho) _. right. left. exists s, v. split; [ | done].
    rewrite (added_trans _ _ _ (proj1 H0) (proj1 H')). apply elem_of_app. left.
    rewrite (added_eq m _ [EvSet s v]) by done. by apply list_elem_of_singleton. }
  destruct (notify rec s 0 _); auto.
Qed.

Lemma effect_caused X body r : respects (caused X) (effect rec body r).
Proof.
  intros m. rewrite effect_unfold. unfold bind.
  set (m0 := set_effects _ m).
  assert (caused X m m0) as H0 by (eapply caused_silent, ps_effect).
  pose proof (call_caused (Compute (length (effects m))) m0) as H.
  assert (forall m', caused (eq (EvCall (Compute (length (effects m))))) m0 m' ->
                     caused X m m') as Hd.
  { intros m' H'. eapply caused_seq; [exact H0 | exact H' | by auto | ].
    intros ev <- _. right. right. eauto. }
  destruct (call rec _ m0) as [[] m'|m'|]; simpl; auto.
Qed.

Lemma disposer_caused X e : respects (caused X) (disposer rec e).
Proof.
  set (X' := fun ev => X ev \/ ev = EvCleanup e).
  set (k := run_cleanup rec e ;;; modify (reset_compute e)).
  assert (Hk : respects (caused X') k).
  { apply (respects_bind (caused X')); [apply run_cleanup_caused; by right | intros _].
    apply (respects_modify (caused X')). intros m. eapply caused_silent, ps_reset. }
  intros m. change (disposer rec e m) with (k (log (EvDispose e) m)).
  specialize (Hk (log (EvDispose e) m)).
  assert (forall m', caused X' (log (EvDispose e) m) m' -> caused X m m') as Hd.
  { intros m' H. pose proof (first_added _ _ _ (proj1 H)) as Hin.
    eapply (caused_seq X X');
      [apply (caused_log X (EvDispose e)); [exact I | right; exact I] | exact H | by auto | ].
    intros ev [?| ->] _; [by left | ]. right. simpl. by right. }
  destruct (k (log (EvDispose e) m)); auto.
Qed.

Lemma add_caused X parent child :
  respects (caused X) (add dom_throws String_ rec parent child).
Proof.
  destruct child as [p|f|n|l|l]; simpl.
  - destruct p; try apply (respects_ret (caused X));
      (apply (respects_bind (caused X)); [apply dom_new_caused | intros; apply dom_caused]).
  - apply (respects_bind (caused X)); [apply dom_new_caused | intros tn].
    apply (respects_bind (caused X)); [apply effect_caused | intros; apply dom_caused].
  - apply dom_caused.
  - apply (respects_forEach (caused X)). intros. apply rec_add.
  - apply (respects_ret (caused X)).
Qed.

Lemma bind_prop_caused X el kv :
  respects (caused X) (bind_prop dom_throws String_ toLowerCase rec el kv).
Proof.
  unfold bind_prop. destruct (String.prefix "on" (fst kv)).
  - destruct (is_function (snd kv)).
    + apply (respects_bind (caused X)); [apply dom_caused | intros; apply dom_caused].
    + apply (respects_modify (caused X)). intros m.
      apply caused_log; [exact I | right; exact I].
  - apply (respects_bind (caused X)); [apply (respects_gets (caused X)) | intros a].
    apply (respects_bind (caused X));
      [apply effect_caused | intros; apply (respects_ret (caused X))].
Qed.

Lemma createElement_caused X tag first children :
  respects (caused X)
    (createElement namespaceElements dom_throws String_ toLowerCase rec tag first children).
Proof.
  unfold createElement. apply (respects_bind (caused X)).
  { destruct (nonempty _); apply dom_new_caused. }
  intros el. apply (respects_bind (caused X)).
  { destruct (is_props first); [ | apply (respects_ret (caused X))].
    apply (respects_forEach (caused X)), bind_prop_caused. }
  intros _. apply (respects_bind (caused X)).
  { destruct (is_child first); [apply add_caused | apply (respects_ret (caused X))]. }
  intros _. apply (respects_bind (caused X)); [ | intros; apply (respects_ret (caused X))].
  apply (respects_forEach (caused X)), add_caused.
Qed.

Lemma step_caused X a :
  respects (caused X) (step namespaceElements dom_throws String_ toLowerCase rec a).
Proof.
  destruct a; simpl.
  - apply (respects_bind (caused X));
      [apply eval_caused | intros; apply (respects_ret (caused X))].
  - apply (respects_bind (caused X)); [apply eval_caused | intros; apply setter_caused].
  - apply (respects_throw (caused X)).
  - apply (respects_bind (caused X)); [apply eval_caused | intros; apply rec_run].
  - apply (respects_bind (caused X)); [apply eval_caused | intros v].
    apply (respects_modify (caused X)). intros m. eapply caused_silent, ps_signal.
  - apply (respects_bind (caused X));
      [apply effect_caused | intros; apply (respects_ret (caused X))].
  - apply disposer_caused.
  - apply setOrRemoveAttr_caused.
  - apply (respects_bind (caused X)); [apply eval_caused | intros; apply dom_caused].
  - apply (respects_bind (caused X));
      [apply createElement_caused | intros; apply (respects_ret (caused X))].
  - apply add_caused.
Qed.

Lemma handle_caused r m :
  match handle namespaceElements dom_throws String_ toLowerCase rec r m with
  | Done _ m' | Thrown m' => caused (allowed r m') m m'
  | OutOfFuel => True
  end.
Proof.
  destruct r as [c|s i|p c]; simpl.
  - apply (respects_forEach (caused (fun _ => False))). intros. apply step_caused.
  - apply notify_caused.
  - apply (add_caused (fun _ => False)).
Qed.
End CausedRec.

Lemma interp_caused ns dt str lower fuel r m :
  match interp ns dt str lower fuel r m with
  | Done _ m' | Thrown m' => caused (allowed r m') m m'
  | OutOfFuel => True
  end.
Proof.
  revert r m. induction fuel as [|n IH]; intros r m; [done | ].
  by apply handle_caused.
Qed.

(** What a task does not bring about. *)
Lemma run_not_reentered ns dt str lower fuel c m m' e :
  interp ns dt str lower fuel (Run c) m = Done tt m' \/
  interp ns dt str lower fuel (Run c) m = Thrown m' ->
  (EvCall (Compute e) ∉ added m m') -> (EvDispose e ∉ added m m') ->
  (EvCleanup e ∉ added m m') /\ (EvRun e ∉ added m m').
Proof.
  intros H Hc Hd. pose proof (interp_caused ns dt str lower fuel (Run c) m) as Hk.
  assert (caused (fun _ => False) m m') as [_ Hk'] by (destruct H as [H|H]; by rewrite H in Hk).
  split; intros Hin; destruct (Hk' _ Hin) as [[]|Hx]; simpl in Hx; tauto.
Qed.

(** ** C3: cleanup *)

Section CleanupCalls.
Variable namespaceElements : string -> option string.
Variable dom_throws : list event -> domcall -> bool.
Variable String_ : jsval -> string.
Variable toLowerCase : string -> string.

Local Abbreviation interp' := (interp namespaceElements dom_throws String_ toLowerCase).

(** [compute], read for an effect whose [cleanup] holds a function. *)
Lemma run_compute_with_cleanup fuel e m c body :
  effects m !! e = Some c -> cleanup c = RCleanup body ->
  run_compute (interp' fuel) e m =
    match interp' fuel (Run body) (log (EvCleanup e) m) with
    | Done _ m1 =>
        match interp' fuel (Run (fn c))
                (log (EvRun e) (set_Observer (compute <$> effects m1 !! e) m1)) with
        | Done _ m2 => Done tt (set_Observer None (set_cleanup e (fn_ret c) m2))
        | Thrown m2 => Thrown (set_Observer None m2)
        | OutOfFuel => OutOfFuel
        end
    | Thrown m1 => Thrown (set_Observer None m1)
    | OutOfFuel => OutOfFuel
    end.
Proof.
  intros He Hc. unfold run_compute, finally. unfold bind at 1.
  unfold run_cleanup, bind at 1, the_effect at 1. rewrite He, Hc.
  unfold bind at 1, emit, modify.
  pose proof (interp_rec_reaches namespaceElements dom_throws String_ toLowerCase fuel
                (Run body) (log (EvCleanup e) m)) as Hr.
  destruct (interp' fuel (Run body) (log (EvCleanup e) m)) as [[] m1|m1|]; [ | done..].
  destruct (steps_effects _ _ _ e c (reaches_steps _ _ Hr) He) as (c1 & He1 & Hf & Hret).
  unfold bind at 1, the_effect. rewrite He1. simpl.
  unfold bind at 1. unfold bind at 1. rewrite Hf, Hret.
  unfold bind. by destruct (interp' fuel (Run (fn c)) _) as [[] m2|m2|].
Qed.

Lemma disposer_with_cleanup fuel e m c body :
  effects m !! e = Some c -> cleanup c = RCleanup body ->
  disposer (interp' fuel) e m =
    match interp' fuel (Run body) (log (EvCleanup e) (log (EvDispose e) m)) with
    | Done _ m1 => Done tt (reset_compute e m1)
    | Thrown m1 => Thrown m1
    | OutOfFuel => OutOfFuel
    end.
Proof.
  intros He Hc. unfold disposer. unfold bind at 1, emit at 1, modify at 1.
  unfold bind at 1. unfold run_cleanup, bind at 1, the_effect at 1.
  cbn [effects log]. rewrite He, Hc.
  unfold bind at 1, emit, modify.
  by destruct (interp' fuel (Run body) _) as [[] m1|m1|].
Qed.
End CleanupCalls.

(** C3 fails as stated: the cleanup [() => { if (s() < 2) set(2) }] writes
    the signal its effect reads.  [set(1)] calls [compute], which calls
    the cleanup; the cleanup's write calls [compute] again, which calls the
    same cleanup a second time and then runs the callback; only then does
    the first call of [compute] run the callback.  So the cleanup of the
    first run is called twice before the first re-run, and the cleanup
    that this re-run returns is replaced by the second re-run without
    being called. *)
Lemma reentrant_cleanup_called_twice :
  exists m',
    demo_run 8 reentrant_cleanup init = Done tt m' /\
    trace m' = [EvCall (Compute 0); EvRun 0; EvGet 0 (PNum 0) (Some (Compute 0));
                EvSet 0 (PNum 1);
                EvCall (Compute 0); EvCleanup 0; EvGet 0 (PNum 1) None;
                EvSet 0 (PNum 2);
                EvCall (Compute 0); EvCleanup 0; EvGet 0 (PNum 2) None;
                EvRun 0; EvGet 0 (PNum 2) (Some (Compute 0));
                EvRun 0; EvGet 0 (PNum 2) (Some (Compute 0))].
Proof. eexists. split; [vm_compute; reflexivity | reflexivity]. Qed.

(** C3, amended.  For an effect whose variable [cleanup] holds a function:
    a run of [compute] calls that function first, calls the callback only
    when the cleanup has returned, and stores what the callback returned
    in the variable, in place of what it holds, only when the callback has
    returned; in a run that returns the cleanup is called and the callback
    started exactly once each, in this order, unless the cleanup or the
    callback calls [compute] again or disposes of the effect.  The
    disposer calls the function first and leaves it in the variable; in a
    disposal that returns it is called exactly once unless the cleanup
    calls [compute] or the disposer again. *)
Theorem cleanup_once_before_rerun_and_on_disposal ns dt str lower fuel e m c body :
  effects m !! e = Some c -> cleanup c = RCleanup body ->
  run_compute (interp ns dt str lower fuel) e m =
    match interp ns dt str lower fuel (Run body) (log (EvCleanup e) m) with
    | Done _ m1 =>
        match interp ns dt str lower fuel (Run (fn c))
                (log (EvRun e) (set_Observer (compute <$> effects m1 !! e) m1)) with
        | Done _ m2 => Done tt (set_Observer None (set_cleanup e (fn_ret c) m2))
        | Thrown m2 => Thrown (set_Observer None m2)
        | OutOfFuel => OutOfFuel
        end
    | Thrown m1 => Thrown (set_Observer None m1)
    | OutOfFuel => OutOfFuel
    end /\
  (forall m',
     run_compute (interp ns dt str lower fuel) e m = Done tt m' ->
     cleanup <$> effects m' !! e = Some (fn_ret c) /\
     exists m1 m2 t1 t2,
       interp ns dt str lower fuel (Run body) (log (EvCleanup e) m) = Done tt m1 /\
       t1 = added (log (EvCleanup e) m) m1 /\
       interp ns dt str lower fuel (Run (fn c))
         (log (EvRun e) (set_Observer (compute <$> effects m1 !! e) m1)) = Done tt m2 /\
       t2 = added (log (EvRun e) (set_Observer (compute <$> effects m1 !! e) m1)) m2 /\
       added m m' = EvCleanup e :: t1 ++ EvRun e :: t2 /\
       ((EvCall (Compute e) ∉ t1 ++ t2) -> (EvDispose e ∉ t1 ++ t2) ->
        (EvCleanup e ∉ t1 ++ t2) /\ (EvRun e ∉ t1 ++ t2))) /\
  disposer (interp ns dt str lower fuel) e m =
    match interp ns dt str lower fuel (Run body)
            (log (EvCleanup e) (log (EvDispose e) m)) with
    | Done _ m1 => Done tt (reset_compute e m1)
    | Thrown m1 => Thrown m1
    | OutOfFuel => OutOfFuel
    end /\
  (forall m',
     disposer (interp ns dt str lower fuel) e m = Done tt m' ->
     exists m1 t,
       interp ns dt str lower fuel (Run body)
         (log (EvCleanup e) (log (EvDispose e) m)) = Done tt m1 /\
       t = added (log (EvCleanup e) (log (EvDispose e) m)) m1 /\
       cleanup <$> effects m' !! e = cleanup <$> effects m1 !! e /\
       added m m' = EvDispose e :: EvCleanup e :: t /\
       ((EvCall (Compute e) ∉ t) -> (EvDispose e ∉ t) -> (EvCleanup e ∉ t))).
Proof.
  intros He Hc.
  pose proof (run_compute_with_cleanup ns dt str lower fuel e m c body He Hc) as Hrun.
  pose proof (disposer_with_cleanup ns dt str lower fuel e m c body He Hc) as Hdis.
  split_and!; [exact Hrun | | exact Hdis | ].
  - intros m' H. rewrite Hrun in H.
    destruct (interp ns dt str lower fuel (Run body) (log (EvCleanup e) m))
      as [[] m1|m1|] eqn:H1; [ | done..].
    pose proof (interp_reaches ns dt str lower fuel (Run body) (log (EvCleanup e) m)) as Hr1.
    rewrite H1 in Hr1.
    destruct (steps_effects _ _ _ e c (reaches_steps _ _ Hr1) He) as (c1 & He1 & _ & _).
    rewrite He1 in H. simpl in H.
    destruct (interp ns dt str lower fuel (Run (fn c))
                (log (EvRun e) (set_Observer (Some (compute c1)) m1)))
      as [[] m2|m2|] eqn:H2; [ | done..].
    injection H as <-.
    pose proof (interp_reaches ns dt str lower fuel (Run (fn c))
                  (log (EvRun e) (set_Observer (Some (compute c1)) m1))) as Hr2.
    rewrite H2 in Hr2.
    destruct (steps_effects _ _ _ e c1 (reaches_steps _ _ Hr2) He1) as (c2 & He2 & _ & _).
    split; [by eapply set_cleanup_lookup | ].
    exists m1, m2, (added (log (EvCleanup e) m) m1),
           (added (log (EvRun e) (set_Observer (Some (compute c1)) m1)) m2).
    rewrite He1. simpl. split_and!; [done.. | | ].
    + apply reaches_trace in Hr1, Hr2. simpl in Hr1, Hr2. apply added_eq. simpl.
      rewrite Hr2, Hr1, <- !app_assoc. done.
    + rewrite !elem_of_app. intros Hcall Hdisp.
      destruct (run_not_reentered ns dt str lower fuel _ _ _ e (or_introl H1)); [tauto.. | ].
      destruct (run_not_reentered ns dt str lower fuel _ _ _ e (or_introl H2)); [tauto.. | ].
      tauto.
  - intros m' H. rewrite Hdis in H.
    destruct (interp ns dt str lower fuel (Run body)
                (log (EvCleanup e) (log (EvDispose e) m))) as [[] m1|m1|] eqn:H1; [ | done..].
    injection H as <-.
    pose proof (interp_reaches ns dt str lower fuel (Run body)
                  (log (EvCleanup e) (log (EvDispose e) m))) as Hr1.
    rewrite H1 in Hr1.
    exists m1, (added (log (EvCleanup e) (log (EvDispose e) m)) m1).
    split_and!; [done | done | | | ].
    + simpl. destruct (decide (e < length (effects m1))) as [Hlt|Hge].
      * destruct (lookup_lt_is_Some_2 _ _ Hlt) as [c1 Hc1].
        by rewrite list_lookup_alter_eq, Hc1.
      * rewrite !lookup_ge_None_2; [done | lia | rewrite length_alter; lia].
    + apply reaches_trace in Hr1. simpl in Hr1. apply added_eq. simpl.
      rewrite Hr1, <- !app_assoc. done.
    + intros Hcall Hdisp.
      by destruct (run_not_reentered ns dt str lower fuel _ _ _ e (or_introl H1)).
Qed.

Lemma cleanup_once_before_rerun_and_on_disposal_witness :
  (exists m',
     run_compute (interp svg_only never_throws String_prim toLowerCase_ascii 3) 0 with_cleanup
       = Done tt m' /\
     cleanup <$> effects m' !! 0 = Some (RCleanup [Do (Lit PNull)]) /\
     added with_cleanup m' = [EvCleanup 0; EvRun 0; EvGet 0 (PNum 0) (Some (Compute 0))]) /\
  (exists m',
     disposer (interp svg_only never_throws String_prim toLowerCase_ascii 3) 0 with_cleanup
       = Done tt m' /\
     added with_cleanup m' = [EvDispose 0; EvCleanup 0]).
Proof.
  pose proof (cleanup_once_before_rerun_and_on_disposal
                svg_only never_throws String_prim toLowerCase_ascii 3 0 with_cleanup _ _
                eq_refl eq_refl)
    as (_ & Hrun & _ & Hdisp).
  split.
  - eexists.
    assert (H : run_compute (interp svg_only never_throws String_prim toLowerCase_ascii 3) 0
                  with_cleanup = Done tt _) by (vm_compute; reflexivity).
    destruct (Hrun _ H) as (Hcl & _).
    split; [exact H | split; [exact Hcl | reflexivity]].
  - eexists. split; [vm_compute; reflexivity | reflexivity].
Defined.

(** ** C8: independence of the signals *)




(** ** C7: the props of createElement, one after the other *)

Lemma forEach_at {A} (f : A -> M unit) before x after m :
  forEach f (before ++ x :: after) m =
  match forEach f before m with
  | Done _ m1 => (f x ;;; forEach f after) m1
  | Thrown m1 => Thrown m1
  | OutOfFuel => OutOfFuel
  end.
Proof. rewrite forEach_app. unfold bind at 1. by destruct (forEach f before m). Qed.

Section Props.
Variable namespaceElements : string -> option string.
Variable dom_throws : list event -> domcall -> bool.
Variable String_ : jsval -> string.
Variable toLowerCase : string -> string.
Variable rec : request -> M unit.

Local Abbreviation createElement' :=
  (createElement namespaceElements dom_throws String_ toLowerCase rec).
Local Abbreviation bind_prop' := (bind_prop dom_throws String_ toLowerCase rec).
Local Abbreviation add' := (add dom_throws String_ rec).

(** [createElement] makes the element, then binds the props, then adds
    the children. *)
Lemma createElement_unfold tag first children m :
  createElement' tag first children m =
  if dom_throws (trace m) (creation_call namespaceElements tag)
  then Thrown (log (EvDom (creation_call namespaceElements tag)) m)
  else ((if is_props first
         then forEach (bind_prop' (length (nodes m))) (entries first) else ret tt) ;;;
        (if is_child first then add' (length (nodes m)) first else ret tt) ;;;
        forEach (add' (length (nodes m))) children ;;;
        ret (length (nodes m))) (created namespaceElements tag m).
Proof.
  unfold createElement, created, creation_call, created_namespace.
  unfold bind at 1.
  destruct (nonempty (namespaceElements tag)) as [u|];
    unfold dom_new, bind at 1, dom; destruct (dom_throws _ _); reflexivity.
Qed.

(** A call of [createElement] on an object of props, taken apart at one
    of the props. *)
Lemma createElement_at tag first children before kv after m :
  is_props first = true ->
  entries first = before ++ kv :: after ->
  createElement' tag first children m =
  if dom_throws (trace m) (creation_call namespaceElements tag)
  then Thrown (log (EvDom (creation_call namespaceElements tag)) m)
  else match forEach (bind_prop' (length (nodes m))) before
               (created namespaceElements tag m) with
       | Done _ m1 =>
           (bind_prop' (length (nodes m)) kv ;;;
            forEach (bind_prop' (length (nodes m))) after ;;;
            (if is_child first then add' (length (nodes m)) first else ret tt) ;;;
            forEach (add' (length (nodes m))) children ;;;
            ret (length (nodes m))) m1
       | Thrown m1 => Thrown m1
       | OutOfFuel => OutOfFuel
       end.
Proof.
  intros Hp He. rewrite createElement_unfold, Hp, He.
  destruct (dom_throws _ _); [done | ].
  unfold bind at 1. rewrite forEach_at.
  destruct (forEach _ before _) as [[] m1|m1|]; [ | done..].
  unfold bind. destruct (bind_prop' _ kv m1) as [[] m2|m2|]; [ | done..].
  by destruct (forEach _ after m2) as [[] m3|m3|].
Qed.
End Props.

Section PropsRun.
Variable namespaceElements : string -> option string.
Variable dom_throws : list event -> domcall -> bool.
Variable String_ : jsval -> string.
Variable toLowerCase : string -> string.

Local Abbreviation interp' := (interp namespaceElements dom_throws String_ toLowerCase).

Lemma reaches_created tag m : reaches m (created namespaceElements tag m).
Proof.
  unfold created.
  etrans; [apply (reaches_quiet (EvDom (creation_call namespaceElements tag))); exact I | ].
  exact (reaches_one _ _ _
           (ps_node (created_namespace namespaceElements tag)
              (log (EvDom (creation_call namespaceElements tag)) m))).
Qed.

Lemma reaches_props fuel el l :
  respects reaches (forEach (bind_prop dom_throws String_ toLowerCase (interp' fuel) el) l).
Proof.
  intros m.
  pose proof (respects_forEach (caused (fun _ => False)) _ l
                (bind_prop_caused dom_throws String_ toLowerCase (interp' fuel)
                   (interp_caused namespaceElements dom_throws String_ toLowerCase fuel)
                   (fun _ => False) el) m) as H.
  match goal with |- match ?c with _ => _ end => destruct c end; [apply H | apply H | done].
Qed.

Lemma reaches_add fuel el child :
  respects reaches (add dom_throws String_ (interp' fuel) el child).
Proof.
  intros m.
  pose proof (add_caused dom_throws String_ (interp' fuel)
                (interp_caused namespaceElements dom_throws String_ toLowerCase fuel)
                (fun _ => False) el child m) as H.
  match goal with |- match ?c with _ => _ end => destruct c end; [apply H | apply H | done].
Qed.

(** What follows a prop in [createElement]. *)
Lemma reaches_rest fuel el after first children :
  respects reaches
    (forEach (bind_prop dom_throws String_ toLowerCase (interp' fuel) el) after ;;;
     (if is_child first then add dom_throws String_ (interp' fuel) el first else ret tt) ;;;
     forEach (add dom_throws String_ (interp' fuel) el) children ;;;
     ret el).
Proof.
  apply (respects_bind reaches); [apply reaches_props | intros _].
  apply (respects_bind reaches).
  { destruct (is_child first); [apply reaches_add | apply (respects_ret reaches)]. }
  intros _. apply (respects_bind reaches); [ | intros _; apply (respects_ret reaches)].
  apply (respects_forEach reaches). intros x. apply reaches_add.
Qed.
End PropsRun.

(** C7 fails as stated: the attribute name "a b" makes [setAttributeNS] and
    then [setAttribute] throw; the effect of that prop throws, and so does
    [createElement], before it gets to [onclick]: no warning is logged for
    it. *)
Lemma earlier_prop_throws_no_warning :
  exists m',
    createElement svg_only invalid_name_throws String_prim toLowerCase_ascii
      (interp svg_only invalid_name_throws String_prim toLowerCase_ascii 3) "div"
      (VObj [("a b", VPrim (PStr "x")); ("onclick", VPrim (PStr "oops"))]) [] init
      = Thrown m' /\
    trace m' = [EvDom (createElement_ "div");
                EvCall (Compute 0); EvRun 0;
                EvDom (setAttributeNS 0 None "a b" "x");
                EvDom (setAttribute 0 "a b" "x")].
Proof. eexists. split; [vm_compute; reflexivity | reflexivity]. Qed.

(** C7, amended: for a prop whose key starts with "on" and whose value is
    not a function, once [createElement] has made the element and bound
    the props before it, as it has in every call that returns, the
    warning is logged and nothing else is done for the prop: the call goes
    on with the props after it and the children, in the machine that the
    props before it left, the warning added.  When making the element or
    binding an earlier prop throws, the call throws there. *)
Theorem malformed_handler_skipped
    ns dt str lower fuel tag first children before key v after m :
  is_props first = true ->
  entries first = before ++ (key, v) :: after ->
  String.prefix "on" key = true ->
  is_function v = false ->
  (forall m1,
     dt (trace m) (creation_call ns tag) = false ->
     forEach (bind_prop dt str lower (interp ns dt str lower fuel) (length (nodes m)))
       before (created ns tag m) = Done tt m1 ->
     createElement ns dt str lower (interp ns dt str lower fuel) tag first children m =
       (forEach (bind_prop dt str lower (interp ns dt str lower fuel) (length (nodes m)))
          after ;;;
        (if is_child first
         then add dt str (interp ns dt str lower fuel) (length (nodes m)) first
         else ret tt) ;;;
        forEach (add dt str (interp ns dt str lower fuel) (length (nodes m))) children ;;;
        ret (length (nodes m)))
         (log (EvWarn (warning key (str v))) m1)) /\
  (forall m1,
     dt (trace m) (creation_call ns tag) = false ->
     forEach (bind_prop dt str lower (interp ns dt str lower fuel) (length (nodes m)))
       before (created ns tag m) = Thrown m1 ->
     createElement ns dt str lower (interp ns dt str lower fuel) tag first children m =
       Thrown m1) /\
  (dt (trace m) (creation_call ns tag) = true ->
   createElement ns dt str lower (interp ns dt str lower fuel) tag first children m =
     Thrown (log (EvDom (creation_call ns tag)) m)) /\
  (forall el m',
     createElement ns dt str lower (interp ns dt str lower fuel) tag first children m =
       Done el m' ->
     dt (trace m) (creation_call ns tag) = false /\
     (exists m1,
        forEach (bind_prop dt str lower (interp ns dt str lower fuel) (length (nodes m)))
          before (created ns tag m) = Done tt m1) /\
     EvWarn (warning key (str v)) ∈ added m m').
Proof.
  intros Hp He Hon Hfun.
  pose proof (createElement_at ns dt str lower (interp ns dt str lower fuel) tag first children
                before (key, v) after m Hp He) as Hat.
  assert (Hw : forall m0, bind_prop dt str lower (interp ns dt str lower fuel)
                            (length (nodes m)) (key, v) m0 =
                          Done tt (log (EvWarn (warning key (str v))) m0)).
  { intros m0. unfold bind_prop. simpl. by rewrite Hon, Hfun. }
  assert (Hgo : forall m1,
            dt (trace m) (creation_call ns tag) = false ->
            forEach (bind_prop dt str lower (interp ns dt str lower fuel) (length (nodes m)))
              before (created ns tag m) = Done tt m1 ->
            createElement ns dt str lower (interp ns dt str lower fuel) tag first children m =
              (forEach (bind_prop dt str lower (interp ns dt str lower fuel)
                          (length (nodes m))) after ;;;
               (if is_child first
                then add dt str (interp ns dt str lower fuel) (length (nodes m)) first
                else ret tt) ;;;
               forEach (add dt str (interp ns dt str lower fuel) (length (nodes m)))
                 children ;;;
               ret (length (nodes m)))
                (log (EvWarn (warning key (str v))) m1)).
  { intros m1 Hd Hb. rewrite Hat, Hd, Hb. unfold bind at 1. by rewrite Hw. }
  split_and!.
  - exact Hgo.
  - intros m1 Hd Hb. by rewrite Hat, Hd, Hb.
  - intros Hd. by rewrite Hat, Hd.
  - intros el m' H.
    destruct (dt (trace m) (creation_call ns tag)) eqn:Hd; [by rewrite Hat in H | ].
    destruct (forEach (bind_prop dt str lower (interp ns dt str lower fuel) (length (nodes m)))
                before (created ns tag m)) as [[] m1|m1|] eqn:Hb;
      [ | by rewrite Hat in H..].
    split; [done | ]. split; [by eauto | ].
    rewrite (Hgo m1 eq_refl eq_refl) in H.
    pose proof (reaches_rest ns dt str lower fuel (length (nodes m)) after first children
                  (log (EvWarn (warning key (str v))) m1)) as Hr.
    rewrite H in Hr.
    apply (in_added m m1); [ | exact Hr].
    etrans; [apply (reaches_created ns tag) | ].
    pose proof (reaches_props ns dt str lower fuel (length (nodes m)) before
                  (created ns tag m)) as Hr1.
    by rewrite Hb in Hr1.
Qed.

Lemma malformed_handler_skipped_witness :
  exists el m',
    createElement svg_only never_throws String_prim toLowerCase_ascii
      (interp svg_only never_throws String_prim toLowerCase_ascii 3) "div"
      (VObj [("title", VPrim (PStr "t")); ("onclick", VPrim (PNum 3)); ("id", VPrim (PStr "i"))])
      [] init = Done el m' /\
    EvWarn (warning "onclick" "3") ∈ added init m'.
Proof.
  eexists. eexists.
  assert (H : createElement svg_only never_throws String_prim toLowerCase_ascii
                (interp svg_only never_throws String_prim toLowerCase_ascii 3) "div"
                (VObj [("title", VPrim (PStr "t")); ("onclick", VPrim (PNum 3));
                       ("id", VPrim (PStr "i"))])
                [] init = Done _ _) by (vm_compute; reflexivity).
  split; [exact H | ].
  apply (malformed_handler_skipped svg_only never_throws String_prim toLowerCase_ascii 3 "div"
           (VObj [("title", VPrim (PStr "t")); ("onclick", VPrim (PNum 3));
                  ("id", VPrim (PStr "i"))])
           [] [("title", VPrim (PStr "t"))] "onclick" (VPrim (PNum 3))
           [("id", VPrim (PStr "i"))] init eq_refl eq_refl eq_refl eq_refl) in H.
  exact (proj2 (proj2 H)).
Defined.

(** ** Event handler props *)

Lemma forEach_ext_at {A} (f : A -> M unit) before x y after m :
  (forall m0, f x m0 = f y m0) ->
  forEach f (before ++ x :: after) m = forEach f (before ++ y :: after) m.
Proof.
  intros H. rewrite !forEach_at. destruct (forEach f before m) as [[] m1|m1|]; [ | done..].
  unfold bind. by rewrite H.
Qed.

(** X2: a prop of [createElement] whose key is "on" followed by a name and
    whose value is a function is bound, once the element is made and the
    props before it are bound, by [removeEventListener] and then
    [addEventListener] on the lower-cased name, and nothing else is done
    for it; so two keys whose names have the same lower-casing give the same
    call. *)
Theorem event_key_case_insensitive
    ns dt str lower rec tag before name h after children m :
  (forall m1,
     dt (trace m) (creation_call ns tag) = false ->
     forEach (bind_prop dt str lower rec (length (nodes m))) before (created ns tag m)
       = Done tt m1 ->
     createElement ns dt str lower rec tag
       (VObj (before ++ (("on" ++ name)%string, VFun h) :: after)) children m =
       (dom dt (removeEventListener (length (nodes m)) (lower name) (VFun h)) ;;;
        dom dt (addEventListener (length (nodes m)) (lower name) (VFun h)) ;;;
        forEach (bind_prop dt str lower rec (length (nodes m))) after ;;;
        forEach (add dt str rec (length (nodes m))) children ;;;
        ret (length (nodes m))) m1) /\
  (forall name',
     lower name' = lower name ->
     createElement ns dt str lower rec tag
       (VObj (before ++ (("on" ++ name')%string, VFun h) :: after)) children m =
     createElement ns dt str lower rec tag
       (VObj (before ++ (("on" ++ name)%string, VFun h) :: after)) children m).
Proof.
  assert (H : forall n el m0,
            bind_prop dt str lower rec el (("on" ++ n)%string, VFun h) m0 =
            (dom dt (removeEventListener el (lower n) (VFun h)) ;;;
             dom dt (addEventListener el (lower n) (VFun h))) m0).
  { intros n el m0. unfold bind_prop. cbn [fst snd is_function].
    by rewrite prefix_on, slice2_on. }
  split.
  - intros m1 Hd Hb.
    rewrite (createElement_at ns dt str lower rec tag
               (VObj (before ++ (("on" ++ name)%string, VFun h) :: after)) children before
               (("on" ++ name)%string, VFun h) after m eq_refl eq_refl), Hd, Hb.
    unfold bind at 1. rewrite H. unfold bind.
    destruct (dom dt (removeEventListener _ _ _) m1) as [[] m2|m2|]; [ | done..].
    destruct (dom dt (addEventListener _ _ _) m2) as [[] m3|m3|]; [ | done..].
    by destruct (forEach _ after m3) as [[] m4|m4|].
  - intros name' Hl. rewrite !createElement_unfold. cbn [is_props entries is_child].
    destruct (dt _ _); [done | ]. unfold bind at 1 5.
    rewrite (forEach_ext_at _ before (("on" ++ name')%string, VFun h)
               (("on" ++ name)%string, VFun h)); [done | ].
    intros m0. by rewrite !H, Hl.
Qed.

Lemma event_key_case_insensitive_witness :
  createElement svg_only never_throws String_prim toLowerCase_ascii
    (interp svg_only never_throws String_prim toLowerCase_ascii 3) "button"
    (VObj ([("id", VPrim (PStr "b"))] ++ (("on" ++ "Click")%string, VFun (Lit PNull)) :: []))
    [] init =
  createElement svg_only never_throws String_prim toLowerCase_ascii
    (interp svg_only never_throws String_prim toLowerCase_ascii 3) "button"
    (VObj ([("id", VPrim (PStr "b"))] ++ (("on" ++ "click")%string, VFun (Lit PNull)) :: []))
    [] init.
Proof.
  apply (proj2 (event_key_case_insensitive svg_only never_throws String_prim
                  toLowerCase_ascii
                  (interp svg_only never_throws String_prim toLowerCase_ascii 3) "button"
                  [("id", VPrim (PStr "b"))] "click" (Lit PNull) [] [] init)).
  reflexivity.
Defined.

(** ** effect, at its first run *)

Lemma effect_first_events ns dt str lower fuel body r m e m' :
  effect (interp ns dt str lower fuel) body r m = Done e m' ->
  e = length (effects m) /\
  exists m2,
    interp ns dt str lower fuel (Run body) (first_run_start body r m) = Done tt m2 /\
    m' = set_Observer None (set_cleanup e r m2) /\
    added m m' = EvCall (Compute e) :: EvRun e :: added (first_run_start body r m) m2 /\
    exists c, effects m' !! e = Some c /\ fn c = body /\ fn_ret c = r /\ cleanup c = r.
Proof.
  intros (-> & m2 & Hrun & ->)%effect_Done. split; [done | ].
  exists m2.
  pose proof (interp_reaches ns dt str lower fuel (Run body) (first_run_start body r m)) as Hr.
  rewrite Hrun in Hr. split_and!; [done | done | | ].
  - apply reaches_trace in Hr. apply added_eq.
    change (trace (set_Observer None (set_cleanup (length (effects m)) r m2)))
      with (trace m2).
    rewrite Hr. unfold first_run_start at 1. simpl. by rewrite <- !app_assoc.
  - assert (effects (first_run_start body r m) !! length (effects m)
            = Some (EffectCell body r RVoid (Compute (length (effects m))))) as He.
    { unfold first_run_start. simpl. by rewrite lookup_app_r, Nat.sub_diag. }
    destruct (steps_effects _ _ _ _ _ (reaches_steps _ _ Hr) He) as (c2 & Hc2 & Hf & Hfr).
    simpl in Hf, Hfr. eexists. split.
    + simpl. rewrite list_lookup_alter_eq, Hc2. reflexivity.
    + simpl. done.
Qed.

(** X10: a call [effect(fn)] that returns has allocated a new effect and
    called [fn] at once, with [Observer] set to the effect's [compute] and
    no cleanup before it; it leaves what [fn] returned in [cleanup] and
    [Observer] null.  [fn] is started again before [effect] returns only if
    its own run calls the [compute] of the effect, as it does when it
    writes a signal that it has read. *)
Theorem effect_first_run ns dt str lower fuel body r m e m' :
  effect (interp ns dt str lower fuel) body r m = Done e m' ->
  e = length (effects m) /\
  Observer (first_run_start body r m) = Some (Compute e) /\
  exists m2,
    interp ns dt str lower fuel (Run body) (first_run_start body r m) = Done tt m2 /\
    added m m' = EvCall (Compute e) :: EvRun e :: added (first_run_start body r m) m2 /\
    ((EvCall (Compute e) ∉ added (first_run_start body r m) m2) ->
     (EvRun e ∉ added (first_run_start body r m) m2)) /\
    Observer m' = None /\
    exists c, effects m' !! e = Some c /\ fn c = body /\ fn_ret c = r /\ cleanup c = r.
Proof.
  intros H. pose proof H as (-> & _)%effect_Done.
  apply effect_first_events in H as (_ & m2 & Hrun & -> & Ha & Hc).
  split_and!; [done | done | ]. exists m2. split_and!; [done | done | | done | done].
  intros Hcall Hin.
  pose proof (interp_caused ns dt str lower fuel (Run body) (first_run_start body r m)) as Hk.
  rewrite Hrun in Hk. destruct Hk as [_ Hk].
  destruct (Hk _ Hin) as [[]|Hx]. simpl in Hx. done.
Qed.

Lemma effect_first_run_witness :
  exists m',
    effect (interp svg_only never_throws String_prim toLowerCase_ascii 3) [Do (Read 0)]
      (RCleanup []) one_counter = Done 0 m' /\
    added one_counter m'
      = [EvCall (Compute 0); EvRun 0; EvGet 0 (PNum 0) (Some (Compute 0))] /\
    Observer m' = None.
Proof.
  eexists.
  assert (H : effect (interp svg_only never_throws String_prim toLowerCase_ascii 3)
                [Do (Read 0)] (RCleanup []) one_counter = Done 0 _)
    by (vm_compute; reflexivity).
  destruct (effect_first_run _ _ _ _ _ _ _ _ _ _ H) as (_ & _ & m2 & H2 & Ha & _ & Ho & _).
  split; [exact H | split; [ | exact Ho]].
  rewrite Ha. vm_compute in H2. injection H2 as <-. reflexivity.
Defined.

(** ** What the builder does by itself *)

Lemma quietly_preorder : PreOrder quietly.
Proof.
  split.
  - intros m. split; [reflexivity | ]. rewrite added_refl. constructor.
  - intros m1 m2 m3 [H1 F1] [H2 F2]. split; [by etrans | ].
    rewrite (added_trans _ _ _ H1 H2). by apply Forall_app.
Qed.

#[global] Existing Instance quietly_preorder.

Lemma quietly_log ev m : quiet ev -> outward ev -> quietly m (log ev m).
Proof.
  intros Hq Ho. split; [by apply reaches_quiet | ].
  rewrite added_log. by apply Forall_singleton.
Qed.

Lemma quietly_get s v m m1 :
  accessor s m = Some (v, m1) -> quietly m (log (EvGet s v (Observer m)) m1).
Proof.
  intros H. split; [by eapply reaches_one, ps_get | ].
  rewrite (added_eq m _ [EvGet s v (Observer m)]); [by apply Forall_singleton | ].
  apply (prim_step_trace _ _ _ (ps_get _ _ _ _ H)).
Qed.

Lemma eval_quietly e : respects quietly (eval e).
Proof. apply (respects_eval quietly). intros. by apply quietly_get. Qed.

Lemma resolve_quietly raw : respects quietly (resolve raw).
Proof. apply (respects_resolve quietly). intros. by apply quietly_get. Qed.

Lemma dom_quietly dt d : respects quietly (dom dt d).
Proof. intros m. unfold dom. destruct (dt _ _); by apply quietly_log. Qed.

(** [setOrRemoveAttr] once the value is known. *)
Lemma set_or_remove_quietly dt str ns el key v :
  respects quietly
    (elementNS <- gets (fun m => element_namespace ns m el) ;;
     if removes v then
       catch
         (match attr_namespace elementNS key with
          | Some u =>
              if String.eqb u "null"
              then dom dt (removeAttribute el key) ;;;
                   dom dt (removeAttribute el (strip_prefix key))
              else dom dt (removeAttributeNS el u (strip_prefix key))
          | None =>
              dom dt (removeAttribute el key) ;;;
              dom dt (removeAttribute el (strip_prefix key))
          end)
         (ret tt)
     else
       catch (dom dt (setAttributeNS el (attr_namespace elementNS key) key
                        (attr_text str key v)))
             (dom dt (setAttribute el key (attr_text str key v)))).
Proof.
  apply (respects_bind quietly); [apply (respects_gets quietly) | intros elementNS].
  destruct (removes v).
  - apply (respects_catch quietly); [ | apply (respects_ret quietly)].
    repeat case_match;
      repeat (apply (respects_bind quietly); [ | intros _]); apply dom_quietly.
  - apply (respects_catch quietly); apply dom_quietly.
Qed.

Lemma setOrRemoveAttr_quietly dt str ns el key raw :
  respects quietly (setOrRemoveAttr dt str ns el key raw).
Proof.
  unfold setOrRemoveAttr.
  apply (respects_bind quietly); [apply resolve_quietly | intros v].
  apply set_or_remove_quietly.
Qed.

Lemma outward_not_set t s v : Forall outward t -> EvSet s v ∉ t.
Proof. intros H Hin. rewrite Forall_forall in H. apply (H _ Hin). Qed.

Lemma outward_not_run t e : Forall outward t -> EvRun e ∉ t.
Proof. intros H Hin. rewrite Forall_forall in H. apply (H _ Hin). Qed.

Section Built.
Variable namespaceElements : string -> option string.
Variable dom_throws : list event -> domcall -> bool.
Variable String_ : jsval -> string.
Variable toLowerCase : string -> string.

Local Abbreviation interp' := (interp namespaceElements dom_throws String_ toLowerCase).

Lemma binding_run_quietly fuel body :
  is_binding body -> respects quietly (interp' fuel (Run body)).
Proof.
  intros Hb. destruct fuel as [|n]; [by intros m | ].
  destruct Hb as [(ns & el & key & v & ->)|(n' & f & ->)]; simpl.
  - apply (respects_bind quietly); [ | intros; apply (respects_ret quietly)].
    apply setOrRemoveAttr_quietly.
  - apply (respects_bind quietly); [ | intros; apply (respects_ret quietly)].
    apply (respects_bind quietly); [apply eval_quietly | intros; apply dom_quietly].
Qed.

(** The callback of a binding registers [Observer] with the signals that
    its accessor reads. *)
Lemma binding_registers fuel body m m' o s :
  is_binding body ->
  interp' fuel (Run body) m = Done tt m' ->
  Observer m = Some o -> s ∈ binding_reads body -> o ∈ observers_of m' s.
Proof.
  intros Hb H Ho Hs. destruct fuel as [|n]; [done | ].
  destruct Hb as [(ns & el & key & v & ->)|(tn & f & ->)].
  - destruct v as [p|f|nd|l|l]; try by apply elem_of_nil in Hs.
    cbn [interp handle forEach step] in H.
    apply bind_Done in H as ([] & m1 & H & [= <-]).
    unfold setOrRemoveAttr in H. apply bind_Done in H as (v & my & Hres & Hrest).
    simpl in Hres. apply bind_Done in Hres as (p & my' & Hev & [= <- <-]).
    destruct (eval_spec _ _ _ _ Hev) as (_ & _ & _ & _ & Hreg & _).
    pose proof (set_or_remove_quietly dom_throws String_ ns el key (VPrim p) my') as Hq.
    rewrite Hrest in Hq. destruct Hq as [Hr _].
    destruct (steps_observers_prefix _ _ _ s (reaches_steps _ _ Hr)) as [k ->].
    apply elem_of_app. left. by apply Hreg.
  - apply text_binding_run in H as (x & my & Hev & ->).
    destruct (eval_spec _ _ _ _ Hev) as (_ & _ & _ & _ & Hreg & _).
    change (o ∈ observers_of my s). by apply Hreg.
Qed.

Lemma built_preorder : PreOrder built.
Proof.
  split.
  - intros m. split_and!; [reflexivity | | | ].
    + intros s v. rewrite added_refl. apply not_elem_of_nil.
    + intros e. rewrite added_refl. split; [by intros ?%elem_of_nil | lia].
    + intros e c s Hc He. apply lookup_lt_Some in Hc. lia.
  - intros m1 m2 m3 (Hr1 & Hs1 & Hn1 & Hg1) (Hr2 & Hs2 & Hn2 & Hg2).
    pose proof (steps_effects_length _ _ _ (reaches_steps _ _ Hr1)) as Hl1.
    pose proof (steps_effects_length _ _ _ (reaches_steps _ _ Hr2)) as Hl2.
    split_and!; [by etrans | | | ].
    + intros s v. rewrite (added_trans _ _ _ Hr1 Hr2), elem_of_app.
      intros [?|?]; [by eapply Hs1 | by eapply Hs2].
    + intros e. rewrite (added_trans _ _ _ Hr1 Hr2), elem_of_app, Hn1, Hn2. lia.
    + intros e c s Hc He Hs.
      destruct (decide (e < length (effects m2))) as [Hlt|Hge].
      * destruct (lookup_lt_is_Some_2 _ _ Hlt) as [c2 Hc2].
        destruct (steps_effects _ _ _ _ _ (reaches_steps _ _ Hr2) Hc2) as (c3 & Hc3 & Hf & _).
        rewrite Hc in Hc3. injection Hc3 as <-. rewrite Hf in Hs.
        destruct (steps_observers_prefix _ _ _ s (reaches_steps _ _ Hr2)) as [k ->].
        apply elem_of_app. left. by eapply Hg1.
      * eapply Hg2; [done | lia | done].
Qed.

#[global] Existing Instance built_preorder.

(** A run that only reads and calls the DOM, and makes no effect. *)
Lemma quietly_built m m' : quietly m m' -> effects m' = effects m -> built m m'.
Proof.
  intros [Hr Hf] He. split_and!; [done | | | ].
  - intros s v. by apply outward_not_set.
  - intros e. rewrite He. split; [ | lia]. intros Hin. by apply outward_not_run in Hin.
  - intros e c s Hc Hle. rewrite He in Hc. apply lookup_lt_Some in Hc. lia.
Qed.

Lemma dom_built d m m' : dom dom_throws d m = Done tt m' -> built m m'.
Proof. intros ->%dom_Done. apply quietly_built; [by apply quietly_log | done]. Qed.

Lemma dom_new_built d ns m n m' : dom_new dom_throws d ns m = Done n m' -> built m m'.
Proof.
  intros [_ ->]%dom_new_Done. apply quietly_built; [ | done].
  transitivity (log (EvDom d) m); [by apply quietly_log | ].
  split; [eapply reaches_one, (ps_node ns (log (EvDom d) m)) | ].
  rewrite (added_eq _ _ []); [constructor | by rewrite app_nil_r].
Qed.

(** [effect] on the callback of a binding. *)
Lemma binding_effect_built fuel body m e m' :
  is_binding body ->
  effect (interp' fuel) body RVoid m = Done e m' -> built m m'.
Proof.
  intros Hb H.
  pose proof (binding_effect namespaceElements dom_throws String_ toLowerCase
                fuel body m e m' Hb H) as (_ & He & _).
  pose proof (effect_caused (interp' fuel)
                (interp_caused namespaceElements dom_throws String_ toLowerCase fuel)
                (fun _ => False) body RVoid m) as Hr.
  rewrite H in Hr. destruct Hr as [Hr _].
  apply effect_first_events in H as (-> & m2 & Hrun & -> & Ha & c & Hc & Hfn & _).
  pose proof (binding_run_quietly fuel body Hb (first_run_start body RVoid m)) as Hq.
  rewrite Hrun in Hq. destruct Hq as [_ Hq].
  split_and!; [done | | | ].
  - intros s v. rewrite Ha, !elem_of_cons. intros [Hin|[Hin|Hin]]; [discriminate.. | ].
    by apply outward_not_set in Hin.
  - intros e. rewrite Ha, He, length_app. simpl. rewrite !elem_of_cons. split.
    + intros [Hin|[Hin|Hin]]; [discriminate | injection Hin as ->; lia | ].
      by apply outward_not_run in Hin.
    + intros ?. right. left. f_equal. lia.
  - intros e c' s Hc' Hle Hs.
    assert (e = length (effects m)) as ->.
    { apply lookup_lt_Some in Hc'. rewrite He, length_app in Hc'. simpl in Hc'. lia. }
    rewrite Hc in Hc'. injection Hc' as <-. rewrite Hfn in Hs.
    change (Compute (length (effects m)) ∈ observers_of m2 s).
    eapply binding_registers; [exact Hb | exact Hrun | reflexivity | exact Hs].
Qed.
End Built.

Lemma forEach_built {A} (f : A -> M unit) l m m' :
  (forall x m m', f x m = Done tt m' -> built m m') ->
  forEach f l m = Done tt m' -> built m m'.
Proof.
  intros Hf. revert m. induction l as [|x l IH]; intros m H; simpl in *.
  - injection H as <-. reflexivity.
  - apply bind_Done in H as ([] & m1 & Hx & Hrest). etrans; eauto.
Qed.

Section BuiltCalls.
Variable namespaceElements : string -> option string.
Variable dom_throws : list event -> domcall -> bool.
Variable String_ : jsval -> string.
Variable toLowerCase : string -> string.

Local Abbreviation interp' := (interp namespaceElements dom_throws String_ toLowerCase).


Lemma add_built fuel parent child m m' :
  add dom_throws String_ (interp' fuel) parent child m = Done tt m' -> built m m'.
Proof.
  revert parent child m m'.
  induction fuel as [|n IH]; intros parent child m m' H;
    (destruct child as [p|f|nd|l|l]; cbv beta iota delta [add] in H;
     [ destruct p; try (injection H as <-; reflexivity);
         (apply bind_Done in H as (tn & m1 & H1%dom_new_built & H2%dom_built); by etrans)
     | | by apply dom_built in H
     | eapply forEach_built; [ | exact H];
         intros x m0 m0' Hx; simpl in Hx; first [done | by eapply IH]
     | injection H as <-; reflexivity ]).
  all: apply bind_Done in H as (tn & m1 & H1%dom_new_built & H).
  all: apply bind_Done in H as (e & m2 & H & H2%dom_built).
  all: apply binding_effect_built in H; [ | right; by eauto].
  all: etrans; [exact H1 | by etrans].
Qed.

End BuiltCalls.

(** ** C5: createElement, and the writes that follow *)


(** A write to a signal runs the callback of every effect whose [compute]
    is in the observer set, in a machine of the write. *)
Lemma observer_rerun ns dt str lower fuel s v m e c m' :
  Compute e ∈ observers_of m s -> effects m !! e = Some c ->
  setter (interp ns dt str lower fuel) s v m = Done tt m' ->
  exists fuel' mx my,
    interp ns dt str lower fuel' (Run (fn c)) mx = Done tt my /\
    reaches m mx /\ reaches mx my /\ reaches my m' /\
    exists t, added m mx = t ++ [EvRun e].
Proof.
  intros Hin Hc Hset.
  pose proof Hset as [Hsig Hn]%setter_Done.
  pose proof (setter_added ns dt str lower fuel s v m Hsig) as Ha.
  rewrite Hset in Ha. destruct Ha as [Hst _].
  set (ms := store s v (log (EvSet s v) m)) in *.
  assert (reaches m ms) as Hms by (by eapply reaches_one, ps_set).
  assert (Compute e ∈ observers_of m' s) as [j Hj]%list_elem_of_lookup.
  { destruct (steps_observers_prefix _ _ _ s Hst) as [k ->].
    unfold ms. rewrite store_observers_of. apply elem_of_app. by left. }
  destruct (notify_runs ns dt str lower reaches (fun _ _ H => H)
              (interp_rec_reaches ns dt str lower)
              (fun fuel => reaches_call _ (interp_rec_reaches ns dt str lower fuel))
              _ _ _ _ _ Hn j _ (Nat.le_0_l j) Hj)
    as (fuel' & ma & mb & Hma & Hcall & Hmb).
  unfold call in Hcall. apply bind_Done in Hcall as ([] & ? & [= <-] & Hrc).
  apply run_compute_Done in Hrc as (mc & c' & md & Hcl & Hc' & Hrun & ->).
  pose proof (reaches_run_cleanup _ (interp_rec_reaches ns dt str lower fuel') e
                (log (EvCall (Compute e)) ma)) as Hrcl.
  rewrite Hcl in Hrcl.
  assert (reaches m mc) as Hmc.
  { etrans; [exact Hms | ]. etrans; [exact Hma | ].
    etrans; [ | exact Hrcl]. by apply reaches_quiet. }
  destruct (steps_effects _ _ _ _ _ (reaches_steps _ _ Hmc) Hc) as (c2 & Hc2 & Hf & _).
  rewrite Hc' in Hc2. injection Hc2 as <-. rewrite Hf in Hrun.
  set (mo := set_Observer (Some (compute c')) mc) in *.
  assert (reaches m mo) as Hmo.
  { etrans; [exact Hmc | eapply reaches_one, ps_observer]. }
  exists fuel', (log (EvRun e) mo), md. split_and!.
  - exact Hrun.
  - etrans; [exact Hmo | by apply reaches_quiet].
  - pose proof (interp_rec_reaches ns dt str lower fuel' (Run (fn c)) (log (EvRun e) mo)) as H.
    by rewrite Hrun in H.
  - etrans; [apply reaches_end_of_run | exact Hmb].
  - exists (added m mo). apply added_eq. apply reaches_trace in Hmo.
    change (trace (log (EvRun e) mo)) with (trace mo ++ [EvRun e]).
    by rewrite Hmo, app_assoc.
Qed.






(** ** From a write to the text of a child *)

Lemma denote_ext vals1 vals2 e :
  (forall s, s ∈ reads e -> vals1 s = vals2 s) -> denote vals1 e = denote vals2 e.
Proof.
  induction e as [p|s0|g a IH|g a IHa b IHb]; intros H; simpl in *.
  - done.
  - apply H. by left.
  - by rewrite IH.
  - rewrite IHa, IHb; [done | | ]; intros s Hs; apply H, elem_of_app; auto.
Qed.

Lemma added_split m a ev m' :
  reaches m a -> reaches (log ev a) m' ->
  added m m' = added m a ++ ev :: added (log ev a) m'.
Proof.
  intros H1%reaches_trace H2%reaches_trace. simpl in H2. apply added_eq.
  by rewrite H2, H1, <- !app_assoc.
Qed.

(** X12: a function child given to [add] follows the signals it reads:
    every later write to one of them that returns sets the text of the
    child's text node again, to the string of the function's value on the
    signal values as they are after the events of the write that come
    before the DOM call. *)
Theorem text_child_follows_signal
    ns dt str lower fuel1 fuel2 parent f s m m1 m2 v m3 :
  add dt str (interp ns dt str lower fuel1) parent (VFun f) m = Done tt m1 ->
  s ∈ reads f ->
  reaches m1 m2 ->
  setter (interp ns dt str lower fuel2) s v m2 = Done tt m3 ->
  exists t1 t2 x,
    added m2 m3 =
      t1 ++ EvDom (set_textContent (length (nodes m)) (str (VPrim x))) :: t2 /\
    denote (values_after m2 t1) f = Some x.
Proof.
  intros Hadd Hs Hreach Hset.
  pose proof (add_built ns dt str lower fuel1 parent (VFun f) m m1 Hadd)
    as (_ & _ & _ & Hreg).
  cbv beta iota delta [add] in Hadd.
  apply bind_Done in Hadd as (tn & m0 & [-> ->]%dom_new_Done & Hadd).
  apply bind_Done in Hadd as (e & m0' & Heff & ->%dom_Done).
  apply effect_first_events in Heff as (-> & mr & _ & -> & _ & c & Hc & Hfn & _).
  set (tn := length (nodes m)) in *.
  set (e := length (effects
                (set_nodes (nodes m ++ [None]) (log (EvDom (createTextNode "")) m)))) in *.
  assert (effects (log (EvDom (appendChild parent tn))
                     (set_Observer None (set_cleanup e RVoid mr))) !! e = Some c) as Hc1
    by exact Hc.
  (* the signals that the child reads hold its effect *)
  assert (forall s', s' ∈ reads f ->
            Compute e ∈ observers_of m2 s' /\ is_Some (value_of m2 s')) as Hobs.
  { intros s' Hs'.
    assert (Compute e ∈ observers_of m2 s') as Hin.
    { destruct (steps_observers_prefix _ _ _ s' (reaches_steps _ _ Hreach)) as [k ->].
      apply elem_of_app. left. eapply Hreg; [exact Hc1 | done | by rewrite Hfn]. }
    split; [done | ]. unfold observers_of, value_of in *.
    destruct (signals m2 !! s'); [by eauto | by apply elem_of_nil in Hin]. }
  destruct (steps_effects _ _ _ _ _ (reaches_steps _ _ Hreach) Hc1) as (c2 & Hc2 & Hfn2 & _).
  destruct (observer_rerun _ _ _ _ _ _ _ _ _ _ _ (proj1 (Hobs s Hs)) Hc2 Hset)
    as (fuel' & mx & my & Hcb & H1 & H2 & H3 & _).
  rewrite Hfn2, Hfn in Hcb.
  apply (text_binding_run ns dt str lower fuel' tn f) in Hcb as (x & my0 & Hev & ->).
  destruct (eval_spec _ _ _ _ Hev) as (Hden & Hval & _).
  assert (reaches m2 my0) as Hr0 by (etrans; [exact H1 | by eapply reaches_eval]).
  exists (added m2 my0), (added (log (EvDom (set_textContent tn (str (VPrim x)))) my0) m3), x.
  split; [by apply added_split | ].
  rewrite <- Hden. apply denote_ext. intros s' Hs'.
  destruct (Hobs s' Hs') as [_ [v0 Hv0]].
  unfold values_after. rewrite Hv0. simpl.
  rewrite <- Hval. symmetry.
  by apply (steps_coherent _ _ _ _ _ (reaches_steps _ _ Hr0)).
Qed.

Lemma text_child_follows_signal_witness :
  exists m1 m3,
    add never_throws String_prim (interp svg_only never_throws String_prim toLowerCase_ascii 3)
      0 (VFun (Read 0)) (set_nodes [Some xhtml] one_counter) = Done tt m1 /\
    setter (interp svg_only never_throws String_prim toLowerCase_ascii 3) 0 (PNum 5) m1
      = Done tt m3 /\
    exists t1 t2 x,
      added m1 m3 = t1 ++ EvDom (set_textContent 1 (String_prim (VPrim x))) :: t2 /\
      denote (values_after m1 t1) (Read 0) = Some x.
Proof.
  eexists. eexists.
  assert (H1 : add never_throws String_prim
                 (interp svg_only never_throws String_prim toLowerCase_ascii 3) 0
                 (VFun (Read 0)) (set_nodes [Some xhtml] one_counter) = Done tt _)
    by (vm_compute; reflexivity).
  match type of H1 with _ = Done _ ?m1 =>
    assert (H3 : setter (interp svg_only never_throws String_prim toLowerCase_ascii 3) 0
                   (PNum 5) m1 = Done tt _)
      by (vm_compute; reflexivity)
  end.
  split; [exact H1 | split; [exact H3 | ]].
  eapply (text_child_follows_signal svg_only _ _ _ _ _ _ (Read 0) 0 _ _ _ _ _ H1);
    [by left | reflexivity | exact H3].
Defined.
